(** * fswatch: a shallow embedding of [fswatch.go] and its verified properties

    The development follows the source file top to bottom: the signal table
    built by [init], configuration fix-up ([fixFWConfig]), the directory walk
    ([ListAllDir], [WatchPathAndChildren]), the change filter ([IsChanged],
    [transformEvent]) and the trigger engine ([Start], [Stop], [WatchEvent]).

    Go values are modelled as follows.
    - [string] is a byte string (Rocq's [string], one [ascii] per byte).
    - [int], [int64], [time.Duration] are [Z]; unsigned 64-bit arithmetic is
      written with [u64].
    - Go maps are stdpp [gmap]s; a missing key reads as the zero value.
    - [os.Signal] is an interface value: [option Z], [None] for [nil].
    - A function returning [(T, error)] returns a pair whose second component
      is [option GoError], [None] for a nil error.
    - Functions of packages that are not part of the repository are either
      modelled after their Go source (packages [time], [path/filepath],
      [strings], [os]) or taken as parameters of a [Section] (package
      [dockerignore]).  Of [fsnotify] the model keeps the set of watched
      paths, under the cleaned names the watcher files them by; of [kexec]
      the order in which commands are created and that [Terminate] sends
      nothing when the signal is nil; what the engine does to a command is
      recorded as a list of [Action]s. *)

From Stdlib Require Import ZArith List String Ascii Bool Lia Floats Uint63.
From stdpp Require Import gmap strings list fin_maps pretty.

Local Open Scope string_scope.
Local Open Scope Z_scope.

Set Warnings "-register-all".

(** ** Errors *)

(** The error values that can flow through the modelled code. *)
Inductive GoError : Type :=
  | ErrInvalidDuration (orig : string)
  | ErrMissingUnit (orig : string)
  | ErrUnknownUnit (unit orig : string)
  | ErrReadIgnore (msg : string)
  | ErrMatch (msg : string)
  | ErrWatch (msg : string).

(** ** Bytes and strings (packages [strings], [os], [path/filepath]) *)

Definition byte_val (c : ascii) : Z := Z.of_N (N_of_ascii c).

Definition isDigit (c : ascii) : bool := (48 <=? byte_val c) && (byte_val c <=? 57).

Definition isSlash (c : ascii) : bool := byte_val c =? 47.

Definition newline : ascii := ascii_of_N 10.

Definition u64 (z : Z) : Z := z mod 2 ^ 64.

(** [strings.Join(elems, sep)]. *)
Fixpoint strings_Join (elems : list string) (sep : string) : string :=
  match elems with
  | [] => ""
  | [e] => e
  | e :: rest => e +:+ sep +:+ strings_Join rest sep
  end.

(** [strings.Count(s, string(os.PathSeparator))]: the number of ['/'] bytes. *)
Fixpoint countSeps (s : string) : Z :=
  match s with
  | EmptyString => 0
  | String c rest => (if isSlash c then 1 else 0) + countSeps rest
  end.

(** [strings.HasPrefix(s, ".")]. *)
Definition hasDotPrefix (s : string) : bool :=
  match s with
  | String c _ => byte_val c =? 46
  | EmptyString => false
  end.

(** Splits a path at every ['/'] (the elements between separators; empty
    elements are kept). *)
Fixpoint splitSlash_go (cur : string) (s : string) : list string :=
  match s with
  | EmptyString => [cur]
  | String c rest =>
      if isSlash c then cur :: splitSlash_go "" rest
      else splitSlash_go (cur +:+ String c "") rest
  end.

Definition splitSlash (s : string) : list string := splitSlash_go "" s.

(** One element of [filepath.Clean]'s scan.  [out] holds the elements written
    so far, last element first.  A [".."] element removes the last written
    element when there is one that is not itself a kept [".."]; otherwise it
    is kept for an unrooted path and dropped for a rooted one. *)
Definition cleanStep (rooted : bool) (out : list string) (elem : string) : list string :=
  if decide (elem = "") then out
  else if decide (elem = ".") then out
  else if decide (elem = "..") then
    match out with
    | top :: below => if decide (top = "..") then elem :: out else below
    | [] => if rooted then out else [elem]
    end
  else elem :: out.

(** [filepath.Clean(path)] on a system whose separator is ['/']. *)
Definition filepath_Clean (path : string) : string :=
  match path with
  | EmptyString => "."
  | String c _ =>
      let rooted := isSlash c in
      let out := rev (foldl (cleanStep rooted) [] (splitSlash path)) in
      let body := strings_Join out "/" in
      if rooted then "/" +:+ body
      else if decide (body = "") then "." else body
  end.

(** [filepath.Join(dir, name)]: the first non-empty element onwards, joined
    with the separator and cleaned. *)
Definition filepath_Join (dir name : string) : string :=
  if decide (dir = "") then
    if decide (name = "") then "" else filepath_Clean name
  else filepath_Clean (dir +:+ "/" +:+ name).

(** Drops trailing ['/'] bytes while more than one byte is left ([os.basename],
    first loop). *)
Fixpoint stripTrailingSlashes (rev_name : list ascii) : list ascii :=
  match rev_name with
  | c :: (_ :: _) as rest => if isSlash c then stripTrailingSlashes rest else rev_name
  | _ => rev_name
  end.

(** Takes the bytes before the first ['/'] of a reversed name, where the
    first byte is never examined ([os.basename], second loop starts at
    [i--]). *)
Fixpoint takeToSlash (l : list ascii) : list ascii :=
  match l with
  | [] => []
  | c :: rest => if isSlash c then [] else c :: takeToSlash rest
  end.

(** [os.basename(name)], which gives [FileInfo.Name()] of [os.Lstat(name)]. *)
Definition os_basename (name : string) : string :=
  match stripTrailingSlashes (rev (list_ascii_of_string name)) with
  | [] => ""
  | c :: rest => string_of_list_ascii (rev (c :: takeToSlash rest))
  end.

(** ** Package [time]: durations *)

(** [time.Duration] is an [int64] count of nanoseconds. *)
Definition Duration : Type := Z.

Definition Nanosecond : Duration := 1.
Definition Microsecond : Duration := 1000 * Nanosecond.
Definition Millisecond : Duration := 1000 * Microsecond.
Definition Second : Duration := 1000 * Millisecond.
Definition Minute : Duration := 60 * Second.
Definition Hour : Duration := 60 * Minute.

(** [float64(x)] for an unsigned 64-bit [x], rounded to nearest even.  The
    primitive conversion takes 63 bits; a value with bit 63 set is halved with
    its lowest bit kept as a sticky bit, converted, and doubled. *)
Definition float64_of_u64 (x : Z) : float :=
  if x <? 2 ^ 63 then PrimFloat.of_uint63 (Uint63.of_Z x)
  else PrimFloat.mul
         (PrimFloat.of_uint63 (Uint63.of_Z (Z.lor (Z.shiftr x 1) (Z.land x 1))))
         (PrimFloat.of_uint63 (Uint63.of_Z 2)).

(** [uint64(x)] for a finite non-negative [float64]: truncation. *)
Definition u64_of_float64 (x : float) : Z :=
  match Prim2SF x with
  | S754_finite false m e =>
      if 0 <=? e then Z.shiftl (Z.pos m) e else Z.shiftr (Z.pos m) (- e)
  | _ => 0
  end.

(** [leadingInt]: consumes the leading [[0-9]*]; [None] is [errLeadingInt]. *)
Fixpoint leadingInt_go (x : Z) (s : string) : option (Z * string) :=
  match s with
  | String c rest =>
      if isDigit c then
        if x >? 2 ^ 63 / 10 then None
        else
          let x' := u64 (x * 10 + byte_val c - 48) in
          if x' >? 2 ^ 63 then None else leadingInt_go x' rest
      else Some (x, s)
  | EmptyString => Some (x, s)
  end.

Definition leadingInt (s : string) : option (Z * string) := leadingInt_go 0 s.

(** [leadingFraction]: consumes the leading [[0-9]*], keeping the digits that
    fit and the matching power of ten. *)
Fixpoint leadingFraction_go (x : Z) (scale : float) (overflow : bool) (s : string)
  : Z * float * string :=
  match s with
  | String c rest =>
      if isDigit c then
        if overflow then leadingFraction_go x scale true rest
        else if x >? (2 ^ 63 - 1) / 10 then leadingFraction_go x scale true rest
        else
          let y := u64 (x * 10 + byte_val c - 48) in
          if y >? 2 ^ 63 then leadingFraction_go x scale true rest
          else leadingFraction_go y (PrimFloat.mul scale (float64_of_u64 10)) false rest
      else (x, scale, s)
  | EmptyString => (x, scale, s)
  end.

Definition leadingFraction (s : string) : Z * float * string :=
  leadingFraction_go 0 (float64_of_u64 1) false s.

(** The unit of one element: the bytes up to the next ['.'] or digit. *)
Fixpoint spanUnit (s : string) : string * string :=
  match s with
  | String c rest =>
      if (byte_val c =? 46) || isDigit c then ("", s)
      else let '(u, r) := spanUnit rest in (String c u, r)
  | EmptyString => ("", "")
  end.

(** [unitMap]; the two spellings of the microsecond sign are the UTF-8
    encodings of U+00B5 and U+03BC. *)
Definition unitMap : gmap string Z :=
  list_to_map
    [ ("ns", Nanosecond);
      ("us", Microsecond);
      (String (ascii_of_N 194) (String (ascii_of_N 181) "s"), Microsecond);
      (String (ascii_of_N 206) (String (ascii_of_N 188) "s"), Microsecond);
      ("ms", Millisecond);
      ("s", Second);
      ("m", Minute);
      ("h", Hour) ].

(** The body of [ParseDuration]'s [for s != ""] loop, run at most [fuel]
    times; [None] only when the fuel runs out (see [parseElems_fuel]). *)
Fixpoint parseElems (fuel : nat) (orig : string) (d : Z) (s : string)
  : option (Z * option GoError) :=
  match fuel with
  | O => None
  | S fuel' =>
      match s with
      | EmptyString => Some (d, None)
      | String c _ =>
          if negb ((byte_val c =? 46) || isDigit c) then
            Some (0, Some (ErrInvalidDuration orig))
          else
            match leadingInt s with
            | None => Some (0, Some (ErrInvalidDuration orig))
            | Some (v, s1) =>
                let pre := negb (String.length s =? String.length s1)%nat in
                let '(f, scale, s2, post) :=
                  match s1 with
                  | String c1 s1' =>
                      if byte_val c1 =? 46 then
                        let '(f, scale, s2) := leadingFraction s1' in
                        (f, scale, s2, negb (String.length s1' =? String.length s2)%nat)
                      else (0, float64_of_u64 1, s1, false)
                  | EmptyString => (0, float64_of_u64 1, s1, false)
                  end in
                if negb pre && negb post then
                  Some (0, Some (ErrInvalidDuration orig))
                else
                  let '(u, s3) := spanUnit s2 in
                  if decide (u = "") then Some (0, Some (ErrMissingUnit orig))
                  else
                    match unitMap !! u with
                    | None => Some (0, Some (ErrUnknownUnit u orig))
                    | Some unit =>
                        if v >? 2 ^ 63 / unit then
                          Some (0, Some (ErrInvalidDuration orig))
                        else
                          let v1 := u64 (v * unit) in
                          let v2 :=
                            if f >? 0 then
                              u64 (v1 + u64_of_float64
                                     (PrimFloat.mul (float64_of_u64 f)
                                        (PrimFloat.div (float64_of_u64 unit) scale)))
                            else v1 in
                          if (f >? 0) && (v2 >? 2 ^ 63) then
                            Some (0, Some (ErrInvalidDuration orig))
                          else
                            let d' := u64 (d + v2) in
                            if d' >? 2 ^ 63 then
                              Some (0, Some (ErrInvalidDuration orig))
                            else parseElems fuel' orig d' s3
                    end
            end
      end
  end.

(** [time.ParseDuration(s)]: a signed sequence of decimal numbers, each with
    an optional fraction and a unit suffix. *)
Definition ParseDuration (orig : string) : Duration * option GoError :=
  let '(neg, s) :=
    match orig with
    | String c rest =>
        if (byte_val c =? 45) || (byte_val c =? 43) then (byte_val c =? 45, rest)
        else (false, orig)
    | EmptyString => (false, orig)
    end in
  if decide (s = "0") then (0, None)
  else if decide (s = "") then (0, Some (ErrInvalidDuration orig))
  else
    match parseElems (S (String.length s)) orig 0 s with
    | None => (0, Some (ErrInvalidDuration orig))
    | Some (_, Some e) => (0, Some e)
    | Some (d, None) =>
        if neg then (- d, None)
        else if d >? 2 ^ 63 - 1 then (0, Some (ErrInvalidDuration orig))
        else (d, None)
    end.

(** ** The signal table ([signalMaps] and [init]) *)

(** [syscall.Signal] values (Linux numbering). *)
Definition SIGHUP : Z := 1.
Definition SIGINT : Z := 2.
Definition SIGQUIT : Z := 3.
Definition SIGTRAP : Z := 5.
Definition SIGKILL : Z := 9.
Definition SIGTERM : Z := 15.

(** The composite literal that initialises [signalMaps]. *)
Definition signalMaps_literal : gmap string Z :=
  list_to_map
    [ ("INT", SIGINT); ("HUP", SIGHUP); ("QUIT", SIGQUIT);
      ("TRAP", SIGTRAP); ("TERM", SIGTERM); ("KILL", SIGKILL) ].

(** One iteration of [init]'s [range signalMaps] loop, for the entry at [key]:
    it adds the ["SIG"]-prefixed name and the decimal number. *)
Definition initStep (m : gmap string Z) (key : string) : gmap string Z :=
  match m !! key with
  | Some val => <[pretty val := val]> (<["SIG" +:+ key := val]> m)
  | None => m
  end.

(** [init] inserts into the map it ranges over; Go leaves open whether the
    entries added during the loop are visited too.  [visited] is the sequence
    of keys the loop produced. *)
Definition initSignalMaps (visited : list string) : gmap string Z :=
  foldl initStep signalMaps_literal visited.

(** The keys every run of the loop visits: those of the literal. *)
Definition literalKeys : list string := ["INT"; "HUP"; "QUIT"; "TRAP"; "TERM"; "KILL"].

(** ** Configuration ([TriggerEvent], [FWConfig]) *)

(** A started command: the handle [kexec.CommandString] returns, told apart by
    the order in which the engine created them. *)
Definition KCommand : Type := nat.

Record TriggerEvent : Type := mkTriggerEvent {
  Name : string;
  Pattens : list string;
  matchPattens : list string;
  Environ : gmap string string;
  Command : string;
  Delay : string;
  delayDuration : Duration;
  Signal : string;
  killSignal : option Z;
  kcmd : option KCommand
}.

Record FSEvent : Type := mkFSEvent { fse_Name : string }.

Record FWConfig : Type := mkFWConfig {
  Description : string;
  Triggers : list TriggerEvent;
  WatchPaths : list string;
  WatchDepth : Z
}.

Definition set_Delay (v : string) (t : TriggerEvent) : TriggerEvent :=
  mkTriggerEvent (Name t) (Pattens t) (matchPattens t) (Environ t) (Command t)
    v (delayDuration t) (Signal t) (killSignal t) (kcmd t).

Definition set_delayDuration (v : Duration) (t : TriggerEvent) : TriggerEvent :=
  mkTriggerEvent (Name t) (Pattens t) (matchPattens t) (Environ t) (Command t)
    (Delay t) v (Signal t) (killSignal t) (kcmd t).

Definition set_Signal (v : string) (t : TriggerEvent) : TriggerEvent :=
  mkTriggerEvent (Name t) (Pattens t) (matchPattens t) (Environ t) (Command t)
    (Delay t) (delayDuration t) v (killSignal t) (kcmd t).

Definition set_killSignal (v : option Z) (t : TriggerEvent) : TriggerEvent :=
  mkTriggerEvent (Name t) (Pattens t) (matchPattens t) (Environ t) (Command t)
    (Delay t) (delayDuration t) (Signal t) v (kcmd t).

Definition set_matchPattens (v : list string) (t : TriggerEvent) : TriggerEvent :=
  mkTriggerEvent (Name t) (Pattens t) v (Environ t) (Command t)
    (Delay t) (delayDuration t) (Signal t) (killSignal t) (kcmd t).

Definition set_kcmd (v : option KCommand) (t : TriggerEvent) : TriggerEvent :=
  mkTriggerEvent (Name t) (Pattens t) (matchPattens t) (Environ t) (Command t)
    (Delay t) (delayDuration t) (Signal t) (killSignal t) v.

(** ** Configuration fix-up ([fixFWConfig]) *)

Section FixConfig.

(** The global [signalMaps] as [init] left it. *)
Variable signalMaps : gmap string Z.

(** [ignore.ReadIgnore] applied to a reader over the given text. *)
Variable ReadIgnore : string -> list string * option GoError.

(** The body of the loop over [in.Triggers], for one trigger.  The result is
    the element of [out.Triggers] as the loop leaves it and the value of [err];
    a non-nil [err] makes [fixFWConfig] return at once. *)
Definition fixTrigger (trigger : TriggerEvent) : TriggerEvent * option GoError :=
  let outTg := if decide (Delay trigger = "") then set_Delay "100ms" trigger else trigger in
  let '(d, err) := ParseDuration (Delay outTg) in
  let outTg := set_delayDuration d outTg in
  match err with
  | Some e => (outTg, Some e)
  | None =>
      let outTg := if decide (Signal outTg = "") then set_Signal "HUP" outTg else outTg in
      let outTg := set_killSignal (signalMaps !! Signal outTg) outTg in
      let '(patterns, er) := ReadIgnore (strings_Join (Pattens outTg) (String newline "")) in
      match er with
      | Some e => (outTg, Some e)
      | None => (set_matchPattens patterns outTg, None)
      end
  end.

(** The loop over [in.Triggers]: triggers are fixed in order up to the first
    error; the triggers after it are left as they were. *)
Fixpoint fixTriggers (triggers : list TriggerEvent) : list TriggerEvent * option GoError :=
  match triggers with
  | [] => ([], None)
  | trigger :: rest =>
      match fixTrigger trigger with
      | (outTg, Some e) => (outTg :: rest, Some e)
      | (outTg, None) =>
          let '(rest', err) := fixTriggers rest in (outTg :: rest', err)
      end
  end.

(** [fixFWConfig(in)], returning [(out, err)].  [out] shares the trigger array
    with [in] in the source; the model returns the updated copy. *)
Definition fixFWConfig (inp : FWConfig) : FWConfig * option GoError :=
  match fixTriggers (Triggers inp) with
  | (tgs, Some e) =>
      (mkFWConfig (Description inp) tgs (WatchPaths inp) (WatchDepth inp), Some e)
  | (tgs, None) =>
      let paths := if decide (length (WatchPaths inp) = 0%nat)
                   then (WatchPaths inp ++ ["."])%list else WatchPaths inp in
      let depth := if decide (WatchDepth inp = 0) then 5 else WatchDepth inp in
      (mkFWConfig (Description inp) tgs paths depth, None)
  end.

End FixConfig.

(** ** The directory walk ([filepath.Walk], [ListAllDir]) *)

(** A file tree as [os.Lstat] and directory reads show it: a directory lists
    its entries by name, in the order [filepath.Walk] visits them (sorted).
    Anything that is not a directory, a symbolic link included, is a [File].
    The model covers trees that can be read without error: every entry can
    be stat'ed and every directory listed. *)
Inductive Node : Type :=
  | File
  | Dir (entries : list (string * Node)).

Definition isDirNode (n : Node) : bool :=
  match n with Dir _ => true | File => false end.

(** What a [WalkFunc] returns besides [nil]. *)
Inductive WalkErr : Type :=
  | SkipDir
  | WalkFailure (e : GoError).

Definition isSkipDir (e : WalkErr) : bool :=
  match e with SkipDir => true | WalkFailure _ => false end.

(** A [filepath.WalkFunc] acting on the state [S] its closure captures.  Its
    arguments are the path, [info.Name()] and [info.IsDir()]. *)
Definition WalkFunc (S : Type) : Type :=
  string -> string -> bool -> S -> S * option WalkErr.

(** [filepath]'s recursive [walk]: the function is called on the node; below
    a directory that it accepts, each entry is walked under the joined path; a
    [SkipDir] from a directory entry skips that entry only, any other error
    ends the walk of this directory. *)
Fixpoint walk {S : Type} (fn : WalkFunc S) (path name : string) (n : Node) (s : S)
  : S * option WalkErr :=
  match n with
  | File => fn path name false s
  | Dir entries =>
      match fn path name true s with
      | (s1, Some e) => (s1, Some e)
      | (s1, None) =>
          (fix walkEntries (es : list (string * Node)) (s : S) : S * option WalkErr :=
             match es with
             | [] => (s, None)
             | (nm, child) :: rest =>
                 match walk fn (filepath_Join path nm) nm child s with
                 | (s2, Some e) =>
                     if isDirNode child && isSkipDir e then walkEntries rest s2
                     else (s2, Some e)
                 | (s2, None) => walkEntries rest s2
                 end
             end) entries s1
      end
  end.

(** The loop of [walk] over the entries of a directory at [path]. *)
Definition walkEntries {S : Type} (fn : WalkFunc S) (path : string)
  : list (string * Node) -> S -> S * option WalkErr :=
  fix walkEntries (es : list (string * Node)) (s : S) : S * option WalkErr :=
    match es with
    | [] => (s, None)
    | (nm, child) :: rest =>
        match walk fn (filepath_Join path nm) nm child s with
        | (s2, Some e) =>
            if isDirNode child && isSkipDir e then walkEntries rest s2
            else (s2, Some e)
        | (s2, None) => walkEntries rest s2
        end
    end.

(** [filepath.Walk(root, fn)] for a root that exists: [SkipDir] from the root
    itself is not an error. *)
Definition filepath_Walk {S : Type} (fn : WalkFunc S) (root : string) (n : Node) (s : S)
  : S * option GoError :=
  match walk fn root (os_basename root) n s with
  | (s', None) => (s', None)
  | (s', Some SkipDir) => (s', None)
  | (s', Some (WalkFailure e)) => (s', Some e)
  end.

(** The closure [ListAllDir] passes to [filepath.Walk]; the captured [dirs] is
    the state. *)
Definition listDirFn (baseNumSeps depth : Z) : WalkFunc (list string) :=
  fun path base isDir dirs =>
    if isDir then
      if negb (bool_decide (base = ".")) && hasDotPrefix base then (dirs, Some SkipDir)
      else
        let pathDepth := countSeps path - baseNumSeps in
        if pathDepth >? depth then (dirs, Some SkipDir)
        else ((dirs ++ [path])%list, None)
    else (dirs, None).

(** [ListAllDir(path, depth)] where [path] names the tree [root]. *)
Definition ListAllDir (path : string) (root : Node) (depth : Z)
  : list string * option GoError :=
  let baseNumSeps := countSeps path in
  filepath_Walk (listDirFn baseNumSeps depth) path root [].

(** ** The watch pipeline's state *)

(** [fsw] is the set of cleaned paths registered with the
    [fsnotify.Watcher] by [Add] and not taken back by [Remove], [visits] the
    map [main] passes to [WatchPathAndChildren], and [fileModifyTimeMap] the
    global of that name.  A [time.Time] is counted in nanoseconds from the
    zero [Time]. *)
Record World : Type := mkWorld {
  fsw : gset string;
  visits : gmap string bool;
  fileModifyTimeMap : gmap string Z
}.

(** [w.Add(name)]: [fsnotify] cleans the name with [filepath.Clean] and keeps
    one watch per cleaned path, so that ["./pkg"] and ["pkg"] are the same
    watch.  Every caller drops the error [Add] may return; the model takes the
    registration to succeed. *)
Definition fsw_Add (name : string) (w : World) : World :=
  mkWorld ({[filepath_Clean name]} ∪ fsw w) (visits w) (fileModifyTimeMap w).

(** [w.Remove(name)]: the name is cleaned in the same way; the call fails
    when no watch is held for the cleaned path. *)
Definition fsw_Remove (name : string) (w : World) : World * option GoError :=
  let name := filepath_Clean name in
  if decide (name ∈ fsw w) then
    (mkWorld (fsw w ∖ {[name]}) (visits w) (fileModifyTimeMap w), None)
  else (w, Some (ErrWatch "can't remove non-existent watch")).

(** [visits[dir]]: a missing key reads as [false]. *)
Definition visited (w : World) (dir : string) : bool := default false (visits w !! dir).

(** ** Registering the initial watches ([WatchPathAndChildren]) *)

(** The closure [watchDir]; the second component lists the calls of [w.Add]
    made so far, oldest first. *)
Definition watchDir (st : World * list string) (dir : string) : World * list string :=
  let '(w, adds) := st in
  if visited w dir then st
  else
    let w1 := fsw_Add dir w in
    (mkWorld (fsw w1) (<[dir := true]> (visits w1)) (fileModifyTimeMap w1),
     (adds ++ [dir])%list).

Section Walking.

(** The tree a root path names, [None] when [os.Lstat] fails on it. *)
Variable lstat : string -> option Node.

(** [WatchPathAndChildren(w, paths, depth, visits)].  The result is [None]
    when the call panics: [filepath.Walk] hands the closure of [ListAllDir] a
    nil [FileInfo] for a root it cannot stat, and the closure calls
    [info.IsDir()] on it.  The walk panics in the same way at an entry below
    a root that it reaches and cannot stat; the trees of [Node] hold no such
    entry, so a result other than [None] says what the call does on trees
    that can be read throughout. *)
Fixpoint WatchPathAndChildren (paths : list string) (depth : Z)
    (st : World * list string) (err : option GoError)
  : option (World * list string * option GoError) :=
  match paths with
  | [] => Some (st, err)
  | path :: rest =>
      if visited (fst st) path then WatchPathAndChildren rest depth st err
      else
        let st1 := watchDir st path in
        match lstat path with
        | None => None
        | Some root =>
            match ListAllDir path root depth with
            | (_, Some er) => WatchPathAndChildren rest depth st1 (Some er)
            | (dirs, None) => WatchPathAndChildren rest depth (foldl watchDir st1 dirs) err
            end
        end
  end.

End Walking.

(** ** The change filter ([IsDirectory], [IsChanged], [transformEvent]) *)

(** What [os.Stat] reports of a path. *)
Record FileInfo : Type := mkFileInfo {
  fi_IsDir : bool;
  fi_ModTime : Z
}.

(** The file system at the moment one notification is handled: [os.Stat] of a
    path, [None] when it fails. *)
Definition Stat : Type := string -> option FileInfo.

Definition IsDirectory (stat : Stat) (path : string) : bool :=
  match stat path with
  | Some pinfo => fi_IsDir pinfo
  | None => false
  end.

Definition minDuration : Duration := - 2 ^ 63.
Definition maxDuration : Duration := 2 ^ 63 - 1.

(** [t.Sub(u)]: the difference, saturated to the range of [Duration]. *)
Definition time_Sub (t u : Z) : Duration :=
  let d := t - u in
  if d <? minDuration then minDuration
  else if maxDuration <? d then maxDuration
  else d.

(** [IsChanged(path)]: the answer and the new [fileModifyTimeMap]. *)
Definition IsChanged (stat : Stat) (m : gmap string Z) (path : string)
  : bool * gmap string Z :=
  match stat path with
  | None => (true, m)
  | Some pinfo =>
      let mtime := fi_ModTime pinfo in
      if time_Sub mtime (default 0 (m !! path)) >? Millisecond * 100 then
        (true, <[path := mtime]> m)
      else (false, m)
  end.

(** [fsnotify.Op] is a bit mask. *)
Definition Create : Z := 1.
Definition Write : Z := 2.
Definition Remove : Z := 4.
Definition Rename : Z := 8.
Definition Chmod : Z := 16.

Record Event : Type := mkEvent {
  ev_Name : string;
  ev_Op : Z
}.

(** The body of [transformEvent]'s loop for one notification: the new state
    and what is sent on [evtC]. *)
Definition transformStep (stat : Stat) (w : World) (evt : Event) : World * list FSEvent :=
  if (ev_Op evt =? Create) && IsDirectory stat (ev_Name evt) then
    (fsw_Add (ev_Name evt) w, [])
  else if ev_Op evt =? Remove then
    (fst (fsw_Remove (ev_Name evt) w), [])
  else
    let '(changed, m) := IsChanged stat (fileModifyTimeMap w) (ev_Name evt) in
    let w' := mkWorld (fsw w) (visits w) m in
    if changed then (w', [mkFSEvent (ev_Name evt)]) else (w', []).

(** [transformEvent(fsw, evtC)] over the notifications read from
    [fsw.Events], each with the file system it is handled in, while [evtC] is
    open (a send on the closed channel panics). *)
Fixpoint transformEvent (w : World) (evts : list (Stat * Event)) : World * list FSEvent :=
  match evts with
  | [] => (w, [])
  | (stat, evt) :: rest =>
      let '(w1, sent) := transformStep stat w evt in
      let '(w2, sent') := transformEvent w1 rest in
      (w2, (sent ++ sent')%list)
  end.

(** ** The trigger engine ([Start], [Stop], [WatchEvent]) *)

(** What the engine does to the outside world, in order.  [ActExited] marks a
    [Stop] that found the command already exited and dropped its handle
    without signalling; [ActDone] is [wg.Done()]. *)
Inductive Action : Type :=
  | ActStart (c : KCommand) (command : string) (env : list string)
  | ActTerminate (c : KCommand) (sig : option Z)
  | ActExited (c : KCommand)
  | ActSleep (d : Duration)
  | ActDone.

(** The engine's own state: its copy of the trigger (with [kcmd]), the number
    of commands created so far, and the actions performed. *)
Record Engine : Type := mkEngine {
  eng_tg : TriggerEvent;
  eng_count : nat;
  eng_trace : list Action
}.

(** An event received from the channel, together with what [Stop] would then
    see of [kcmd.ProcessState]: whether it is set and reports [Exited()]. *)
Record Arrival : Type := mkArrival {
  arr_evt : FSEvent;
  arr_exited : bool
}.

(** How [WatchEvent] ends: it returns after the channel was closed, or
    [log.Fatal] ends the program. *)
Inductive Outcome : Type :=
  | Returned
  | Fatal (e : GoError).

(** [fmt.Sprintf("%s=%s", key, val)]. *)
Definition envEntry (kv : string * string) : string := fst kv +:+ "=" +:+ snd kv.

Section TriggerEngine.

(** [ignore.Matches(file, patterns)]. *)
Variable Matches : string -> list string -> bool * option GoError.

(** [os.Environ()]. *)
Variable osEnviron : list string.

(** The order in which [range this.Environ] produces the entries of a map. *)
Variable rangeOrder : gmap string string -> list (string * string).

(** The slice assigned to [cmd.Env]. *)
Definition startEnv (this : TriggerEvent) : list string :=
  (osEnviron ++ map envEntry (rangeOrder (Environ this)))%list.

(** [this.Start()]: a new command is created and started, and [this.kcmd]
    is overwritten with it.  The error of [cmd.Start()] is returned to a caller
    that drops it. *)
Definition Start (e : Engine) : Engine :=
  let cmd : KCommand := eng_count e in
  mkEngine (set_kcmd (Some cmd) (eng_tg e)) (S (eng_count e))
    (eng_trace e ++ [ActStart cmd (Command (eng_tg e)) (startEnv (eng_tg e))])%list.

(** [this.Stop()]. *)
Definition Stop (exited : bool) (e : Engine) : Engine :=
  match kcmd (eng_tg e) with
  | None => e
  | Some cmd =>
      if exited then
        mkEngine (set_kcmd None (eng_tg e)) (eng_count e)
          (eng_trace e ++ [ActExited cmd])%list
      else
        mkEngine (set_kcmd None (eng_tg e)) (eng_count e)
          (eng_trace e ++ [ActTerminate cmd (killSignal (eng_tg e))])%list
  end.

(** [time.Sleep(d)]. *)
Definition Sleep (d : Duration) (e : Engine) : Engine :=
  mkEngine (eng_tg e) (eng_count e) (eng_trace e ++ [ActSleep d])%list.

(** The pattern test of the loop body. *)
Definition isMatch (this : TriggerEvent) (evt : FSEvent) : bool * option GoError :=
  Matches (fse_Name evt) (Pattens this).

(** The body of [for evt := range evtC].  A non-nil error is the one
    [log.Fatal] ends the program with; the engine has done nothing more by
    then. *)
Definition onEvent (e : Engine) (a : Arrival) : Engine * option GoError :=
  match isMatch (eng_tg e) (arr_evt a) with
  | (_, Some err) => (e, Some err)
  | (false, None) => (e, None)
  | (true, None) =>
      let e := Stop (arr_exited a) e in
      let e := Sleep (delayDuration (eng_tg e)) e in
      (Start e, None)
  end.

(** The [for ... range evtC] loop over the events received before the
    channel is closed. *)
Fixpoint eventLoop (e : Engine) (arrivals : list Arrival) : Engine * option GoError :=
  match arrivals with
  | [] => (e, None)
  | a :: rest =>
      match onEvent e a with
      | (e', None) => eventLoop e' rest
      | (e', Some err) => (e', Some err)
      end
  end.

(** What follows the loop: [this.Stop(); wg.Done()]. *)
Definition onClose (exited : bool) (e : Engine) : Engine :=
  let e := Stop exited e in
  mkEngine (eng_tg e) (eng_count e) (eng_trace e ++ [ActDone])%list.

(** The engine as [drainEvent] creates it: a copy of the trigger, nothing
    done yet. *)
Definition newEngine (tge : TriggerEvent) : Engine := mkEngine tge 0 [].

(** [tge.WatchEvent(evtC, wg)] for a channel that delivers [arrivals] and is
    then closed; [closeExited] is what the last [Stop] sees of the command.
    The result is everything the engine did and how it ended. *)
Definition WatchEvent (tge : TriggerEvent) (arrivals : list Arrival) (closeExited : bool)
  : list Action * Outcome :=
  match eventLoop (Start (newEngine tge)) arrivals with
  | (e, None) => (eng_trace (onClose closeExited e), Returned)
  | (e, Some err) => (eng_trace e, Fatal err)
  end.

End TriggerEngine.

(** ** Package [dockerignore] as used in the worked examples

    The package is not part of the repository; the theorems below hold for
    every behaviour of its two functions.  The closed examples need one
    behaviour to run with, and use the following. *)

(** The UTF-8 encodings of the code points [unicode.IsSpace] accepts. *)
Definition spaceEncodings : list (list Z) :=
  [ [9]; [10]; [11]; [12]; [13]; [32]; [194; 133]; [194; 160];
    [225; 154; 128];
    [226; 128; 128]; [226; 128; 129]; [226; 128; 130]; [226; 128; 131];
    [226; 128; 132]; [226; 128; 133]; [226; 128; 134]; [226; 128; 135];
    [226; 128; 136]; [226; 128; 137]; [226; 128; 138];
    [226; 128; 168]; [226; 128; 169]; [226; 128; 175];
    [226; 129; 159]; [227; 128; 128] ].

(** [Some rest] when [l] starts with the bytes [p]. *)
Fixpoint stripBytes (p : list Z) (l : list ascii) : option (list ascii) :=
  match p, l with
  | [], _ => Some l
  | b :: p', c :: l' => if byte_val c =? b then stripBytes p' l' else None
  | _ :: _, [] => None
  end.

(** Removes one leading code point that is white space, if there is one. *)
Fixpoint stripOneOf (encs : list (list Z)) (l : list ascii) : option (list ascii) :=
  match encs with
  | [] => None
  | p :: rest =>
      match stripBytes p l with
      | Some l' => Some l'
      | None => stripOneOf rest l
      end
  end.

Fixpoint trimLeft (encs : list (list Z)) (fuel : nat) (l : list ascii) : list ascii :=
  match fuel with
  | O => l
  | S fuel' =>
      match stripOneOf encs l with
      | Some l' => trimLeft encs fuel' l'
      | None => l
      end
  end.

(** [strings.TrimSpace(s)]. *)
Definition strings_TrimSpace (s : string) : string :=
  let l := list_ascii_of_string s in
  let l1 := trimLeft spaceEncodings (length l) l in
  let r := rev l1 in
  let r1 := trimLeft (map (@rev Z) spaceEncodings) (length r) r in
  string_of_list_ascii (rev r1).

(** [dropCR]: a line loses one trailing carriage return. *)
Definition dropCR (line : string) : string :=
  match rev (list_ascii_of_string line) with
  | c :: rest => if byte_val c =? 13 then string_of_list_ascii (rev rest) else line
  | [] => line
  end.

(** The tokens a [bufio.Scanner] with [ScanLines] yields for a text. *)
Fixpoint scanLines_go (cur : string) (s : string) : list string :=
  match s with
  | EmptyString => if decide (cur = "") then [] else [dropCR cur]
  | String c rest =>
      if byte_val c =? 10 then dropCR cur :: scanLines_go "" rest
      else scanLines_go (cur +:+ String c "") rest
  end.

Definition scanLines (s : string) : list string := scanLines_go "" s.

(** [bufio.MaxScanTokenSize]. *)
Definition MaxScanTokenSize : Z := 64 * 1024.

(** A stand-in for [ReadIgnore]: one pattern per line, white space
    trimmed, blank lines dropped, each pattern cleaned; the only error is the
    scanner's, for a line that does not fit its buffer.  It agrees with the
    package on texts that hold no line starting with ['#'], which the package
    drops as a comment, and no line within two bytes of the scanner's limit,
    where the package counts the line end as well; the examples use no other
    texts. *)
Definition dockerignore_ReadIgnore (text : string) : list string * option GoError :=
  let lines := scanLines text in
  if existsb (fun l => MaxScanTokenSize <=? Z.of_nat (String.length l)) lines then
    ([], Some (ErrReadIgnore "bufio.Scanner: token too long"))
  else
    (map filepath_Clean
       (filter (fun p => p <> "") (map strings_TrimSpace lines)), None).

(** A matcher for the examples: a path matches when a pattern names it
    literally. *)
Definition literalMatches (file : string) (patterns : list string) : bool * option GoError :=
  (bool_decide (file ∈ patterns), None).

(** ** Vocabulary of the specification *)

(** A trigger is resolved when its delay is not negative and its termination
    signal is set. *)
Definition resolved (tg : TriggerEvent) : Prop :=
  0 <= delayDuration tg /\ killSignal tg <> None.

(** A field left empty in the configuration takes its default. *)
Definition defaulted (v dflt : string) : string :=
  if decide (v = "") then dflt else v.

(** What fix-up makes of a trigger [tin] when it succeeds, given the signal
    table: the delay string and signal name are defaulted, the delay is what
    the delay string parses to, and a signal name the table knows is resolved
    to the table's value. *)
Definition fixedFrom (signalMaps : gmap string Z) (tin tout : TriggerEvent) : Prop :=
  Delay tout = defaulted (Delay tin) "100ms"
  /\ ParseDuration (Delay tout) = (delayDuration tout, None)
  /\ Signal tout = defaulted (Signal tin) "HUP"
  /\ (forall v, signalMaps !! Signal tout = Some v -> killSignal tout = Some v).

(** The commands started and not yet stopped after a sequence of actions,
    oldest first.  A command is stopped when [Stop] sent it a signal or found
    it exited.  [Terminate] with the nil signal sends nothing ([os.Process]
    refuses a signal that is no [syscall.Signal]), so the command it is called
    on stays live. *)
Definition liveStep (live : list KCommand) (a : Action) : list KCommand :=
  match a with
  | ActStart c _ _ => (live ++ [c])%list
  | ActTerminate c (Some _) => filter (fun c' => c' <> c) live
  | ActTerminate c None => live
  | ActExited c => filter (fun c' => c' <> c) live
  | ActSleep _ => live
  | ActDone => live
  end.

Definition liveAfter (trace : list Action) : list KCommand := foldl liveStep [] trace.

(** At every instant of a run at most one command is started and not yet
    stopped. *)
Definition atMostOneLive (trace : list Action) : Prop :=
  forall pre, pre `prefix_of` trace -> (length (liveAfter pre) <= 1)%nat.

(** Whenever a command is started, none is live. *)
Definition idleBeforeStart (trace : list Action) : Prop :=
  forall pre c command env,
    (pre ++ [ActStart c command env])%list `prefix_of` trace -> liveAfter pre = [].

(** Stopping the command [c]: nothing is sent when it has exited, else the
    trigger's signal. *)
Definition stopAction (c : KCommand) (exited : bool) (sig : option Z) : Action :=
  if exited then ActExited c else ActTerminate c sig.

(** The engine as the specification words it, for the current command [cur]:
    an event that does not match is discarded; a matching event stops the
    current command, waits the delay and starts the next command; closure of
    the channel stops the current command and ends the task.  A match error
    ends the program. *)
Fixpoint reactions (Matches : string -> list string -> bool * option GoError)
    (env : list string) (tg : TriggerEvent) (cur : KCommand)
    (arrivals : list Arrival) (closeExited : bool) : list Action * Outcome :=
  match arrivals with
  | [] => ([stopAction cur closeExited (killSignal tg); ActDone], Returned)
  | a :: rest =>
      match Matches (fse_Name (arr_evt a)) (Pattens tg) with
      | (_, Some err) => ([], Fatal err)
      | (false, None) => reactions Matches env tg cur rest closeExited
      | (true, None) =>
          let '(trace, outcome) := reactions Matches env tg (S cur) rest closeExited in
          ((stopAction cur (arr_exited a) (killSignal tg)
            :: ActSleep (delayDuration tg)
            :: ActStart (S cur) (Command tg) env :: trace)%list, outcome)
      end
  end.

(** An environment variable name: it holds no ['=']. *)
Definition validKey (key : string) : bool :=
  negb (existsb (fun c => byte_val c =? 61) (list_ascii_of_string key)).

(** The path's metadata can be read and its modification time is within the
    debounce window of [since]. *)
Definition withinWindow (path : string) (since : Z) (stat : Stat) : Prop :=
  exists pinfo, stat path = Some pinfo /\ fi_ModTime pinfo - since <= Millisecond * 100.

(** A notification of the creation of a directory, as the filter tests it. *)
Definition dirCreated (stat : Stat) (evt : Event) : bool :=
  (ev_Op evt =? Create) && IsDirectory stat (ev_Name evt).

(** A notification for a path whose metadata cannot be read and that is not
    a removal. *)
Definition unreadable (se : Stat * Event) : Prop :=
  fst se (ev_Name (snd se)) = None /\ ev_Op (snd se) <> Remove.

(** A change notification for [path], neither the creation of a directory
    nor a removal, handled while the path's metadata can be read and its
    modification time is within the debounce window of [since]. *)
Definition changeWithin (path : string) (since : Z) (se : Stat * Event) : Prop :=
  ev_Name (snd se) = path
  /\ dirCreated (fst se) (snd se) = false
  /\ ev_Op (snd se) <> Remove
  /\ withinWindow path since (fst se).

(** The key of an environment entry: the bytes before its first ['=']. *)
Fixpoint entryKey (entry : string) : option string :=
  match entry with
  | EmptyString => None
  | String c rest =>
      if byte_val c =? 61 then Some ""
      else option_map (String c) (entryKey rest)
  end.

(** The value of an environment entry: the bytes after its first ['=']. *)
Fixpoint entryValue (entry : string) : string :=
  match entry with
  | EmptyString => ""
  | String c rest => if byte_val c =? 61 then rest else entryValue rest
  end.

(** One step of the search for [key] in an environment: an entry with that
    key replaces what was found before. *)
Definition pickEntry (key : string) (found : option string) (entry : string)
  : option string :=
  if decide (entryKey entry = Some key) then Some (entryValue entry) else found.

(** The value a started command sees for [key]: of the entries of [cmd.Env]
    with that key, [os/exec] uses the last. *)
Definition envLookup (env : list string) (key : string) : option string :=
  foldl (pickEntry key) None env.

(** A directory name the walk treats as hidden: it starts with ['.'] and is
    not ["."] itself. *)
Definition hiddenName (base : string) : bool :=
  negb (bool_decide (base = ".")) && hasDotPrefix base.

(** Every directory of a tree in the order of the walk, each with the
    directories on the way from the root down to it, itself included, nearest
    first, as pairs of base name and path. *)
Fixpoint allDirs (path name : string) (n : Node) (above : list (string * string))
  : list (string * list (string * string)) :=
  match n with
  | File => []
  | Dir entries =>
      let chain := (name, path) :: above in
      (path, chain) ::
      (fix below (es : list (string * Node)) : list (string * list (string * string)) :=
         match es with
         | [] => []
         | (nm, child) :: rest =>
             (allDirs (filepath_Join path nm) nm child chain ++ below rest)%list
         end) entries
  end.

(** The directories below a directory at [path] whose chain is [chain]. *)
Definition allDirsBelow (path : string) (chain : list (string * string))
  : list (string * Node) -> list (string * list (string * string)) :=
  fix below (es : list (string * Node)) : list (string * list (string * string)) :=
    match es with
    | [] => []
    | (nm, child) :: rest =>
        (allDirs (filepath_Join path nm) nm child chain ++ below rest)%list
    end.

(** Whether a directory's depth, the separators of its path less those of
    the root, is within [depth]. *)
Definition withinDepth (baseNumSeps depth : Z) (d : string * string) : bool :=
  countSeps (snd d) - baseNumSeps <=? depth.

(** A directory on the way is admissible when it is not hidden and within
    the depth. *)
Definition admissible (baseNumSeps depth : Z) (d : string * string) : bool :=
  negb (hiddenName (fst d)) && withinDepth baseNumSeps depth d.

(** The test of the walk as the code makes it: every directory from the root
    down, the root included, is admissible. *)
Definition allAdmissible (baseNumSeps depth : Z) (chain : list (string * string)) : bool :=
  forallb (admissible baseNumSeps depth) chain.



(** ** Values used in the worked examples *)

(** A trigger as a configuration file gives it: only the serialised fields
    are set. *)
Definition triggerOf (name : string) (pattens : list string) (env : gmap string string)
    (command delay signal : string) : TriggerEvent :=
  mkTriggerEvent name pattens [] env command delay 0 signal None None.

(** The trigger [genFWConfig] writes, with the default command. *)
Definition generatedTrigger : TriggerEvent :=
  triggerOf "" ["**/*.go"; "**/*.c"; "**/*.py"] {["DEBUG" := "1"]} "go test -v" "" "".

(** A trigger with a negative delay and a signal name the table lacks. *)
Definition oddTrigger : TriggerEvent :=
  triggerOf "odd" ["*.go"] ∅ "go build" "-1s" "FOO".

(** The trigger of the configuration [{pattens: [main.go], cmd: sleep 34,
    signal: <name>}] after fix-up, [sig] being what the signal table holds for
    the name. *)
Definition sleepTrigger (name : string) (sig : option Z) : TriggerEvent :=
  mkTriggerEvent "t" ["main.go"] ["main.go"] ∅ "sleep 34" "100ms"
    (100 * Millisecond) name sig None.

(** A pattern list of one string that holds two lines. *)
Definition twoLinePattern : string := "*.go" +:+ String newline "*.c".

Definition twoLineTrigger : TriggerEvent :=
  triggerOf "build" [twoLinePattern] ∅ "make" "" "".

(** A file system in which [path] is a regular file last modified at
    [mtime] and nothing else exists. *)
Definition fileAt (path : string) (mtime : Z) : Stat :=
  fun p => if decide (p = path) then Some (mkFileInfo false mtime) else None.

(** A file system in which [path] is a directory and nothing else exists. *)
Definition dirAt (path : string) (mtime : Z) : Stat :=
  fun p => if decide (p = path) then Some (mkFileInfo true mtime) else None.

(** A file system in which nothing can be read. *)
Definition nothingAt : Stat := fun _ => None.

(** A modification time in the year 2026, in nanoseconds from the zero
    [Time]. *)
Definition someTime : Z := 63900000000 * Second.

(** A pipeline that watches nothing yet. *)
Definition emptyWorld : World := mkWorld ∅ ∅ ∅.

(** A root directory with a file, a hidden directory and three nested
    directories. *)
Definition sampleTree : Node :=
  Dir [ (".git", Dir [("objects", Dir [])]);
        ("main.go", File);
        ("sub", Dir [("sub2", Dir [("sub3", Dir [])])]) ].

(** A file system whose current directory is [sampleTree]. *)
Definition sampleLstat : string -> option Node :=
  fun p => if decide (p = ".") then Some sampleTree else None.

(** ** Invariant of the signal table *)

Definition signalValues : list Z := [SIGHUP; SIGINT; SIGQUIT; SIGTRAP; SIGKILL; SIGTERM].

(** What holds of the table whatever keys the loop of [init] visited. *)
Definition tableInv (m : gmap string Z) : Prop :=
  m !! "HUP" = Some SIGHUP
  /\ m !! "FOO" = None
  /\ (forall k v, m !! k = Some v -> v ∈ signalValues).

(** ** Induction on file trees *)

(** Structural induction on a [Node] with the hypothesis for every entry of
    a directory. *)
Fixpoint Node_ind' (P : Node -> Prop) (HFile : P File)
    (HDir : forall entries, Forall (fun e => P (snd e)) entries -> P (Dir entries))
    (n : Node) : P n :=
  match n with
  | File => HFile
  | Dir entries =>
      HDir entries
        ((fix each (es : list (string * Node)) : Forall (fun e => P (snd e)) es :=
            match es with
            | [] => @List.Forall_nil _ (fun e => P (snd e))
            | (nm, child) :: rest =>
                @List.Forall_cons _ (fun e => P (snd e)) (nm, child) rest
                  (Node_ind' P HFile HDir child) (each rest)
            end) entries)
  end.

(** The paths of an enumeration whose chain is admissible throughout. *)
Definition keptDirs (baseNumSeps depth : Z) (l : list (string * list (string * string)))
  : list string :=
  map fst (filter (fun d => allAdmissible baseNumSeps depth (snd d) = true) l).

(** ** Invariant of the engine *)

(** The state of an engine whose trigger has a signal agrees with what its
    actions amount to. *)
Definition engineOK (e : Engine) : Prop :=
  liveAfter (eng_trace e) = option_list (kcmd (eng_tg e))
  /\ atMostOneLive (eng_trace e)
  /\ idleBeforeStart (eng_trace e)
  /\ killSignal (eng_tg e) <> None.

(** ** Invariant of the initial registration *)

(** What holds of the state of [WatchPathAndChildren] and of its calls of
    [w.Add], relative to the state [w0] it started from. *)
Definition walkInv (w0 : World) (st : World * list string) : Prop :=
  NoDup (snd st)
  /\ (forall d, d ∈ snd st -> visited w0 d = false)
  /\ (forall d, visited (fst st) d = visited w0 d || bool_decide (d ∈ snd st))
  /\ fsw (fst st) = fsw w0 ∪ list_to_set (map filepath_Clean (snd st)).

(** ** Further functions of the source *)

(** *** [UniqStrings] *)

(** The body of the loop of [UniqStrings]: the state is [out] and the map [m]
    of the keys seen. *)
Definition uniqStep (st : list string * gmap string bool) (key : string)
  : list string * gmap string bool :=
  let '(out, m) := st in
  if default false (m !! key) then st
  else ((out ++ [key])%list, <[key := true]> m).

(** [UniqStrings(ss)]. *)
Definition UniqStrings (ss : list string) : list string :=
  fst (foldl uniqStep ([], ∅) ss).

(** The first occurrences of the elements of a list that are not in [seen],
    in order. *)
Fixpoint firstOccurrences (seen : list string) (ss : list string) : list string :=
  match ss with
  | [] => []
  | key :: rest =>
      if decide (key ∈ seen) then firstOccurrences seen rest
      else key :: firstOccurrences (key :: seen) rest
  end.

(** The map of [UniqStrings] holds exactly the keys written to [out]. *)
Definition uniqInv (st : list string * gmap string bool) : Prop :=
  forall k, default false (snd st !! k) = true <-> k ∈ fst st.

(** *** The names of the signal table *)

(** The signal a literal name or a decimal number stands for. *)
Definition nameOrNumber (key : string) : option Z :=
  match signalMaps_literal !! key with
  | Some v => Some v
  | None => list_find (fun v => pretty v = key) signalValues ≫= (fun iv => Some (snd iv))
  end.

(** The signal a key of the table stands for: any number of ["SIG"] prefixes
    before a literal name or a decimal number. *)
Fixpoint signalOf (key : string) : option Z :=
  match key with
  | String c1 (String c2 (String c3 rest)) =>
      if decide (String c1 (String c2 (String c3 "")) = "SIG") then signalOf rest
      else nameOrNumber key
  | _ => nameOrNumber key
  end.

(** The entries of the literal, as pairs. *)
Definition literalEntries : list (string * Z) :=
  [ ("INT", SIGINT); ("HUP", SIGHUP); ("QUIT", SIGQUIT);
    ("TRAP", SIGTRAP); ("TERM", SIGTERM); ("KILL", SIGKILL) ].

(** A table in which every key stands for the signal it maps to, and that
    holds the entries of the literal. *)
Definition tableConsistent (m : gmap string Z) : Prop :=
  (forall k v, m !! k = Some v -> signalOf k = Some v)
  /\ (forall k v, (k, v) ∈ literalEntries -> m !! k = Some v).

(** *** Fix-up *)

(** A trigger on which fix-up does not fail: its delay string, defaulted,
    parses, and its pattern list can be read. *)
Definition fixable (ReadIgnore : string -> list string * option GoError)
    (tg : TriggerEvent) : Prop :=
  snd (ParseDuration (defaulted (Delay tg) "100ms")) = None
  /\ snd (ReadIgnore (strings_Join (Pattens tg) (String newline ""))) = None.

(** The fields of a trigger that fix-up leaves alone. *)
Definition sameGivenFields (tin tout : TriggerEvent) : Prop :=
  Name tout = Name tin
  /\ Pattens tout = Pattens tin
  /\ Environ tout = Environ tin
  /\ Command tout = Command tin
  /\ kcmd tout = kcmd tin.

(** *** The change filter over a run *)

(** The events a run of notifications could forward at most: one per
    notification, with its path. *)
Definition namesOf (evts : list (Stat * Event)) : list FSEvent :=
  map (fun se => mkFSEvent (ev_Name (snd se))) evts.

(** The paths, as the watcher cleans them, of the notifications of a run
    whose [Op] is [op]. *)
Definition pathsWithOp (op : Z) (evts : list (Stat * Event)) : gset string :=
  list_to_set (map (fun se => filepath_Clean (ev_Name (snd se)))
                 (filter (fun se => ev_Op (snd se) = op) evts)).

(** The timestamp [fileModifyTimeMap] holds for a path, the zero time when it
    holds none. *)
Definition storedTime (w : World) (path : string) : Z :=
  default 0 (fileModifyTimeMap w !! path).

(** *** Counting over a run of the engine *)

Definition isStart (a : Action) : bool :=
  match a with ActStart _ _ _ => true | _ => false end.

Definition isSleep (a : Action) : bool :=
  match a with ActSleep _ => true | _ => false end.

(** The starts of a trace, in order. *)
Definition startsOf (trace : list Action) : list Action :=
  filter (fun a => isStart a = true) trace.

(** The sleeps of a trace, in order. *)
Definition sleepsOf (trace : list Action) : list Action :=
  filter (fun a => isSleep a = true) trace.

(** The number of events of a run that match the trigger's patterns, counted
    up to the first event at which the matcher fails. *)
Fixpoint restarts (Matches : string -> list string -> bool * option GoError)
    (tg : TriggerEvent) (arrivals : list Arrival) : nat :=
  match arrivals with
  | [] => 0
  | a :: rest =>
      match Matches (fse_Name (arr_evt a)) (Pattens tg) with
      | (_, Some _) => 0
      | (false, None) => restarts Matches tg rest
      | (true, None) => S (restarts Matches tg rest)
      end
  end.

(** The matcher fails at no event of a run. *)
Definition matcherSound (Matches : string -> list string -> bool * option GoError)
    (tg : TriggerEvent) (arrivals : list Arrival) : Prop :=
  Forall (fun a => snd (Matches (fse_Name (arr_evt a)) (Pattens tg)) = None) arrivals.

(** *** The dispatcher of [drainEvent] *)

(** What the dispatcher goroutine does to the triggers' channels.  A channel
    is named by the position of its trigger in [fwc.Triggers], the order in
    which the loop of [drainEvent] appends the channels to [evtChannls]. *)
Inductive ChanOp : Type :=
  | ChSend (eC : nat) (evt : FSEvent)
  | ChClose (eC : nat).

(** [evtChannls] when the loop over [fwc.Triggers] has ended. *)
Definition drainChannels (fwc : FWConfig) : list nat := seq 0 (length (Triggers fwc)).

(** The inner loop [for _, eC := range evtChannls { eC <- evt }]. *)
Definition fanOut (evtChannls : list nat) (evt : FSEvent) : list ChanOp :=
  map (fun eC => ChSend eC evt) evtChannls.

(** The dispatcher, for the events [global] it receives from [globalEventC]
    before that channel is closed: every event goes to every channel, then
    every channel is closed. *)
Definition dispatcher (evtChannls : list nat) (global : list FSEvent) : list ChanOp :=
  (flat_map (fanOut evtChannls) global ++ map ChClose evtChannls)%list.

Definition opChan (op : ChanOp) : nat :=
  match op with ChSend eC _ => eC | ChClose eC => eC end.

(** What an operation delivers to the receiver: an event, or the closure
    ([None]). *)
Definition opValue (op : ChanOp) : option FSEvent :=
  match op with ChSend _ evt => Some evt | ChClose _ => None end.

(** What the receiver of channel [eC] sees of a sequence of operations. *)
Definition receivedOn (eC : nat) (ops : list ChanOp) : list (option FSEvent) :=
  map opValue (filter (fun op => opChan op = eC) ops).

(** *** Reading the configuration ([readFWConfig]) *)

(** The errors [readFWConfig] returns: that of [yaml.Unmarshal] or
    [json.Unmarshal], "Unknown format config file: ...", "Config file not
    exists", and the error of [fixFWConfig]. *)
Inductive ConfigError : Type :=
  | ErrUnmarshal (msg : string)
  | ErrUnknownFormat (cfgPath : string)
  | ErrNotExists
  | ErrFix (e : GoError).

(** The loop of [filepath.Ext], over the bytes of the path from its end:
    [acc] holds the bytes passed so far. *)
Fixpoint extScan (backwards acc : list ascii) : list ascii :=
  match backwards with
  | [] => []
  | c :: rest =>
      if isSlash c then []
      else if byte_val c =? 46 then c :: acc
      else extScan rest (c :: acc)
  end.

(** [filepath.Ext(path)]. *)
Definition filepath_Ext (path : string) : string :=
  string_of_list_ascii (extScan (rev (list_ascii_of_string path)) []).

(** The zero value of [FWConfig], which the named result [fwc] holds until a
    file is decoded into it. *)
Definition zeroFWConfig : FWConfig := mkFWConfig "" [] [] 0.

Definition FWCONFIG_YAML : string := ".fsw.yml".
Definition FWCONFIG_JSON : string := ".fsw.json".

Section ReadConfig.

Variable signalMaps : gmap string Z.
Variable ReadIgnore : string -> list string * option GoError.

(** [ioutil.ReadFile]: the content, or [None] for an error. *)
Variable readFile : string -> option string.

(** [yaml.Unmarshal(data, &fwc)] and [json.Unmarshal(data, &fwc)] on the zero
    [fwc]: what [fwc] holds afterwards, and the error. *)
Variable yamlUnmarshal : string -> FWConfig * option string.
Variable jsonUnmarshal : string -> FWConfig * option string.

(** What follows a decoding: its error is returned with [fwc] as the decoder
    left it, otherwise [fixFWConfig(fwc)] is returned. *)
Definition afterUnmarshal (decoded : FWConfig * option string)
  : FWConfig * option ConfigError :=
  match decoded with
  | (fwc, Some er) => (fwc, Some (ErrUnmarshal er))
  | (fwc, None) =>
      let '(out, err) := fixFWConfig signalMaps ReadIgnore fwc in
      (out, option_map ErrFix err)
  end.

(** The body of the loop for a path that could be read. *)
Definition readOne (cfgPath data : string) : FWConfig * option ConfigError :=
  let ext := filepath_Ext cfgPath in
  if decide (ext = ".yml") then afterUnmarshal (yamlUnmarshal data)
  else if decide (ext = ".json") then afterUnmarshal (jsonUnmarshal data)
  else (zeroFWConfig, Some (ErrUnknownFormat cfgPath)).

(** [readFWConfig(paths...)]. *)
Fixpoint readFWConfig (paths : list string) : FWConfig * option ConfigError :=
  match paths with
  | [] => (zeroFWConfig, Some ErrNotExists)
  | cfgPath :: rest =>
      match readFile cfgPath with
      | None => readFWConfig rest
      | Some data => readOne cfgPath data
      end
  end.

End ReadConfig.

(** [path] ends with [suffix]. *)
Definition hasSuffix (suffix path : string) : Prop :=
  exists base, path = base +:+ suffix.

(** A configuration [main] can start from: it names a path to watch and a
    depth, and every trigger carries the parsed form of its delay, its signal
    and its patterns. *)
Definition readyTrigger (signalMaps : gmap string Z)
    (ReadIgnore : string -> list string * option GoError) (tg : TriggerEvent) : Prop :=
  Delay tg <> "" /\ Signal tg <> ""
  /\ ParseDuration (Delay tg) = (delayDuration tg, None)
  /\ killSignal tg = signalMaps !! Signal tg
  /\ ReadIgnore (strings_Join (Pattens tg) (String newline "")) = (matchPattens tg, None).

Definition ready (signalMaps : gmap string Z)
    (ReadIgnore : string -> list string * option GoError) (fwc : FWConfig) : Prop :=
  WatchPaths fwc <> [] /\ WatchDepth fwc <> 0
  /\ Forall (readyTrigger signalMaps ReadIgnore) (Triggers fwc).

(** A file system that holds the given files and no other. *)
Fixpoint filesOf (files : list (string * string)) (path : string) : option string :=
  match files with
  | [] => None
  | (p, data) :: rest => if decide (p = path) then Some data else filesOf rest path
  end.

(** The configuration [genFWConfig] builds before fix-up, with the default
    answers. *)
Definition generatedConfig : FWConfig :=
  mkFWConfig "Auto generated by fswatch [fswatch]" [generatedTrigger] [] 0.

(** *** [genFWConfig] and [main] *)

(** The patterns [genFWConfig] writes. *)
Definition generatedPattens : list string := ["**/*.go"; "**/*.c"; "**/*.py"].

(** [genFWConfig()], for the name and the command [readString] returned; the
    error of [fixFWConfig] is dropped. *)
Definition genFWConfig (signalMaps : gmap string Z)
    (ReadIgnore : string -> list string * option GoError)
    (name command : string) : FWConfig :=
  fst (fixFWConfig signalMaps ReadIgnore
         (mkFWConfig ("Auto generated by fswatch [" +:+ name +:+ "]")
            [mkTriggerEvent "" generatedPattens [] {["DEBUG" := "1"]} command
               "" 0 "" None None]
            [] 0)).




(** * Properties *)

(** ** [ParseDuration] never runs out of fuel *)

Lemma leadingInt_go_length x s v r :
  leadingInt_go x s = Some (v, r) -> (String.length r <= String.length s)%nat.
Proof.
  revert x. induction s as [|c s IH]; intros x H; simpl in H.
  - inversion H; subst; simpl; lia.
  - destruct (isDigit c).
    + destruct (x >? 2 ^ 63 / 10); [discriminate|].
      destruct (u64 (x * 10 + byte_val c - 48) >? 2 ^ 63); [discriminate|].
      apply IH in H. simpl; lia.
    + inversion H; subst; simpl; lia.
Qed.

Lemma leadingFraction_go_length x scale o s f scale' r :
  leadingFraction_go x scale o s = (f, scale', r) ->
  (String.length r <= String.length s)%nat.
Proof.
  revert x scale o. induction s as [|c s IH]; intros x scale o H; simpl in H.
  - inversion H; subst; simpl; lia.
  - destruct (isDigit c).
    + assert (String.length r <= String.length s)%nat; [|simpl; lia].
      destruct o; [eauto|].
      destruct (x >? (2 ^ 63 - 1) / 10); [eauto|].
      destruct (u64 (x * 10 + byte_val c - 48) >? 2 ^ 63); eauto.
    + inversion H; subst; simpl; lia.
Qed.

Lemma spanUnit_length s u r :
  spanUnit s = (u, r) -> (String.length u + String.length r = String.length s)%nat.
Proof.
  revert u r. induction s as [|c s IH]; intros u r H; simpl in H.
  - inversion H; subst; reflexivity.
  - destruct ((byte_val c =? 46) || isDigit c).
    + inversion H; subst; reflexivity.
    + destruct (spanUnit s) as [u' r'] eqn:E. inversion H; subst.
      specialize (IH _ _ eq_refl). simpl; lia.
Qed.

(** With more fuel than bytes left, the loop of [ParseDuration] ends by
    itself: every round consumes the bytes of a non-empty unit. *)
Lemma parseElems_fuel fuel orig d s :
  (String.length s < fuel)%nat -> parseElems fuel orig d s <> None.
Proof.
  revert d s. induction fuel as [|fuel IH]; intros d s Hlen; [lia|].
  destruct s as [|c s0]; [simpl; discriminate|].
  set (s := String c s0) in *.
  unfold parseElems; fold parseElems. unfold s at 1.
  destruct (negb ((byte_val c =? 46) || isDigit c)); [discriminate|].
  destruct (leadingInt s) as [[v s1]|] eqn:Hint; [|discriminate].
  apply leadingInt_go_length in Hint.
  assert (Hfrac : forall f scale s2 post,
             match s1 with
             | String c1 s1' =>
                 if byte_val c1 =? 46 then
                   let '(f, scale, s2) := leadingFraction s1' in
                   (f, scale, s2, negb (String.length s1' =? String.length s2)%nat)
                 else (0, float64_of_u64 1, s1, false)
             | EmptyString => (0, float64_of_u64 1, s1, false)
             end = (f, scale, s2, post) ->
             (String.length s2 <= String.length s1)%nat).
  { intros f scale s2 post H. destruct s1 as [|c1 s1'].
    - inversion H; subst; lia.
    - destruct (byte_val c1 =? 46).
      + destruct (leadingFraction s1') as [[f' sc'] r'] eqn:E.
        apply leadingFraction_go_length in E. inversion H; subst. simpl; lia.
      + inversion H; subst; lia. }
  destruct (match s1 with
            | String c1 s1' => _
            | EmptyString => _
            end) as [[[f scale] s2] post] eqn:Hf.
  specialize (Hfrac _ _ _ _ eq_refl).
  destruct (negb (negb (String.length s =? String.length s1)%nat) && negb post);
    [discriminate|].
  destruct (spanUnit s2) as [u s3] eqn:Hu. apply spanUnit_length in Hu.
  destruct (decide (u = "")) as [|Hne]; [discriminate|].
  destruct (unitMap !! u) as [unit|]; [|discriminate].
  destruct (v >? 2 ^ 63 / unit); [discriminate|].
  match goal with |- context [(f >? 0) && ?b] => destruct ((f >? 0) && b) end;
    [discriminate|].
  match goal with |- context [u64 (d + ?v2) >? 2 ^ 63] =>
    destruct (u64 (d + v2) >? 2 ^ 63) end; [discriminate|].
  apply IH. destruct u as [|cu u']; [congruence|]. simpl in Hu. lia.
Qed.

(** ** The signal table after [init] *)

Lemma pretty_signal_not_name (v : Z) :
  v ∈ signalValues -> pretty v <> "HUP" /\ pretty v <> "FOO".
Proof.
  unfold signalValues.
  rewrite !elem_of_cons, elem_of_nil.
  intros [->|[->|[->|[->|[->|[->|[]]]]]]]; split; vm_compute; discriminate.
Qed.

Lemma initStep_inv m key : tableInv m -> tableInv (initStep m key).
Proof.
  intros (Hhup & Hfoo & Hval). unfold initStep.
  destruct (m !! key) as [val|] eqn:Hkey; [|by repeat split].
  pose proof (Hval _ _ Hkey) as Hin.
  destruct (pretty_signal_not_name val Hin) as [Hp1 Hp2].
  repeat split.
  - rewrite lookup_insert_ne by done. by rewrite lookup_insert_ne.
  - rewrite lookup_insert_ne by done. by rewrite lookup_insert_ne.
  - intros k v. rewrite lookup_insert. case_decide; [congruence|].
    rewrite lookup_insert. case_decide; [congruence|]. apply Hval.
Qed.

Lemma signalMaps_literal_inv : tableInv signalMaps_literal.
Proof.
  repeat split.
  intros k v H. unfold signalMaps_literal in H.
  apply elem_of_list_to_map_2 in H.
  unfold signalValues. rewrite !elem_of_cons in *.
  rewrite elem_of_nil in H.
  destruct H as [H|[H|[H|[H|[H|[H|[]]]]]]]; inversion H; subst; tauto.
Qed.

Lemma initSignalMaps_inv visited : tableInv (initSignalMaps visited).
Proof.
  unfold initSignalMaps.
  generalize signalMaps_literal_inv. generalize signalMaps_literal.
  induction visited as [|key visited IH]; intros m Hm; simpl; [done|].
  apply IH. by apply initStep_inv.
Qed.

(** Whatever the loop of [init] visited, the default signal name is in the
    table. *)
Lemma initSignalMaps_HUP visited : initSignalMaps visited !! "HUP" = Some SIGHUP.
Proof. apply initSignalMaps_inv. Qed.

(** Whatever the loop of [init] visited, there are names the table lacks. *)
Lemma initSignalMaps_FOO visited : initSignalMaps visited !! "FOO" = None.
Proof. apply initSignalMaps_inv. Qed.

(** ** Configuration fix-up *)

Section FixConfigProofs.

Variable signalMaps : gmap string Z.
Variable ReadIgnore : string -> list string * option GoError.

Lemma fixTrigger_ok tin tout :
  fixTrigger signalMaps ReadIgnore tin = (tout, None) -> fixedFrom signalMaps tin tout.
Proof.
  unfold fixTrigger, fixedFrom, defaulted.
  destruct (decide (Delay tin = "")) as [Hd|Hd];
    (destruct (ParseDuration _) as [d [e|]] eqn:Hparse; [discriminate|];
     cbn [Signal set_delayDuration set_Delay];
     destruct (decide (Signal tin = "")) as [Hs|Hs];
     (destruct (ReadIgnore _) as [pats [e|]]; [discriminate|];
      intros H; inversion H; subst tout; clear H; cbn;
      cbn in Hparse; repeat split; auto)).
Qed.

Lemma fixTriggers_ok tins touts :
  fixTriggers signalMaps ReadIgnore tins = (touts, None) ->
  Forall2 (fixedFrom signalMaps) tins touts.
Proof.
  revert touts. induction tins as [|tin tins IH]; intros touts H; simpl in H.
  - inversion H. constructor.
  - destruct (fixTrigger signalMaps ReadIgnore tin) as [tout [e|]] eqn:Htg;
      [discriminate|].
    destruct (fixTriggers signalMaps ReadIgnore tins) as [rest err] eqn:Hrest.
    inversion H; subst. constructor; [by apply fixTrigger_ok | by apply IH].
Qed.

(** Fix-up never touches the raw pattern list of a trigger. *)
Lemma fixTrigger_Pattens tin :
  Pattens (fst (fixTrigger signalMaps ReadIgnore tin)) = Pattens tin.
Proof.
  unfold fixTrigger.
  destruct (ParseDuration _) as [d [e|]]; simpl.
  - by case_decide.
  - destruct (ReadIgnore _) as [pats [e|]]; simpl;
      repeat case_decide; done.
Qed.

End FixConfigProofs.

(** C1 (as amended).  For every input configuration, fix-up either returns
    an error or returns a configuration in which every trigger's delay is the
    duration its delay string (["100ms"] when empty) parses to, of either
    sign, and in which a signal name (["HUP"] when empty) that is an entry of
    the signal table is resolved to that entry's value. *)
Theorem fixFWConfig_fixes_triggers
    (signalMaps : gmap string Z) (ReadIgnore : string -> list string * option GoError)
    (inp out : FWConfig) :
  fixFWConfig signalMaps ReadIgnore inp = (out, None) ->
  Forall2 (fixedFrom signalMaps) (Triggers inp) (Triggers out).
Proof.
  unfold fixFWConfig.
  destruct (fixTriggers signalMaps ReadIgnore (Triggers inp)) as [tgs [e|]] eqn:Htgs;
    [discriminate|].
  intros H. inversion H; subst out; clear H. simpl.
  by eapply fixTriggers_ok.
Qed.

(** The theorem at the configuration [genFWConfig] produces: fix-up succeeds,
    the delay is 100 ms and the signal is SIGHUP. *)
Lemma fixFWConfig_fixes_triggers_witness :
  snd (fixFWConfig (initSignalMaps literalKeys) dockerignore_ReadIgnore
         (mkFWConfig "" [generatedTrigger] [] 0)) = None
  /\ Forall2 (fixedFrom (initSignalMaps literalKeys))
       [generatedTrigger]
       (Triggers (fst (fixFWConfig (initSignalMaps literalKeys) dockerignore_ReadIgnore
                         (mkFWConfig "" [generatedTrigger] [] 0)))).
Proof.
  split; [vm_compute; reflexivity|].
  apply (fixFWConfig_fixes_triggers (initSignalMaps literalKeys) dockerignore_ReadIgnore
           (mkFWConfig "" [generatedTrigger] [] 0)).
  vm_compute. reflexivity.
Defined.

(** Fix-up fails on a delay that is no duration. *)
Example fixFWConfig_bad_delay :
  snd (fixFWConfig (initSignalMaps literalKeys) dockerignore_ReadIgnore
         (mkFWConfig "" [triggerOf "t" ["*.go"] ∅ "make" "soon" ""] [] 0))
  = Some (ErrInvalidDuration "soon").
Proof. vm_compute. reflexivity. Qed.

(** C1 (as stated) fails: fix-up accepts a trigger whose delay is ["-1s"] and
    whose signal is ["FOO"]; it returns no error, a delay of minus one second
    and a nil signal, so the trigger is not [resolved]. *)
Lemma fixFWConfig_unresolved_counterexample :
  snd (fixFWConfig (initSignalMaps literalKeys) dockerignore_ReadIgnore
         (mkFWConfig "" [oddTrigger] [] 0)) = None
  /\ (exists tg,
        Triggers (fst (fixFWConfig (initSignalMaps literalKeys) dockerignore_ReadIgnore
                         (mkFWConfig "" [oddTrigger] [] 0))) = [tg]
        /\ delayDuration tg = - Second
        /\ killSignal tg = None
        /\ ~ resolved tg).
Proof.
  split; [vm_compute; reflexivity|].
  eexists. split; [vm_compute; reflexivity|].
  split; [reflexivity|]. split; [reflexivity|].
  unfold resolved. simpl. unfold Second, Millisecond, Microsecond, Nanosecond. lia.
Qed.

(** ** The trigger engine *)

Lemma prefix_snoc_cases {A} (pre l : list A) (x : A) :
  pre `prefix_of` (l ++ [x])%list -> pre `prefix_of` l \/ pre = (l ++ [x])%list.
Proof.
  intros [k Hk]. destruct k as [|y k _] using rev_ind.
  - right. by rewrite app_nil_r in Hk.
  - left. rewrite app_assoc in Hk. apply app_inj_tail in Hk as [-> _].
    by exists k.
Qed.

Lemma liveAfter_snoc trace a : liveAfter (trace ++ [a]) = liveStep (liveAfter trace) a.
Proof. unfold liveAfter. by rewrite foldl_app. Qed.

Lemma atMostOneLive_snoc trace a :
  atMostOneLive trace ->
  (length (liveStep (liveAfter trace) a) <= 1)%nat ->
  atMostOneLive (trace ++ [a]).
Proof.
  intros Hone Hnew pre Hpre.
  destruct (prefix_snoc_cases _ _ _ Hpre) as [H| ->]; [by apply Hone|].
  by rewrite liveAfter_snoc.
Qed.

Lemma idleBeforeStart_snoc trace a :
  idleBeforeStart trace ->
  (forall c command env, a = ActStart c command env -> liveAfter trace = []) ->
  idleBeforeStart (trace ++ [a]).
Proof.
  intros Hidle Hnew pre c command env Hpre.
  destruct (prefix_snoc_cases _ _ _ Hpre) as [H|H]; [by eapply Hidle|].
  apply app_inj_tail in H as [-> <-]. by eapply Hnew.
Qed.

Section TriggerEngineProofs.

Variable Matches : string -> list string -> bool * option GoError.
Variable osEnviron : list string.
Variable rangeOrder : gmap string string -> list (string * string).

Lemma Start_first tge :
  killSignal tge <> None -> engineOK (Start osEnviron rangeOrder (newEngine tge)).
Proof.
  intros Hsig. split; [done|]. split; [|split; [|exact Hsig]].
  - intros pre Hpre. change (eng_trace _) with
      [ActStart 0%nat (Command tge) (startEnv osEnviron rangeOrder tge)] in Hpre.
    destruct (prefix_snoc_cases pre [] _ Hpre) as [H| ->].
    + apply prefix_nil_inv in H as ->. simpl; lia.
    + simpl; lia.
  - intros pre c command env Hpre. change (eng_trace _) with
      ([] ++ [ActStart 0%nat (Command tge) (startEnv osEnviron rangeOrder tge)])%list in Hpre.
    destruct (prefix_snoc_cases _ [] _ Hpre) as [H|H].
    + apply prefix_nil_inv in H. by destruct pre.
    + by apply app_inj_tail in H as [-> _].
Qed.

Lemma Stop_ok exited e :
  engineOK e -> engineOK (Stop exited e) /\ kcmd (eng_tg (Stop exited e)) = None.
Proof.
  intros (Hlive & Hone & Hidle & Hsig). unfold Stop.
  destruct (kcmd (eng_tg e)) as [cmd|] eqn:Hk.
  - destruct (killSignal (eng_tg e)) as [sig|] eqn:Hks; [|done].
    assert (Hgone : forall a, a = ActExited cmd \/ a = ActTerminate cmd (Some sig) ->
                liveStep (liveAfter (eng_trace e)) a = []).
    { intros a [-> | ->]; rewrite Hlive; simpl;
        by rewrite filter_cons_False by (intros H; by apply H). }
    destruct exited; simpl; (split; [|done]);
      (split; [|split; [|split; [|simpl; rewrite ?Hks; done]]]); simpl.
    all: try (rewrite liveAfter_snoc, Hgone by auto; done).
    all: try (apply atMostOneLive_snoc; [done|]; rewrite Hgone by auto; simpl; lia).
    all: apply idleBeforeStart_snoc; [done|]; discriminate.
  - split; [|done]. split; [by rewrite Hk|]. by split.
Qed.

Lemma Sleep_ok d e : engineOK e -> engineOK (Sleep d e).
Proof.
  intros (Hlive & Hone & Hidle & Hsig). split; [|split; [|split; [|exact Hsig]]]; simpl.
  - by rewrite liveAfter_snoc.
  - apply atMostOneLive_snoc; [done|]. simpl. rewrite Hlive.
    destruct (kcmd (eng_tg e)); simpl; lia.
  - apply idleBeforeStart_snoc; [done|]; discriminate.
Qed.

Lemma Start_ok e :
  engineOK e -> kcmd (eng_tg e) = None -> engineOK (Start osEnviron rangeOrder e).
Proof.
  intros (Hlive & Hone & Hidle & Hsig) Hk. rewrite Hk in Hlive.
  split; [|split; [|split; [|exact Hsig]]]; simpl.
  - by rewrite liveAfter_snoc, Hlive.
  - apply atMostOneLive_snoc; [done|]. rewrite Hlive. simpl; lia.
  - apply idleBeforeStart_snoc; [done|]. done.
Qed.

Lemma onEvent_ok e a :
  engineOK e -> engineOK (fst (onEvent Matches osEnviron rangeOrder e a)).
Proof.
  intros He. unfold onEvent.
  destruct (isMatch Matches (eng_tg e) (arr_evt a)) as [[|] [err|]]; simpl; try done.
  destruct (Stop_ok (arr_exited a) e He) as [Hs Hk].
  apply Start_ok; [by apply Sleep_ok|done].
Qed.

Lemma eventLoop_ok arrivals e :
  engineOK e -> engineOK (fst (eventLoop Matches osEnviron rangeOrder e arrivals)).
Proof.
  revert e. induction arrivals as [|a rest IH]; intros e He; simpl; [done|].
  pose proof (onEvent_ok e a He) as Hstep.
  destruct (onEvent Matches osEnviron rangeOrder e a) as [e' [err|]]; simpl in *; [done|].
  by apply IH.
Qed.

Lemma onClose_ok exited e : engineOK e -> engineOK (onClose exited e).
Proof.
  intros He. destruct (Stop_ok exited e He) as [(Hlive & Hone & Hidle & Hsig) Hk].
  unfold onClose. split; [|split; [|split; [|exact Hsig]]]; simpl.
  - by rewrite liveAfter_snoc.
  - apply atMostOneLive_snoc; [done|]. simpl. rewrite Hlive, Hk. simpl; lia.
  - apply idleBeforeStart_snoc; [done|]; discriminate.
Qed.

End TriggerEngineProofs.

Section TriggerEngineRuns.

Variable Matches : string -> list string -> bool * option GoError.
Variable osEnviron : list string.
Variable rangeOrder : gmap string string -> list (string * string).

Lemma reactions_set_kcmd env k tg cur arrivals closeExited :
  reactions Matches env (set_kcmd k tg) cur arrivals closeExited
  = reactions Matches env tg cur arrivals closeExited.
Proof.
  revert cur. induction arrivals as [|a rest IH]; intros cur; simpl; [done|].
  destruct (Matches _ _) as [[|] [err|]]; try done.
  by rewrite IH.
Qed.

Lemma reactions_set_matchPattens env compiled tg cur arrivals closeExited :
  reactions Matches env (set_matchPattens compiled tg) cur arrivals closeExited
  = reactions Matches env tg cur arrivals closeExited.
Proof.
  revert cur. induction arrivals as [|a rest IH]; intros cur; simpl; [done|].
  destruct (Matches _ _) as [[|] [err|]]; try done.
  by rewrite IH.
Qed.

(** The state after the reaction to a matching event. *)
Lemma onMatch_state e cur exited :
  kcmd (eng_tg e) = Some cur ->
  eng_count e = S cur ->
  let e1 := Start osEnviron rangeOrder
              (Sleep (delayDuration (eng_tg (Stop exited e))) (Stop exited e)) in
  eng_tg e1 = set_kcmd (Some (S cur)) (eng_tg e)
  /\ eng_count e1 = S (S cur)
  /\ eng_trace e1
     = (eng_trace e
        ++ [stopAction cur exited (killSignal (eng_tg e));
            ActSleep (delayDuration (eng_tg e));
            ActStart (S cur) (Command (eng_tg e))
              (startEnv osEnviron rangeOrder (eng_tg e))])%list.
Proof.
  intros Hk Hn. unfold Start, Sleep, Stop, stopAction. rewrite Hk.
  destruct exited; simpl; rewrite Hn, <- !app_assoc; done.
Qed.

(** The loop and what follows it, from any state in which [cur] is the
    running command, do what [reactions] lists. *)
Lemma eventLoop_reactions arrivals closeExited :
  forall e cur,
    kcmd (eng_tg e) = Some cur ->
    eng_count e = S cur ->
    match eventLoop Matches osEnviron rangeOrder e arrivals with
    | (e', None) => (eng_trace (onClose closeExited e'), Returned)
    | (e', Some err) => (eng_trace e', Fatal err)
    end
    = let '(trace, outcome) :=
        reactions Matches (startEnv osEnviron rangeOrder (eng_tg e)) (eng_tg e)
          cur arrivals closeExited in
      ((eng_trace e ++ trace)%list, outcome).
Proof.
  induction arrivals as [|a rest IH]; intros e cur Hk Hn.
  - simpl. unfold onClose, Stop, stopAction. rewrite Hk.
    destruct closeExited; simpl; by rewrite <- app_assoc.
  - cbn [eventLoop reactions]. unfold onEvent, isMatch.
    destruct (Matches (fse_Name (arr_evt a)) (Pattens (eng_tg e))) as [[|] [err|]].
    + by rewrite app_nil_r.
    + destruct (onMatch_state e cur (arr_exited a) Hk Hn) as (Htg & Hcnt & Htr).
      rewrite (IH _ (S cur)) by (by rewrite ?Htg, ?Hcnt).
      rewrite Htg, Htr, reactions_set_kcmd.
      change (startEnv osEnviron rangeOrder (set_kcmd (Some (S cur)) (eng_tg e)))
        with (startEnv osEnviron rangeOrder (eng_tg e)).
      destruct (reactions _ _ _ _ _ _) as [trace outcome].
      by rewrite <- app_assoc.
    + by rewrite app_nil_r.
    + by apply IH.
Qed.

(** A whole run of the engine is the first start followed by its reactions. *)
Lemma WatchEvent_unfold tge arrivals closeExited :
  WatchEvent Matches osEnviron rangeOrder tge arrivals closeExited
  = let '(trace, outcome) :=
      reactions Matches (startEnv osEnviron rangeOrder tge) tge 0%nat arrivals closeExited in
    (ActStart 0%nat (Command tge) (startEnv osEnviron rangeOrder tge) :: trace, outcome).
Proof.
  unfold WatchEvent.
  rewrite (eventLoop_reactions arrivals closeExited _ 0%nat) by done.
  change (eng_tg (Start osEnviron rangeOrder (newEngine tge)))
    with (set_kcmd (Some 0%nat) tge).
  rewrite reactions_set_kcmd.
  change (startEnv osEnviron rangeOrder (set_kcmd (Some 0%nat) tge))
    with (startEnv osEnviron rangeOrder tge).
  by destruct (reactions _ _ _ _ _ _).
Qed.

(** A run does not depend on the patterns fix-up compiled. *)
Lemma WatchEvent_matchPattens tge compiled arrivals closeExited :
  WatchEvent Matches osEnviron rangeOrder (set_matchPattens compiled tge) arrivals closeExited
  = WatchEvent Matches osEnviron rangeOrder tge arrivals closeExited.
Proof.
  rewrite !WatchEvent_unfold.
  change (startEnv osEnviron rangeOrder (set_matchPattens compiled tge))
    with (startEnv osEnviron rangeOrder tge).
  by rewrite reactions_set_matchPattens.
Qed.

(** With the nil signal, the reactions up to the start that follows a
    matching event for a command that has not exited leave that command and
    the new one live. *)
Lemma reactions_two_live env tg a rest closeExited :
  killSignal tg = None ->
  Matches (fse_Name (arr_evt a)) (Pattens tg) = (true, None) ->
  arr_exited a = false ->
  forall pre cur,
    matcherSound Matches tg pre ->
    exists p,
      p `prefix_of` fst (reactions Matches env tg cur (pre ++ a :: rest) closeExited)
      /\ forall live, cur ∈ live -> (2 <= length (foldl liveStep live p))%nat.
Proof.
  intros Hsig Hmatch Hexited. induction pre as [|b pre IH]; intros cur Hsound.
  - cbn [app reactions]. rewrite Hmatch, Hexited, Hsig.
    destruct (reactions Matches env tg (S cur) rest closeExited) as [trace outcome].
    exists [stopAction cur false None; ActSleep (delayDuration tg);
            ActStart (S cur) (Command tg) env].
    split; [by exists trace|].
    intros live Hcur. cbn. rewrite length_app. cbn.
    destruct live; [by apply elem_of_nil in Hcur|]. cbn. lia.
  - apply Forall_cons in Hsound as [Hb Hsound]. cbn [app reactions].
    destruct (Matches (fse_Name (arr_evt b)) (Pattens tg)) as [[|] [err|]];
      try discriminate.
    + destruct (IH (S cur) Hsound) as (p & Hp & Hlive).
      destruct (reactions Matches env tg (S cur) (pre ++ a :: rest) closeExited)
        as [trace outcome].
      exists (stopAction cur (arr_exited b) (killSignal tg)
              :: ActSleep (delayDuration tg)
              :: ActStart (S cur) (Command tg) env :: p).
      split; [by do 3 apply prefix_cons|].
      intros live _. cbn [foldl]. apply Hlive. cbn [liveStep].
      apply elem_of_app. right. by apply list_elem_of_singleton.
    + by apply IH.
Qed.

(** C5 (the code, and where it fails).  For a trigger whose signal is set,
    at every instant of every run at most one command of the trigger is
    started and not yet stopped, and whenever the engine starts a command the
    previous one has been stopped (signalled, or found exited).  For a trigger
    whose signal is nil, as fix-up leaves it for a signal name the table does
    not know, [Stop] sends nothing: as soon as an event matches while the
    command has not exited, two commands of the trigger are live. *)
Theorem WatchEvent_one_live (tge : TriggerEvent) (arrivals : list Arrival)
    (closeExited : bool) :
  (killSignal tge <> None ->
   atMostOneLive (fst (WatchEvent Matches osEnviron rangeOrder tge arrivals closeExited))
   /\ idleBeforeStart
        (fst (WatchEvent Matches osEnviron rangeOrder tge arrivals closeExited)))
  /\ (killSignal tge = None ->
      forall pre a rest,
        arrivals = (pre ++ a :: rest)%list ->
        matcherSound Matches tge pre ->
        isMatch Matches tge (arr_evt a) = (true, None) ->
        arr_exited a = false ->
        ~ atMostOneLive
            (fst (WatchEvent Matches osEnviron rangeOrder tge arrivals closeExited))).
Proof.
  split.
  - intros Hsig. unfold WatchEvent.
    pose proof (eventLoop_ok Matches osEnviron rangeOrder arrivals _
                  (Start_first osEnviron rangeOrder tge Hsig)) as Hloop.
    destruct (eventLoop _ _ _ _ _) as [e [err|]]; simpl in *.
    + destruct Hloop as (_ & Hone & Hidle & _). by split.
    + destruct (onClose_ok closeExited e Hloop) as (_ & Hone & Hidle & _). by split.
  - intros Hsig pre a rest -> Hsound Hmatch Hexited Hone.
    rewrite WatchEvent_unfold in Hone.
    destruct (reactions_two_live (startEnv osEnviron rangeOrder tge) tge a rest
                closeExited Hsig Hmatch Hexited pre 0%nat Hsound) as (p & Hp & Hlive).
    destruct (reactions _ _ _ _ _ _) as [trace outcome]. cbn [fst] in *.
    specialize (Hone (ActStart 0%nat (Command tge) (startEnv osEnviron rangeOrder tge) :: p)
                  (prefix_cons _ _ _ Hp)).
    specialize (Hlive [0%nat]). unfold liveAfter in Hone. cbn [foldl liveStep app] in Hone.
    assert (0%nat ∈ [0%nat]) as Hin by (by apply list_elem_of_singleton).
    specialize (Hlive Hin).
    exact (Nat.lt_irrefl _ (Nat.lt_le_trans _ _ _ Hlive Hone)).
Qed.


End TriggerEngineRuns.

(** The theorem for the triggers of the configurations [{cmd: sleep 34}] and
    [{cmd: sleep 34, signal: FOO}] and one change of ["main.go"]: with the
    signal HUP one command is live at a time, with the unknown signal name the
    second command is started while the first still runs. *)
Lemma WatchEvent_one_live_witness :
  atMostOneLive
    (fst (WatchEvent literalMatches [] map_to_list (sleepTrigger "HUP" (Some SIGHUP))
            [mkArrival (mkFSEvent "main.go") false] false))
  /\ ~ atMostOneLive
        (fst (WatchEvent literalMatches [] map_to_list (sleepTrigger "FOO" None)
                [mkArrival (mkFSEvent "main.go") false] false)).
Proof.
  split.
  - apply (WatchEvent_one_live literalMatches [] map_to_list
             (sleepTrigger "HUP" (Some SIGHUP))
             [mkArrival (mkFSEvent "main.go") false] false).
    discriminate.
  - apply (proj2 (WatchEvent_one_live literalMatches [] map_to_list
                    (sleepTrigger "FOO" None)
                    [mkArrival (mkFSEvent "main.go") false] false)
             eq_refl [] (mkArrival (mkFSEvent "main.go") false) []).
    + reflexivity.
    + constructor.
    + by vm_compute.
    + reflexivity.
Defined.

(** A run for a trigger on ["main.go"] with a delay of 50 ms and the signal
    SIGHUP: a change of ["main.go"] stops the command, waits and restarts it,
    a change of ["README.md"] does nothing, and closure stops the second
    command, which has exited by then. *)
Example WatchEvent_main_go :
  WatchEvent literalMatches ["HOME=/root"] map_to_list
    (mkTriggerEvent "t" ["main.go"] ["main.go"] ∅ "go run ." "50ms"
       (50 * Millisecond) "HUP" (Some SIGHUP) None)
    [mkArrival (mkFSEvent "main.go") false; mkArrival (mkFSEvent "README.md") false]
    true
  = ([ActStart 0%nat "go run ." ["HOME=/root"];
      ActTerminate 0%nat (Some SIGHUP);
      ActSleep (50 * Millisecond);
      ActStart 1%nat "go run ." ["HOME=/root"];
      ActExited 1%nat;
      ActDone], Returned).
Proof. vm_compute. reflexivity. Qed.

(** ** The environment of a started command *)

Lemma entryKey_envEntry k v :
  validKey k = true ->
  entryKey (envEntry (k, v)) = Some k /\ entryValue (envEntry (k, v)) = v.
Proof.
  unfold envEntry, validKey. simpl. induction k as [|c k IH]; intros Hk.
  - done.
  - simpl in *. apply negb_true_iff, orb_false_iff in Hk as [Hc Hk].
    rewrite Hc. destruct IH as [IH1 IH2]; [by rewrite Hk|].
    by rewrite IH1, IH2.
Qed.

Lemma envLookup_app l1 l2 key :
  envLookup (l1 ++ l2) key = foldl (pickEntry key) (envLookup l1 key) l2.
Proof. unfold envLookup. by rewrite foldl_app. Qed.

Section Overrides.

Variable key : string.

Lemma overrides_keep (l : list (string * string)) val :
  (forall k v, (k, v) ∈ l -> validKey k = true) ->
  (forall v, (key, v) ∈ l -> v = val) ->
  foldl (pickEntry key) (Some val) (map envEntry l) = Some val.
Proof.
  induction l as [|[k v] l IH]; intros Hvalid Huniq; simpl; [done|].
  destruct (entryKey_envEntry k v) as [Hk Hv]; [apply (Hvalid k v); left|].
  unfold pickEntry at 2. rewrite Hk, Hv.
  assert (Hrest : foldl (pickEntry key) (Some val) (map envEntry l) = Some val).
  { apply IH; intros; [eapply Hvalid | apply Huniq]; by right. }
  case_decide as Heq; [|done].
  inversion Heq; subst k. by rewrite (Huniq v) by left.
Qed.

Lemma overrides_win (l : list (string * string)) val found :
  (forall k v, (k, v) ∈ l -> validKey k = true) ->
  (forall v, (key, v) ∈ l -> v = val) ->
  (key, val) ∈ l ->
  foldl (pickEntry key) found (map envEntry l) = Some val.
Proof.
  revert found. induction l as [|[k v] l IH]; intros found Hvalid Huniq Hin.
  - by apply elem_of_nil in Hin.
  - simpl. destruct (entryKey_envEntry k v) as [Hk Hv]; [apply (Hvalid k v); left|].
    unfold pickEntry at 2. rewrite Hk, Hv.
    assert (Hv' : forall k0 v0, (k0, v0) ∈ l -> validKey k0 = true)
      by (intros; eapply Hvalid; by right).
    assert (Hu' : forall v0, (key, v0) ∈ l -> v0 = val)
      by (intros; apply Huniq; by right).
    case_decide as Heq.
    + inversion Heq; subst k. rewrite (Huniq v) by left.
      by apply overrides_keep.
    + apply elem_of_cons in Hin as [Hin|Hin]; [inversion Hin; congruence|].
      by apply IH.
Qed.

Lemma overrides_absent (l : list (string * string)) found :
  (forall k v, (k, v) ∈ l -> validKey k = true) ->
  (forall v, (key, v) ∉ l) ->
  foldl (pickEntry key) found (map envEntry l) = found.
Proof.
  induction l as [|[k v] l IH]; intros Hvalid Hnot; simpl; [done|].
  destruct (entryKey_envEntry k v) as [Hk Hv]; [apply (Hvalid k v); left|].
  unfold pickEntry at 2. rewrite Hk.
  case_decide as Heq.
  - inversion Heq; subst k. exfalso. apply (Hnot v). left.
  - apply IH; [intros; eapply Hvalid; by right|].
    intros v0 Hin. apply (Hnot v0). by right.
Qed.

End Overrides.

(** C9.  When a trigger's command is started, the environment handed to it
    is the inherited environment followed by one entry per key of the
    trigger's [Environ], in whatever order the map is ranged over; for every
    key the command therefore sees the trigger's value when the trigger sets
    the key, and the inherited value otherwise.  Keys are environment variable
    names, free of ['=']. *)
Theorem Start_env_override
    (osEnviron : list string)
    (rangeOrder : gmap string string -> list (string * string))
    (e : Engine) :
  rangeOrder (Environ (eng_tg e)) ≡ₚ map_to_list (Environ (eng_tg e)) ->
  (forall k v, Environ (eng_tg e) !! k = Some v -> validKey k = true) ->
  eng_trace (Start osEnviron rangeOrder e)
  = (eng_trace e
     ++ [ActStart (eng_count e) (Command (eng_tg e))
           (startEnv osEnviron rangeOrder (eng_tg e))])%list
  /\ (forall key,
        envLookup (startEnv osEnviron rangeOrder (eng_tg e)) key
        = match Environ (eng_tg e) !! key with
          | Some val => Some val
          | None => envLookup osEnviron key
          end).
Proof.
  intros Hperm Hvalid. split; [done|].
  intros key. unfold startEnv. rewrite envLookup_app.
  assert (Hin : forall k v, (k, v) ∈ rangeOrder (Environ (eng_tg e))
                            <-> Environ (eng_tg e) !! k = Some v).
  { intros k v. by rewrite Hperm, elem_of_map_to_list. }
  destruct (Environ (eng_tg e) !! key) as [val|] eqn:Hkey.
  - apply overrides_win.
    + intros k v Hkv. eapply Hvalid. by apply Hin.
    + intros v Hv. apply Hin in Hv. congruence.
    + by apply Hin.
  - apply overrides_absent.
    + intros k v Hkv. eapply Hvalid. by apply Hin.
    + intros v Hv. apply Hin in Hv. congruence.
Qed.

(** The theorem for a trigger that sets [DEBUG] over an inherited
    environment that has it too. *)
Lemma Start_env_override_witness :
  envLookup
    (startEnv ["DEBUG=0"; "HOME=/root"] map_to_list generatedTrigger) "DEBUG" = Some "1"
  /\ envLookup
       (startEnv ["DEBUG=0"; "HOME=/root"] map_to_list generatedTrigger) "HOME"
     = Some "/root".
Proof.
  assert (Hvalid : forall k v, Environ generatedTrigger !! k = Some v -> validKey k = true).
  { intros k v H. cbn in H. apply lookup_singleton_Some in H as [<- _]. reflexivity. }
  destruct (Start_env_override ["DEBUG=0"; "HOME=/root"] map_to_list
              (newEngine generatedTrigger) (reflexivity _) Hvalid) as [_ Hlook].
  change (eng_tg (newEngine generatedTrigger)) with generatedTrigger in Hlook.
  split.
  - rewrite (Hlook "DEBUG"). reflexivity.
  - rewrite (Hlook "HOME"). reflexivity.
Defined.

(** ** The pattern test at run time *)

(** C2 (the code at the failing input).  For the trigger whose pattern list
    is the single string ["*.go\n*.c"], fix-up compiles the two patterns
    ["*.go"] and ["*.c"] into [matchPattens]; yet, whatever the matcher, the
    test the engine applies to an event is the matcher run on the raw list,
    and a run of the engine is the same whatever [matchPattens] holds. *)
Theorem isMatch_reads_raw_patterns
    (Matches : string -> list string -> bool * option GoError)
    (osEnviron : list string)
    (rangeOrder : gmap string string -> list (string * string)) :
  let fixed := fst (fixTrigger (initSignalMaps literalKeys) dockerignore_ReadIgnore
                      twoLineTrigger) in
  matchPattens fixed = ["*.go"; "*.c"]
  /\ Pattens fixed = [twoLinePattern]
  /\ (forall evt, isMatch Matches fixed evt = Matches (fse_Name evt) [twoLinePattern])
  /\ (forall compiled arrivals closeExited,
        WatchEvent Matches osEnviron rangeOrder (set_matchPattens compiled fixed)
          arrivals closeExited
        = WatchEvent Matches osEnviron rangeOrder fixed arrivals closeExited).
Proof.
  intros fixed.
  assert (Hm : matchPattens fixed = ["*.go"; "*.c"]) by (vm_compute; reflexivity).
  assert (Hp : Pattens fixed = [twoLinePattern]) by apply fixTrigger_Pattens.
  clearbody fixed. repeat split; try done.
  - intros evt. unfold isMatch. by rewrite Hp.
  - intros. apply WatchEvent_matchPattens.
Qed.

(** ** The change filter *)

Lemma time_Sub_window t u :
  (time_Sub t u >? Millisecond * 100) = true <-> t - u > Millisecond * 100.
Proof.
  unfold time_Sub, minDuration, maxDuration, Millisecond, Microsecond, Nanosecond.
  destruct (t - u <? - 2 ^ 63) eqn:Hlo; [|destruct (2 ^ 63 - 1 <? t - u) eqn:Hhi];
    rewrite Z.gtb_gt; lia.
Qed.

Lemma IsChanged_readable stat m path pinfo :
  stat path = Some pinfo ->
  IsChanged stat m path
  = if bool_decide (fi_ModTime pinfo - default 0 (m !! path) > Millisecond * 100)
    then (true, <[path := fi_ModTime pinfo]> m) else (false, m).
Proof.
  intros Hstat. unfold IsChanged. rewrite Hstat.
  destruct (time_Sub _ _ >? _) eqn:Hsub.
  - apply time_Sub_window in Hsub. by rewrite bool_decide_eq_true_2.
  - rewrite bool_decide_eq_false_2; [done|].
    intros H. apply time_Sub_window in H. congruence.
Qed.

(** What the filter does with a notification that is neither the creation
    of a directory nor a removal: it forwards it when [IsChanged] says so. *)
Lemma transformStep_change stat w evt :
  dirCreated stat evt = false -> ev_Op evt <> Remove ->
  transformStep stat w evt
  = (mkWorld (fsw w) (visits w) (snd (IsChanged stat (fileModifyTimeMap w) (ev_Name evt))),
     if fst (IsChanged stat (fileModifyTimeMap w) (ev_Name evt))
     then [mkFSEvent (ev_Name evt)] else []).
Proof.
  intros Hdir Hop. unfold transformStep. fold (dirCreated stat evt). rewrite Hdir.
  destruct (ev_Op evt =? Remove) eqn:E; [apply Z.eqb_eq in E; done|].
  by destruct (IsChanged _ _ _) as [[|] m].
Qed.

(** After an accepted notification, change notifications for the path whose
    modification times lie within the window of the accepted one are dropped
    and change nothing. *)
Lemma transformEvent_window w path t rest :
  fileModifyTimeMap w !! path = Some t ->
  Forall (changeWithin path t) rest ->
  transformEvent w rest = (w, []).
Proof.
  intros Hm. induction 1 as [|[stat evt] rest (Hname & Hdir & Hop & pinfo & Hstat & Hwin) _ IH];
    [done|].
  cbn [fst snd] in *. subst path. cbn [transformEvent].
  rewrite (transformStep_change _ _ _ Hdir Hop), (IsChanged_readable _ _ _ _ Hstat), Hm.
  change (default 0 (Some t)) with t. rewrite bool_decide_eq_false_2 by lia.
  cbn [fst snd].
  replace (mkWorld (fsw w) (visits w) (fileModifyTimeMap w)) with w by (by destruct w).
  by rewrite IH.
Qed.

(** C4 (as amended).  A change notification, neither the creation of a
    directory nor a removal, that is handled while the path's metadata can be
    read is forwarded if and only if the path's modification time exceeds the
    timestamp stored for the path (the zero time when none is stored) by more
    than 100 ms; exactly then the modification time is stored, and otherwise
    the stored timestamps stay as they are.  Hence, after a forwarded
    notification, of a run of such notifications whose modification times lie
    within 100 ms of the forwarded one none is forwarded.  A change
    notification handled while the metadata cannot be read is forwarded and
    stores nothing. *)
Theorem IsChanged_debounce (stat : Stat) (w : World) (evt : Event) :
  dirCreated stat evt = false -> ev_Op evt <> Remove ->
  (forall pinfo,
     stat (ev_Name evt) = Some pinfo ->
     (snd (transformStep stat w evt) = [mkFSEvent (ev_Name evt)]
      <-> fi_ModTime pinfo - storedTime w (ev_Name evt) > Millisecond * 100)
     /\ (snd (transformStep stat w evt) = []
         <-> fi_ModTime pinfo - storedTime w (ev_Name evt) <= Millisecond * 100)
     /\ fileModifyTimeMap (fst (transformStep stat w evt))
        = (if bool_decide (fi_ModTime pinfo - storedTime w (ev_Name evt)
                           > Millisecond * 100)
           then <[ev_Name evt := fi_ModTime pinfo]> (fileModifyTimeMap w)
           else fileModifyTimeMap w)
     /\ (forall rest,
           fi_ModTime pinfo - storedTime w (ev_Name evt) > Millisecond * 100 ->
           Forall (changeWithin (ev_Name evt) (fi_ModTime pinfo)) rest ->
           transformEvent w ((stat, evt) :: rest)
           = (mkWorld (fsw w) (visits w)
                (<[ev_Name evt := fi_ModTime pinfo]> (fileModifyTimeMap w)),
              [mkFSEvent (ev_Name evt)])))
  /\ (stat (ev_Name evt) = None ->
      transformStep stat w evt = (w, [mkFSEvent (ev_Name evt)])).
Proof.
  intros Hdir Hop. split.
  - intros pinfo Hstat.
    pose proof (transformStep_change stat w evt Hdir Hop) as Hstep.
    rewrite (IsChanged_readable _ _ _ _ Hstat) in Hstep.
    fold (storedTime w (ev_Name evt)) in Hstep.
    destruct (bool_decide_reflect
                (fi_ModTime pinfo - storedTime w (ev_Name evt) > Millisecond * 100))
      as [Hgt|Hle]; cbn [fst snd] in Hstep.
    + split; [by rewrite Hstep|]. split; [rewrite Hstep; cbn [snd]; split; [done|lia]|].
      split; [by rewrite Hstep|].
      intros rest _ Hwin. cbn [transformEvent]. rewrite Hstep.
      rewrite (transformEvent_window _ (ev_Name evt) (fi_ModTime pinfo) rest); [done| |done].
      apply lookup_insert_eq.
    + split; [rewrite Hstep; cbn [snd]; split; [done|lia]|].
      split; [rewrite Hstep; cbn [snd]; split; [lia|done]|].
      split; [by rewrite Hstep|]. intros rest Hgt. lia.
  - intros Hstat. rewrite (transformStep_change stat w evt Hdir Hop).
    unfold IsChanged. rewrite Hstat. by destruct w.
Qed.

(** The theorem for a file modified three times: at [someTime], 10 ms later
    and 100 ms later.  The first notification is forwarded, the others are
    not. *)
Lemma IsChanged_debounce_witness :
  transformEvent emptyWorld
    [(fileAt "main.go" someTime, mkEvent "main.go" Write);
     (fileAt "main.go" (someTime + 10 * Millisecond), mkEvent "main.go" Write);
     (fileAt "main.go" (someTime + 100 * Millisecond), mkEvent "main.go" Chmod)]
  = (mkWorld ∅ ∅ (<["main.go" := someTime]> ∅), [mkFSEvent "main.go"]).
Proof.
  assert (Hop : Write <> Remove) by (unfold Write, Remove; lia).
  destruct (IsChanged_debounce (fileAt "main.go" someTime) emptyWorld
              (mkEvent "main.go" Write) eq_refl Hop) as [Hread _].
  destruct (Hread (mkFileInfo false someTime) eq_refl) as (_ & _ & _ & Hrun).
  apply (Hrun [(fileAt "main.go" (someTime + 10 * Millisecond), mkEvent "main.go" Write);
               (fileAt "main.go" (someTime + 100 * Millisecond), mkEvent "main.go" Chmod)]).
  - unfold storedTime. cbn [fileModifyTimeMap emptyWorld ev_Name]. rewrite lookup_empty.
    cbn. unfold someTime, Second, Millisecond, Microsecond, Nanosecond. lia.
  - repeat constructor; cbn; try (unfold Write, Chmod, Remove; lia);
      eexists; (split; [reflexivity|]); cbn;
      unfold someTime, Second, Millisecond, Microsecond, Nanosecond; lia.
Defined.

Lemma transformStep_unreadable stat w evt :
  unreadable (stat, evt) -> transformStep stat w evt = (w, [mkFSEvent (ev_Name evt)]).
Proof.
  intros [Hstat Hop]. simpl in *. unfold transformStep, IsDirectory, IsChanged.
  rewrite Hstat, andb_false_r.
  destruct (ev_Op evt =? Remove) eqn:E; [apply Z.eqb_eq in E; done|].
  by destruct w.
Qed.

(** C4 (as stated) fails: two notifications that ["a.txt"] was written are
    handled while the file cannot be read, a timestamp being stored for it.
    No modification time exceeds the stored timestamp, yet both notifications
    are forwarded, the second right after the first, and neither updates the
    stored timestamp. *)
Lemma IsChanged_unreadable_counterexample :
  nothingAt "a.txt" = None
  /\ IsChanged nothingAt {["a.txt" := someTime]} "a.txt" = (true, {["a.txt" := someTime]})
  /\ transformEvent (mkWorld ∅ ∅ {["a.txt" := someTime]})
       [(nothingAt, mkEvent "a.txt" Write); (nothingAt, mkEvent "a.txt" Write)]
     = (mkWorld ∅ ∅ {["a.txt" := someTime]}, [mkFSEvent "a.txt"; mkFSEvent "a.txt"]).
Proof.
  split; [reflexivity|]. split; [reflexivity|].
  assert (Hun : unreadable (nothingAt, mkEvent "a.txt" Write)).
  { split; [reflexivity|]. cbn. unfold Write, Remove. lia. }
  cbn [transformEvent]. by rewrite !(transformStep_unreadable _ _ _ Hun).
Qed.

(** C10.  A notification that is not a removal and whose path's metadata
    cannot be read is treated as a change: [IsChanged] answers [true] and
    leaves [fileModifyTimeMap] as it is, whatever timestamp is stored for the
    path, and the notification is forwarded.  A whole run of such
    notifications is forwarded, one event each, and changes no state. *)
Theorem unreadable_forwarded (w : World) (evts : list (Stat * Event)) :
  Forall unreadable evts ->
  Forall (fun se => IsChanged (fst se) (fileModifyTimeMap w) (ev_Name (snd se))
                    = (true, fileModifyTimeMap w)) evts
  /\ transformEvent w evts = (w, map (fun se => mkFSEvent (ev_Name (snd se))) evts).
Proof.
  intros Hall. split.
  - eapply Forall_impl; [exact Hall|]. intros [stat evt] [Hstat _]. simpl in *.
    unfold IsChanged. by rewrite Hstat.
  - induction Hall as [|[stat evt] evts Hun _ IH]; simpl; [done|].
    rewrite (transformStep_unreadable _ _ _ Hun), IH. done.
Qed.

(** The theorem for two notifications on a file that was deleted, although a
    recent timestamp is stored for it. *)
Lemma unreadable_forwarded_witness :
  transformEvent (mkWorld ∅ ∅ {["a.txt" := someTime]})
    [(nothingAt, mkEvent "a.txt" Rename); (nothingAt, mkEvent "a.txt" Chmod)]
  = (mkWorld ∅ ∅ {["a.txt" := someTime]}, [mkFSEvent "a.txt"; mkFSEvent "a.txt"]).
Proof.
  apply (unreadable_forwarded (mkWorld ∅ ∅ {["a.txt" := someTime]})
           [(nothingAt, mkEvent "a.txt" Rename); (nothingAt, mkEvent "a.txt" Chmod)]).
  repeat constructor; simpl; unfold Rename, Chmod, Remove; lia.
Defined.

Lemma dirCreated_not_Remove stat evt : dirCreated stat evt = true -> ev_Op evt <> Remove.
Proof.
  unfold dirCreated. intros H. apply andb_true_iff in H as [H _].
  apply Z.eqb_eq in H. rewrite H. unfold Create, Remove. lia.
Qed.

(** C3 (as amended).  For every raw notification: a directory-creation
    notification adds a watch on the path, as the watcher cleans it, and is
    not forwarded; a removal notification is not forwarded, whether or not a
    watch is held for its path, and the watch on the cleaned path is removed
    when one is held; every other notification is forwarded as an [FSEvent]
    exactly when the debounce check accepts it. *)
Theorem transformStep_classifies (stat : Stat) (w : World) (evt : Event) :
  (dirCreated stat evt = true ->
     snd (transformStep stat w evt) = []
     /\ fsw (fst (transformStep stat w evt)) = {[filepath_Clean (ev_Name evt)]} ∪ fsw w
     /\ fileModifyTimeMap (fst (transformStep stat w evt)) = fileModifyTimeMap w)
  /\ (ev_Op evt = Remove ->
        snd (transformStep stat w evt) = []
        /\ fsw (fst (transformStep stat w evt)) = fsw w ∖ {[filepath_Clean (ev_Name evt)]}
        /\ fileModifyTimeMap (fst (transformStep stat w evt)) = fileModifyTimeMap w)
  /\ (dirCreated stat evt = false -> ev_Op evt <> Remove ->
        snd (transformStep stat w evt)
        = (if fst (IsChanged stat (fileModifyTimeMap w) (ev_Name evt))
           then [mkFSEvent (ev_Name evt)] else [])
        /\ fsw (fst (transformStep stat w evt)) = fsw w
        /\ fileModifyTimeMap (fst (transformStep stat w evt))
           = snd (IsChanged stat (fileModifyTimeMap w) (ev_Name evt))).
Proof.
  unfold transformStep. fold (dirCreated stat evt).
  split; [|split].
  - intros Hdir. by rewrite Hdir.
  - intros Hop.
    destruct (dirCreated stat evt) eqn:Hdir;
      [by apply dirCreated_not_Remove in Hdir|].
    rewrite Hop, Z.eqb_refl. unfold fsw_Remove.
    destruct (decide (filepath_Clean (ev_Name evt) ∈ fsw w)) as [Hin|Hin];
      cbn [fst snd fsw fileModifyTimeMap]; split; [done| |done|]; split; try done.
    apply set_eq. intros x. rewrite elem_of_difference, elem_of_singleton.
    split; [intros Hx; split; [done|congruence] | by intros [Hx _]].
  - intros Hdir Hop. rewrite Hdir.
    destruct (ev_Op evt =? Remove) eqn:E; [apply Z.eqb_eq in E; done|].
    destruct (IsChanged _ _ _) as [[|] m']; done.
Qed.

(** The theorem for the notifications the watch on ["."] delivers: the
    directory ["./pkg"] is created, which adds the watch ["pkg"]; the
    directory ["./pkg"] is removed while the watch ["pkg"] is held, which
    drops it; the file ["./a.txt"] is written. *)
Lemma transformStep_classifies_witness :
  filepath_Clean "./pkg" = "pkg"
  /\ fsw (fst (transformStep (dirAt "./pkg" someTime) emptyWorld (mkEvent "./pkg" Create)))
     = {[filepath_Clean "./pkg"]} ∪ fsw emptyWorld
  /\ fsw (fst (transformStep nothingAt (fsw_Add "pkg" emptyWorld) (mkEvent "./pkg" Remove)))
     = fsw (fsw_Add "pkg" emptyWorld) ∖ {[filepath_Clean "./pkg"]}
  /\ snd (transformStep (fileAt "./a.txt" someTime) emptyWorld (mkEvent "./a.txt" Write))
     = [mkFSEvent "./a.txt"].
Proof.
  split; [by vm_compute|]. split; [|split].
  - apply (transformStep_classifies (dirAt "./pkg" someTime) emptyWorld
             (mkEvent "./pkg" Create)).
    reflexivity.
  - apply (transformStep_classifies nothingAt (fsw_Add "pkg" emptyWorld)
             (mkEvent "./pkg" Remove)).
    reflexivity.
  - destruct (transformStep_classifies (fileAt "./a.txt" someTime) emptyWorld
                (mkEvent "./a.txt" Write)) as (_ & _ & H).
    destruct H as [H _]; [reflexivity | unfold Write, Remove; simpl; lia |].
    rewrite H. reflexivity.
Defined.

(** C3 (as stated) fails: the notification that the file ["a.txt"] was
    removed is for a path that is neither a directory nor watched, and the
    debounce check would accept it; the filter forwards nothing. *)
Lemma transformStep_removal_counterexample :
  ("a.txt" ∉ fsw emptyWorld)
  /\ IsDirectory nothingAt "a.txt" = false
  /\ fst (IsChanged nothingAt (fileModifyTimeMap emptyWorld) "a.txt") = true
  /\ snd (transformStep nothingAt emptyWorld (mkEvent "a.txt" Remove)) = [].
Proof. repeat split; try reflexivity. simpl. apply not_elem_of_empty. Qed.

(** ** The directory walk *)

Lemma keptDirs_app base depth l1 l2 :
  keptDirs base depth (l1 ++ l2) = (keptDirs base depth l1 ++ keptDirs base depth l2)%list.
Proof. unfold keptDirs. by rewrite filter_app, map_app. Qed.

Lemma walk_Dir {S : Type} (fn : WalkFunc S) path name entries (s : S) :
  walk fn path name (Dir entries) s
  = match fn path name true s with
    | (s1, Some e) => (s1, Some e)
    | (s1, None) => walkEntries fn path entries s1
    end.
Proof. reflexivity. Qed.

Lemma allDirs_Dir path name entries above :
  allDirs path name (Dir entries) above
  = (path, (name, path) :: above) :: allDirsBelow path ((name, path) :: above) entries.
Proof. reflexivity. Qed.

(** Every directory enumerated from a node has the node's own chain as the
    end of its chain. *)
Lemma allDirs_chain n :
  forall path name above d,
    d ∈ allDirs path name n above ->
    exists pre, snd d = (pre ++ (name, path) :: above)%list.
Proof.
  induction n as [|entries IH] using Node_ind'; intros path name above d Hd.
  - by apply elem_of_nil in Hd.
  - rewrite allDirs_Dir in Hd. apply elem_of_cons in Hd as [->|Hd].
    + by exists [].
    + revert Hd. induction IH as [|[nm child] rest Hchild _ IHrest]; intros Hd.
      * by apply elem_of_nil in Hd.
      * simpl in Hd. apply elem_of_app in Hd as [Hd|Hd]; [|by apply IHrest].
        destruct (Hchild _ _ _ _ Hd) as [pre Hpre].
        exists (pre ++ [(nm, filepath_Join path nm)])%list.
        by rewrite <- app_assoc.
Qed.

Lemma filter_none {A} (P : A -> Prop) `{forall x, Decision (P x)} (l : list A) :
  (forall x, x ∈ l -> ~ P x) -> filter P l = [].
Proof.
  induction l as [|x l IH]; intros Hall; [done|].
  rewrite filter_cons_False by (apply Hall; left).
  apply IH. intros y Hy. apply Hall. by right.
Qed.

(** From an inadmissible directory down nothing is kept. *)
Lemma keptDirs_inadmissible base depth n path name above :
  admissible base depth (name, path) = false ->
  keptDirs base depth (allDirs path name n above) = [].
Proof.
  intros Hbad. unfold keptDirs.
  rewrite filter_none; [done|].
  intros x Hx.
  destruct (allDirs_chain _ _ _ _ _ Hx) as [pre ->].
  unfold allAdmissible. rewrite forallb_app. simpl. rewrite Hbad.
  rewrite andb_false_r. done.
Qed.

Section WalkProofs.

Variables (base depth : Z).

Lemma listDirFn_dir path name dirs :
  listDirFn base depth path name true dirs
  = if admissible base depth (name, path)
    then ((dirs ++ [path])%list, None) else (dirs, Some SkipDir).
Proof.
  unfold listDirFn, admissible, withinDepth. fold (hiddenName name). simpl.
  destruct (hiddenName name); simpl; [done|].
  destruct (countSeps path - base >? depth) eqn:Hgt.
  - apply Z.gtb_lt in Hgt. by rewrite (proj2 (Z.leb_gt _ _)) by lia.
  - rewrite Z.gtb_ltb in Hgt. apply Z.ltb_ge in Hgt.
    by rewrite (proj2 (Z.leb_le _ _)) by lia.
Qed.

(** The walk from a node whose ancestors are all admissible appends the kept
    directories of the node's subtree, and answers [SkipDir] exactly for a
    directory that is not admissible. *)
Lemma walk_listDirFn n :
  forall path name above dirs,
    allAdmissible base depth above = true ->
    walk (listDirFn base depth) path name n dirs
    = ((dirs ++ keptDirs base depth (allDirs path name n above))%list,
       if isDirNode n && negb (admissible base depth (name, path))
       then Some SkipDir else None).
Proof.
  induction n as [|entries IH] using Node_ind'; intros path name above dirs Habove.
  - simpl. by rewrite app_nil_r.
  - rewrite walk_Dir, listDirFn_dir. cbn [isDirNode andb].
    destruct (admissible base depth (name, path)) eqn:Hadm;
      cbv beta iota; cbn [negb].
    + assert (Hchain : allAdmissible base depth ((name, path) :: above) = true).
      { unfold allAdmissible. simpl. by rewrite Hadm. }
      rewrite allDirs_Dir. unfold keptDirs at 1.
      rewrite filter_cons_True by done. simpl.
      change (map fst (filter _ ?l)) with (keptDirs base depth l).
      replace (dirs ++ path :: keptDirs base depth
                 (allDirsBelow path ((name, path) :: above) entries))%list
        with ((dirs ++ [path]) ++ keptDirs base depth
                (allDirsBelow path ((name, path) :: above) entries))%list
        by (by rewrite <- app_assoc).
      generalize (dirs ++ [path])%list.
      induction IH as [|[nm child] rest Hchild _ IHrest]; intros s.
      * simpl. by rewrite app_nil_r.
      * cbn [walkEntries allDirsBelow]. simpl in Hchild.
        rewrite (Hchild _ _ _ _ Hchain), keptDirs_app, app_assoc.
        destruct (isDirNode child && negb _) eqn:Hskip.
        -- apply andb_true_iff in Hskip as [-> _]. simpl. apply IHrest.
        -- apply IHrest.
    + by rewrite keptDirs_inadmissible, app_nil_r.
Qed.

End WalkProofs.



(** Below the root ["."] the walk names an entry without a leading ["./"],
    so the entries of the root have depth 0: with a maximum depth of 1 the
    directory ["sub/sub2"] is listed, and a hidden directory is not. *)
Example ListAllDir_dot_depth_1 :
  ListAllDir "." sampleTree 1 = (["."; "sub"; "sub/sub2"], None).
Proof. vm_compute. reflexivity. Qed.

(** ** The watch set *)

Lemma walkInv_start w0 : walkInv w0 (w0, []).
Proof.
  unfold walkInv. cbn [fst snd]. repeat split.
  - constructor.
  - intros d Hd. by apply elem_of_nil in Hd.
  - intros d. rewrite (bool_decide_eq_false_2 (d ∈ [])) by apply not_elem_of_nil.
    by rewrite orb_false_r.
  - apply set_eq. intros x. rewrite elem_of_union, elem_of_list_to_set, elem_of_nil.
    tauto.
Qed.

Lemma watchDir_inv w0 st dir : walkInv w0 st -> walkInv w0 (watchDir st dir).
Proof.
  destruct st as [w adds]. intros (Hnd & Hnew & Hvis & Hfsw). simpl in *.
  unfold watchDir. destruct (visited w dir) eqn:Hdir; [done|].
  rewrite Hvis in Hdir. apply orb_false_iff in Hdir as [Hdir0 Hdir].
  apply bool_decide_eq_false_1 in Hdir.
  repeat split; simpl.
  - apply NoDup_app. repeat split; [done| |apply NoDup_singleton].
    intros x Hx Hx'. apply list_elem_of_singleton in Hx'. congruence.
  - intros d Hd. apply elem_of_app in Hd as [Hd|Hd]; [by apply Hnew|].
    apply list_elem_of_singleton in Hd. congruence.
  - intros d. unfold visited at 1. simpl. rewrite lookup_insert.
    destruct (decide (dir = d)) as [<-|Hne]; simpl.
    + rewrite (bool_decide_eq_true_2 (dir ∈ adds ++ [dir])%list)
        by (apply elem_of_app; right; by apply list_elem_of_singleton).
      by rewrite orb_true_r.
    + fold (visited w d). rewrite Hvis. f_equal.
      apply bool_decide_ext. rewrite elem_of_app, list_elem_of_singleton.
      split; [tauto|]. intros [H|H]; [done|congruence].
  - rewrite Hfsw, map_app. cbn [map]. apply set_eq. intros x.
    rewrite !elem_of_union, !elem_of_list_to_set, elem_of_app,
      elem_of_singleton, list_elem_of_singleton.
    tauto.
Qed.

Lemma foldl_watchDir_inv w0 dirs st :
  walkInv w0 st -> walkInv w0 (foldl watchDir st dirs).
Proof.
  revert st. induction dirs as [|dir dirs IH]; intros st Hst; simpl; [done|].
  apply IH. by apply watchDir_inv.
Qed.

Lemma WatchPathAndChildren_inv lstat w0 paths depth :
  forall st err st' err',
    walkInv w0 st ->
    WatchPathAndChildren lstat paths depth st err = Some (st', err') ->
    walkInv w0 st'.
Proof.
  induction paths as [|path paths IH]; intros st err st' err' Hst Hrun; simpl in Hrun.
  - by inversion Hrun; subst.
  - destruct (visited (fst st) path); [by eapply IH|].
    destruct (lstat path) as [root|]; [|discriminate].
    destruct (ListAllDir path root depth) as [dirs [er|]].
    + eapply IH; [|exact Hrun]. by apply watchDir_inv.
    + eapply IH; [|exact Hrun]. by apply foldl_watchDir_inv, watchDir_inv.
Qed.

(** C8 (as amended).  At run time a directory-creation notification
    registers a watch on the created path, as the watcher cleans it, so that
    the set of watched paths gains that path, strictly when it was not watched
    before, and a removal notification for a path whose cleaned form is
    watched removes the watch, strictly shrinking the set; the set holds a
    path at most once.  The [visits] mapping is not touched at run time.
    During the initial walk [w.Add] is called only for a path string that
    [visits] does not hold yet, so for no string twice; the strings
    registered are then visited and their cleaned forms watched. *)
Theorem watches_change (stat : Stat) (w : World) (evt : Event)
    (lstat : string -> option Node) (paths : list string) (depth : Z) (w0 : World) :
  visits (fst (transformStep stat w evt)) = visits w
  /\ (dirCreated stat evt = true ->
        fsw (fst (transformStep stat w evt)) = {[filepath_Clean (ev_Name evt)]} ∪ fsw w
        /\ (filepath_Clean (ev_Name evt) ∉ fsw w ->
            fsw w ⊂ fsw (fst (transformStep stat w evt))))
  /\ (ev_Op evt = Remove -> filepath_Clean (ev_Name evt) ∈ fsw w ->
        fsw (fst (transformStep stat w evt)) = fsw w ∖ {[filepath_Clean (ev_Name evt)]}
        /\ fsw (fst (transformStep stat w evt)) ⊂ fsw w)
  /\ (forall w' adds err,
        WatchPathAndChildren lstat paths depth (w0, []) None = Some (w', adds, err) ->
        NoDup adds
        /\ (forall d, d ∈ adds -> visited w0 d = false)
        /\ (forall d, visited w' d = visited w0 d || bool_decide (d ∈ adds))
        /\ fsw w' = fsw w0 ∪ list_to_set (map filepath_Clean adds)).
Proof.
  split; [|split; [|split]].
  - unfold transformStep. fold (dirCreated stat evt).
    destruct (dirCreated stat evt); [done|].
    destruct (ev_Op evt =? Remove).
    + unfold fsw_Remove. by destruct (decide _).
    + by destruct (IsChanged _ _ _) as [[|] m].
  - intros Hdir. unfold transformStep. fold (dirCreated stat evt). rewrite Hdir.
    cbn [fst fsw fsw_Add]. split; [done|]. intros Hnew. split.
    + intros x Hx. apply elem_of_union. by right.
    + intros Hsub. apply Hnew, Hsub, elem_of_union. left. by apply elem_of_singleton.
  - intros Hop Hin. unfold transformStep. fold (dirCreated stat evt).
    destruct (dirCreated stat evt) eqn:Hdir;
      [by apply dirCreated_not_Remove in Hdir|].
    rewrite Hop, Z.eqb_refl. unfold fsw_Remove.
    destruct (decide (filepath_Clean (ev_Name evt) ∈ fsw w)) as [_|Hn]; [|done].
    cbn [fst fsw]. split; [done|]. split.
    + intros x Hx. by apply elem_of_difference in Hx as [Hx _].
    + intros Hsub. specialize (Hsub _ Hin).
      apply elem_of_difference in Hsub as [_ Hsub]. apply Hsub.
      by apply elem_of_singleton.
  - intros w' adds err Hrun.
    by apply (WatchPathAndChildren_inv lstat w0 paths depth (w0, []) None
                (w', adds) err (walkInv_start w0)).
Qed.

(** The theorem for the initial walk of the current directory with depth 1,
    and for the notifications the watch on ["."] then delivers when the
    directory ["./pkg"] is created and when the directory ["./sub"], watched
    as ["sub"], is removed. *)
Lemma watches_change_witness :
  NoDup ["."; "sub"; "sub/sub2"]
  /\ fsw (fst (transformStep (dirAt "./pkg" someTime) emptyWorld (mkEvent "./pkg" Create)))
     = {[filepath_Clean "./pkg"]} ∪ fsw emptyWorld
  /\ fsw (fst (transformStep nothingAt (fsw_Add "sub" emptyWorld) (mkEvent "./sub" Remove)))
       ⊂ fsw (fsw_Add "sub" emptyWorld).
Proof.
  split; [|split].
  - destruct (watches_change nothingAt emptyWorld (mkEvent "" 0) sampleLstat ["."] 1
                emptyWorld) as (_ & _ & _ & Hwalk).
    destruct (Hwalk (fst (foldl watchDir (emptyWorld, []) ["."; "sub"; "sub/sub2"]))
                ["."; "sub"; "sub/sub2"] None) as [Hnd _]; [|exact Hnd].
    vm_compute. reflexivity.
  - destruct (watches_change (dirAt "./pkg" someTime) emptyWorld (mkEvent "./pkg" Create)
                sampleLstat [] 0 emptyWorld) as (_ & Hadd & _).
    destruct Hadd as [Hadd _]; [reflexivity|exact Hadd].
  - destruct (watches_change nothingAt (fsw_Add "sub" emptyWorld) (mkEvent "./sub" Remove)
                sampleLstat [] 0 emptyWorld) as (_ & _ & Hrem & _).
    destruct Hrem as [_ Hrem]; [reflexivity| |exact Hrem].
    cbn [fsw fsw_Add emptyWorld ev_Name]. apply elem_of_union. left.
    apply elem_of_singleton. by vm_compute.
Defined.

(** C8 (as stated) fails: after the notification that the directory
    ["./pkg"] was created, the path is watched, as ["pkg"], but the [visits]
    mapping holds neither form of it; and the same notification when ["pkg"]
    is watched already leaves the set of watched paths as it was. *)
Lemma transformStep_visits_counterexample :
  ("pkg" ∈ fsw (fst (transformStep (dirAt "./pkg" someTime) emptyWorld
                       (mkEvent "./pkg" Create))))
  /\ visits (fst (transformStep (dirAt "./pkg" someTime) emptyWorld
                    (mkEvent "./pkg" Create))) !! "./pkg" = None
  /\ visits (fst (transformStep (dirAt "./pkg" someTime) emptyWorld
                    (mkEvent "./pkg" Create))) !! "pkg" = None
  /\ fsw (fst (transformStep (dirAt "./pkg" someTime) (fsw_Add "pkg" emptyWorld)
                 (mkEvent "./pkg" Create)))
     = fsw (fsw_Add "pkg" emptyWorld).
Proof.
  split; [|split; [|split]].
  - change (transformStep (dirAt "./pkg" someTime) emptyWorld (mkEvent "./pkg" Create))
      with (fsw_Add "./pkg" emptyWorld, @nil FSEvent).
    cbn [fst fsw fsw_Add]. apply elem_of_union. left.
    apply elem_of_singleton. by vm_compute.
  - reflexivity.
  - reflexivity.
  - vm_compute. reflexivity.
Qed.

(** * Further properties *)

(** ** [UniqStrings] *)

Lemma firstOccurrences_elem seen ss x :
  x ∈ firstOccurrences seen ss <-> x ∈ ss /\ x ∉ seen.
Proof.
  revert seen. induction ss as [|key rest IH]; intros seen; simpl.
  - rewrite !elem_of_nil. tauto.
  - destruct (decide (key ∈ seen)) as [Hin|Hout].
    + rewrite IH, elem_of_cons. split; [tauto|].
      intros [[->|H] Hx]; [done|tauto].
    + rewrite !elem_of_cons, IH, elem_of_cons.
      destruct (decide (x = key)) as [->|Hne]; [tauto|]. tauto.
Qed.

Lemma firstOccurrences_NoDup seen ss : NoDup (firstOccurrences seen ss).
Proof.
  revert seen. induction ss as [|key rest IH]; intros seen; simpl; [constructor|].
  destruct (decide (key ∈ seen)); [apply IH|].
  constructor; [|apply IH].
  rewrite firstOccurrences_elem, elem_of_cons. tauto.
Qed.

Lemma firstOccurrences_sublist seen ss : firstOccurrences seen ss `sublist_of` ss.
Proof.
  revert seen. induction ss as [|key rest IH]; intros seen; simpl; [constructor|].
  destruct (decide (key ∈ seen)); [by apply sublist_cons | by apply sublist_skip].
Qed.

Lemma firstOccurrences_ext seen seen' ss :
  (forall k, k ∈ seen <-> k ∈ seen') ->
  firstOccurrences seen ss = firstOccurrences seen' ss.
Proof.
  revert seen seen'. induction ss as [|key rest IH]; intros seen seen' Heq; simpl; [done|].
  destruct (decide (key ∈ seen)) as [Hin|Hout];
    destruct (decide (key ∈ seen')) as [Hin'|Hout'].
  - by apply IH.
  - by apply Heq in Hin.
  - by apply Heq in Hin'.
  - f_equal. apply IH. intros k. rewrite !elem_of_cons, Heq. tauto.
Qed.

Lemma firstOccurrences_filter seen x ss :
  firstOccurrences (x :: seen) ss = firstOccurrences seen (filter (fun y => y <> x) ss).
Proof.
  revert seen. induction ss as [|key rest IH]; intros seen; simpl; [done|].
  destruct (decide (key = x)) as [->|Hne].
  - rewrite filter_cons_False by (intros H; by apply H).
    rewrite decide_True by (by left). apply IH.
  - rewrite filter_cons_True by done. simpl.
    destruct (decide (key ∈ seen)) as [Hin|Hout].
    + rewrite decide_True by (by right). apply IH.
    + rewrite decide_False by (rewrite elem_of_cons; tauto).
      f_equal. rewrite <- IH. apply firstOccurrences_ext.
      intros k. rewrite !elem_of_cons. tauto.
Qed.

Lemma firstOccurrences_fixed seen ss :
  NoDup ss -> (forall x, x ∈ ss -> x ∉ seen) -> firstOccurrences seen ss = ss.
Proof.
  revert seen. induction ss as [|key rest IH]; intros seen Hnd Hnew; simpl; [done|].
  apply NoDup_cons in Hnd as [Hkey Hnd].
  rewrite decide_False by (apply Hnew; left).
  f_equal. apply IH; [done|].
  intros x Hx. rewrite elem_of_cons. intros [->|Hs]; [done|].
  by apply (Hnew x); [right|].
Qed.

(** The loop of [UniqStrings] appends the first occurrences of the keys that
    the map does not hold. *)
Lemma foldl_uniqStep ss :
  forall out m,
    uniqInv (out, m) ->
    fst (foldl uniqStep (out, m) ss) = (out ++ firstOccurrences out ss)%list.
Proof.
  induction ss as [|key rest IH]; intros out m Hinv; simpl.
  - by rewrite app_nil_r.
  - destruct (default false (m !! key)) eqn:Hkey.
    + rewrite decide_True by (by apply (Hinv key)). by apply IH.
    + rewrite decide_False by (intros Hin; apply (Hinv key) in Hin; simpl in Hin; congruence).
      rewrite IH.
      * rewrite <- app_assoc. simpl. do 2 f_equal.
        apply firstOccurrences_ext. intros k.
        rewrite elem_of_app, !elem_of_cons, elem_of_nil. tauto.
      * intros k. simpl. rewrite lookup_insert, elem_of_app, list_elem_of_singleton.
        destruct (decide (key = k)) as [->|Hne]; simpl; [tauto|].
        rewrite (Hinv k). simpl. split; [tauto|]. intros [H|H]; [done|congruence].
Qed.

Lemma UniqStrings_firstOccurrences ss : UniqStrings ss = firstOccurrences [] ss.
Proof.
  unfold UniqStrings. rewrite foldl_uniqStep; [done|].
  intros k. simpl. rewrite lookup_empty, elem_of_nil. simpl. split; [discriminate|tauto].
Qed.

(** X1.  [UniqStrings] returns a list without repetitions that holds
    exactly the strings of its argument, in the order of the argument. *)
Theorem UniqStrings_uniq (ss : list string) :
  NoDup (UniqStrings ss)
  /\ (forall x, x ∈ UniqStrings ss <-> x ∈ ss)
  /\ UniqStrings ss `sublist_of` ss.
Proof.
  rewrite UniqStrings_firstOccurrences. split; [|split].
  - apply firstOccurrences_NoDup.
  - intros x. rewrite firstOccurrences_elem, elem_of_nil. tauto.
  - apply firstOccurrences_sublist.
Qed.

(** X2.  [UniqStrings] keeps every string at its first occurrence and drops
    its later occurrences; a list without repetitions is returned as it is,
    so applying [UniqStrings] twice is the same as applying it once. *)
Theorem UniqStrings_first (ss : list string) :
  (forall x, UniqStrings (x :: ss) = x :: UniqStrings (filter (fun y => y <> x) ss))
  /\ (NoDup ss -> UniqStrings ss = ss)
  /\ UniqStrings (UniqStrings ss) = UniqStrings ss.
Proof.
  split; [|split].
  - intros x. rewrite !UniqStrings_firstOccurrences.
    cbn [firstOccurrences]. destruct (decide (x ∈ [])) as [Hin|_].
    + by apply elem_of_nil in Hin.
    + by rewrite firstOccurrences_filter.
  - intros Hnd. rewrite UniqStrings_firstOccurrences.
    apply firstOccurrences_fixed; [done|]. intros x _. apply not_elem_of_nil.
  - rewrite !UniqStrings_firstOccurrences.
    apply firstOccurrences_fixed; [apply firstOccurrences_NoDup|].
    intros x _. apply not_elem_of_nil.
Qed.

(** The theorem for a list of watch paths with repetitions. *)
Lemma UniqStrings_first_witness :
  UniqStrings ["."; "src"; "."; "src"; "doc"] = ["."; "src"; "doc"]
  /\ UniqStrings ["."; "src"; "doc"] = ["."; "src"; "doc"].
Proof.
  split.
  - reflexivity.
  - destruct (UniqStrings_first ["."; "src"; "doc"]) as (_ & Hfixed & _).
    apply Hfixed. apply (bool_decide_unpack _). by vm_compute.
Defined.

(** ** The signal table, whatever order [init] ranges in *)

Lemma nameOrNumber_values k v : nameOrNumber k = Some v -> v ∈ signalValues.
Proof.
  unfold nameOrNumber. destruct (signalMaps_literal !! k) as [v'|] eqn:Hlit.
  - intros H. inversion H; subst. by eapply signalMaps_literal_inv.
  - destruct (list_find _ _) as [[i v']|] eqn:Hfind; simpl; [|discriminate].
    intros H. inversion H; subst.
    apply list_find_Some in Hfind as (Hi & _ & _).
    by eapply list_elem_of_lookup_2.
Qed.

Lemma signalOf_values_upto n :
  forall k v, (String.length k <= n)%nat -> signalOf k = Some v -> v ∈ signalValues.
Proof.
  induction n as [|n IH]; intros k v Hlen H.
  - destruct k; [|simpl in Hlen; lia]. by apply nameOrNumber_values in H.
  - destruct k as [|c1 [|c2 [|c3 rest]]]; try (by apply nameOrNumber_values in H).
    simpl in H. destruct (decide _) in H; [|by apply nameOrNumber_values in H].
    apply (IH rest); [simpl in Hlen; lia|done].
Qed.

Lemma signalOf_values k v : signalOf k = Some v -> v ∈ signalValues.
Proof. by apply (signalOf_values_upto (String.length k)). Qed.

Lemma signalOf_pretty v : v ∈ signalValues -> signalOf (pretty v) = Some v.
Proof.
  unfold signalValues. rewrite !elem_of_cons, elem_of_nil.
  intros [->|[->|[->|[->|[->|[->|[]]]]]]]; vm_compute; reflexivity.
Qed.

Lemma signalOf_SIG key : signalOf ("SIG" +:+ key) = signalOf key.
Proof. reflexivity. Qed.

Lemma initStep_consistent m key : tableConsistent m -> tableConsistent (initStep m key).
Proof.
  intros [Hcons Hlit]. unfold initStep.
  destruct (m !! key) as [val|] eqn:Hkey; [|done].
  assert (Hval : signalOf key = Some val) by by apply Hcons.
  assert (Hnew : forall k v,
             <[pretty val := val]> (<["SIG" +:+ key := val]> m) !! k = Some v ->
             signalOf k = Some v).
  { intros k v. rewrite lookup_insert. case_decide as H1.
    - intros H. inversion H; subst. by apply signalOf_pretty, (signalOf_values key).
    - rewrite lookup_insert. case_decide as H2.
      + intros H. inversion H; subst. by rewrite signalOf_SIG.
      + apply Hcons. }
  split; [done|].
  intros k v Hkv. specialize (Hlit k v Hkv).
  destruct (<[pretty val := val]> (<["SIG" +:+ key := val]> m) !! k) as [v'|] eqn:Hk.
  - apply Hnew in Hk. apply Hcons in Hlit. congruence.
  - rewrite lookup_insert in Hk. case_decide; [discriminate|].
    rewrite lookup_insert in Hk. case_decide; [discriminate|]. congruence.
Qed.

(** An entry of a consistent table keeps its value through the loop. *)
Lemma initStep_keeps m key k v :
  tableConsistent m -> m !! k = Some v -> initStep m key !! k = Some v.
Proof.
  intros Hm Hk. pose proof (initStep_consistent m key Hm) as [Hcons' _].
  destruct Hm as [Hcons _]. unfold initStep in *.
  destruct (m !! key) as [val|] eqn:Hkey; [|done].
  destruct (<[pretty val := val]> (<["SIG" +:+ key := val]> m) !! k) as [v'|] eqn:Hk'.
  - apply Hcons' in Hk'. apply Hcons in Hk. congruence.
  - rewrite lookup_insert in Hk'. case_decide; [discriminate|].
    rewrite lookup_insert in Hk'. case_decide; [discriminate|]. congruence.
Qed.

Lemma foldl_initStep_consistent visited m :
  tableConsistent m -> tableConsistent (foldl initStep m visited).
Proof.
  revert m. induction visited as [|key rest IH]; intros m Hm; simpl; [done|].
  by apply IH, initStep_consistent.
Qed.

Lemma foldl_initStep_keeps visited m k v :
  tableConsistent m -> m !! k = Some v -> foldl initStep m visited !! k = Some v.
Proof.
  revert m. induction visited as [|key rest IH]; intros m Hm Hk; simpl; [done|].
  apply IH; [by apply initStep_consistent | by apply initStep_keeps].
Qed.

(** Visiting a key adds its two other spellings. *)
Lemma foldl_initStep_visited visited m key val :
  tableConsistent m -> m !! key = Some val -> key ∈ visited ->
  foldl initStep m visited !! ("SIG" +:+ key) = Some val
  /\ foldl initStep m visited !! pretty val = Some val.
Proof.
  revert m. induction visited as [|key' rest IH]; intros m Hm Hkey Hin.
  - by apply elem_of_nil in Hin.
  - simpl. destruct (decide (key' = key)) as [->|Hne].
    + pose proof (initStep_consistent m key Hm) as Hm'.
      split; apply foldl_initStep_keeps; try done; unfold initStep; rewrite Hkey.
      * rewrite lookup_insert. case_decide; [done|]. apply lookup_insert_eq.
      * apply lookup_insert_eq.
    + apply elem_of_cons in Hin as [Hin|Hin]; [congruence|].
      apply IH; [by apply initStep_consistent | by apply initStep_keeps | done].
Qed.

Lemma signalMaps_literal_consistent : tableConsistent signalMaps_literal.
Proof.
  split.
  - intros k v H. apply elem_of_list_to_map_2 in H.
    rewrite !elem_of_cons, elem_of_nil in H.
    destruct H as [H|[H|[H|[H|[H|[H|[]]]]]]]; inversion H; subst; reflexivity.
  - intros k v H. unfold literalEntries in H.
    rewrite !elem_of_cons, elem_of_nil in H.
    destruct H as [H|[H|[H|[H|[H|[H|[]]]]]]]; inversion H; subst; reflexivity.
Qed.

(** X3.  Whatever order the loop of [init] ranges over the table in, and
    whether or not it also visits entries it has just added, every signal of
    the literal can afterwards be named by its name, by its name with a
    ["SIG"] prefix and by its number, and no key of the table stands for
    another signal than the one it maps to. *)
Theorem initSignalMaps_names (visited : list string) :
  literalKeys ⊆ visited ->
  (forall name v, (name, v) ∈ literalEntries ->
     initSignalMaps visited !! name = Some v
     /\ initSignalMaps visited !! ("SIG" +:+ name) = Some v
     /\ initSignalMaps visited !! pretty v = Some v)
  /\ (forall k v, initSignalMaps visited !! k = Some v -> signalOf k = Some v).
Proof.
  intros Hall. pose proof signalMaps_literal_consistent as Hlit. split.
  - intros name v Hentry. unfold initSignalMaps.
    assert (Hname : signalMaps_literal !! name = Some v) by by apply Hlit.
    assert (Hvis : name ∈ visited).
    { apply Hall. change literalKeys with (literalEntries.*1).
      apply list_elem_of_fmap. by exists (name, v). }
    split; [by apply foldl_initStep_keeps|].
    by apply foldl_initStep_visited.
  - by apply foldl_initStep_consistent.
Qed.

(** The theorem for a loop that visits the six keys of the literal and, of
    the keys it added, ["SIGINT"]. *)
Lemma initSignalMaps_names_witness :
  initSignalMaps (literalKeys ++ ["SIGINT"]) !! "SIGTERM" = Some SIGTERM
  /\ initSignalMaps (literalKeys ++ ["SIGINT"]) !! "9" = Some SIGKILL
  /\ signalOf "SIGSIGINT" = Some SIGINT.
Proof.
  destruct (initSignalMaps_names (literalKeys ++ ["SIGINT"])) as [Hnames Hcons].
  { intros k Hk. apply elem_of_app. by left. }
  split; [|split].
  - apply (Hnames "TERM" SIGTERM). apply (bool_decide_unpack _). by vm_compute.
  - apply (Hnames "KILL" SIGKILL). apply (bool_decide_unpack _). by vm_compute.
  - apply Hcons. vm_compute. reflexivity.
Defined.

(** ** More on configuration fix-up *)

Lemma parseElems_range fuel orig :
  forall d s d',
    0 <= d <= 2 ^ 63 ->
    parseElems fuel orig d s = Some (d', None) ->
    0 <= d' <= 2 ^ 63.
Proof.
  induction fuel as [|fuel IH]; intros d s d' Hd; [discriminate|].
  destruct s as [|c s0]; [simpl; intros H; by inversion H; subst|].
  set (s := String c s0) in *.
  unfold parseElems; fold parseElems. unfold s at 1.
  destruct (negb ((byte_val c =? 46) || isDigit c)); [discriminate|].
  destruct (leadingInt s) as [[v s1]|]; [|discriminate].
  destruct (match s1 with
            | String c1 s1' => _
            | EmptyString => _
            end) as [[[f scale] s2] post].
  destruct (negb (negb (String.length s =? String.length s1)%nat) && negb post);
    [discriminate|].
  destruct (spanUnit s2) as [u s3].
  destruct (decide (u = "")); [discriminate|].
  destruct (unitMap !! u) as [unit|]; [|discriminate].
  destruct (v >? 2 ^ 63 / unit); [discriminate|].
  match goal with |- context [(f >? 0) && ?b] => destruct ((f >? 0) && b) end;
    [discriminate|].
  match goal with |- context [u64 (d + ?v2) >? 2 ^ 63] =>
    destruct (u64 (d + v2) >? 2 ^ 63) eqn:Hover; [discriminate|];
    apply IH; split; [apply Z.mod_pos_bound; lia|];
    rewrite Z.gtb_ltb in Hover; by apply Z.ltb_ge in Hover
  end.
Qed.

(** A parsed duration fits an [int64], and is negative only for a string
    with a minus sign in front. *)
Lemma ParseDuration_range orig d :
  ParseDuration orig = (d, None) ->
  minDuration <= d <= maxDuration
  /\ (d < 0 -> exists rest, orig = String (ascii_of_N 45) rest).
Proof.
  unfold ParseDuration, minDuration, maxDuration.
  set (sign := match orig with
               | String c rest =>
                   if (byte_val c =? 45) || (byte_val c =? 43)
                   then (byte_val c =? 45, rest) else (false, orig)
               | EmptyString => (false, orig)
               end).
  assert (Hsign : fst sign = true -> exists rest, orig = String (ascii_of_N 45) rest).
  { subst sign. destruct orig as [|c rest]; [discriminate|].
    destruct ((byte_val c =? 45) || (byte_val c =? 43)); [|discriminate].
    simpl. intros Hc. exists rest.
    apply Z.eqb_eq in Hc. unfold byte_val in Hc.
    change 45 with (Z.of_N 45) in Hc. apply N2Z.inj in Hc.
    by rewrite <- (ascii_N_embedding c), Hc. }
  destruct sign as [neg s]. simpl in Hsign.
  destruct (decide (s = "0")); [intros H; inversion H; subst; split; lia|].
  destruct (decide (s = "")); [discriminate|].
  destruct (parseElems _ _ _ _) as [[d0 [e|]]|] eqn:Hparse; try discriminate.
  apply parseElems_range in Hparse; [|lia].
  destruct neg.
  - intros H. inversion H; subst. split; [lia|]. intros _. by apply Hsign.
  - destruct (d0 >? 2 ^ 63 - 1) eqn:Hmax; [discriminate|].
    rewrite Z.gtb_ltb in Hmax. apply Z.ltb_ge in Hmax.
    intros H. inversion H; subst. split; lia.
Qed.

Section MoreFixConfigProofs.

Variable signalMaps : gmap string Z.
Variable ReadIgnore : string -> list string * option GoError.

Lemma fixTrigger_fixable tg :
  snd (fixTrigger signalMaps ReadIgnore tg) = None <-> fixable ReadIgnore tg.
Proof.
  unfold fixTrigger, fixable, defaulted.
  destruct (decide (Delay tg = "")) as [Hd|Hd];
    (cbn [Delay set_Delay];
     destruct (ParseDuration _) as [d [e|]]; simpl; [split; [discriminate|by intros [? _]]|];
     destruct (decide (Signal tg = "")) as [Hs|Hs]; simpl;
     (destruct (ReadIgnore _) as [pats [e|]]; simpl;
      [split; [discriminate|by intros [_ ?]] | done])).
Qed.

Lemma fixTriggers_fixable tgs :
  snd (fixTriggers signalMaps ReadIgnore tgs) = None <-> Forall (fixable ReadIgnore) tgs.
Proof.
  induction tgs as [|tg tgs IH]; simpl.
  - split; [constructor|done].
  - rewrite Forall_cons, <- IH, <- fixTrigger_fixable.
    destruct (fixTrigger signalMaps ReadIgnore tg) as [outTg [e|]]; simpl.
    + split; [discriminate|by intros [? _]].
    + destruct (fixTriggers signalMaps ReadIgnore tgs) as [rest err]. simpl. tauto.
Qed.

Lemma fixTrigger_same tin :
  sameGivenFields tin (fst (fixTrigger signalMaps ReadIgnore tin)).
Proof.
  unfold fixTrigger, sameGivenFields.
  destruct (decide (Delay tin = "")) as [Hd|Hd];
    (destruct (ParseDuration _) as [d [e|]]; simpl; [done|];
     destruct (decide (Signal tin = "")) as [Hs|Hs]; simpl;
     destruct (ReadIgnore _) as [pats [e|]]; simpl; done).
Qed.

Lemma fixTriggers_same tins :
  Forall2 sameGivenFields tins (fst (fixTriggers signalMaps ReadIgnore tins)).
Proof.
  induction tins as [|tin tins IH]; simpl; [constructor|].
  pose proof (fixTrigger_same tin) as Hsame.
  destruct (fixTrigger signalMaps ReadIgnore tin) as [outTg [e|]]; simpl in *.
  - constructor; [done|]. apply Forall2_same_length_lookup. split; [done|].
    intros i x y Hx Hy. rewrite Hx in Hy. inversion Hy; subst. by repeat split.
  - destruct (fixTriggers signalMaps ReadIgnore tins) as [rest err]. by constructor.
Qed.

Lemma defaulted_nonempty v dflt : dflt <> "" -> defaulted v dflt <> "".
Proof. unfold defaulted. by destruct (decide (v = "")). Qed.

(** What a trigger looks like after fix-up succeeded on it. *)
Lemma fixTrigger_success tin tout :
  fixTrigger signalMaps ReadIgnore tin = (tout, None) ->
  exists d ps,
    ParseDuration (defaulted (Delay tin) "100ms") = (d, None)
    /\ ReadIgnore (strings_Join (Pattens tin) (String newline "")) = (ps, None)
    /\ tout = mkTriggerEvent (Name tin) (Pattens tin) ps (Environ tin) (Command tin)
                (defaulted (Delay tin) "100ms") d (defaulted (Signal tin) "HUP")
                (signalMaps !! defaulted (Signal tin) "HUP") (kcmd tin).
Proof.
  destruct tin as [nm pats mp env cmd dl dd sg ks kc].
  unfold fixTrigger, defaulted. simpl.
  destruct (decide (dl = "")) as [Hd|Hd]; simpl;
    (destruct (ParseDuration _) as [d [e|]] eqn:Hparse; [discriminate|];
     destruct (decide (sg = "")) as [Hs|Hs]; simpl;
     (destruct (ReadIgnore _) as [ps [e|]] eqn:Hread; [discriminate|];
      intros H; inversion H; subst tout; clear H;
      exists d, ps; repeat split; done)).
Qed.

Lemma fixTrigger_again tin tout :
  fixTrigger signalMaps ReadIgnore tin = (tout, None) ->
  fixTrigger signalMaps ReadIgnore tout = (tout, None).
Proof.
  intros H. destruct (fixTrigger_success _ _ H) as (d & ps & Hparse & Hread & ->).
  pose proof (defaulted_nonempty (Delay tin) "100ms") as Hd.
  pose proof (defaulted_nonempty (Signal tin) "HUP") as Hs.
  unfold fixTrigger. simpl.
  destruct (decide (defaulted (Delay tin) "100ms" = "")) as [Hd'|_];
    [by apply Hd in Hd'|].
  simpl. rewrite Hparse. simpl.
  destruct (decide (defaulted (Signal tin) "HUP" = "")) as [Hs'|_];
    [by apply Hs in Hs'|].
  simpl. by rewrite Hread.
Qed.

Lemma fixTriggers_again tins touts :
  fixTriggers signalMaps ReadIgnore tins = (touts, None) ->
  fixTriggers signalMaps ReadIgnore touts = (touts, None).
Proof.
  revert touts. induction tins as [|tin tins IH]; intros touts H; simpl in H.
  - by inversion H.
  - destruct (fixTrigger signalMaps ReadIgnore tin) as [tout [e|]] eqn:Htg; [discriminate|].
    destruct (fixTriggers signalMaps ReadIgnore tins) as [rest err] eqn:Hrest.
    inversion H; subst. simpl.
    by rewrite (fixTrigger_again _ _ Htg), (IH rest eq_refl).
Qed.

(** When the loop fails, it fails at one trigger: the triggers before it are
    fixed and the triggers after it are as they were. *)
Lemma fixTriggers_failure tins touts e :
  fixTriggers signalMaps ReadIgnore tins = (touts, Some e) ->
  exists before tin after before' tout,
    tins = (before ++ tin :: after)%list
    /\ touts = (before' ++ tout :: after)%list
    /\ Forall2 (fixedFrom signalMaps) before before'
    /\ fixTrigger signalMaps ReadIgnore tin = (tout, Some e).
Proof.
  revert touts. induction tins as [|tin tins IH]; intros touts H; simpl in H;
    [discriminate|].
  destruct (fixTrigger signalMaps ReadIgnore tin) as [tout [e'|]] eqn:Htg.
  - inversion H; subst. exists [], tin, tins, [], tout. repeat split; [constructor|done].
  - destruct (fixTriggers signalMaps ReadIgnore tins) as [rest err] eqn:Hrest.
    inversion H; subst.
    destruct (IH rest eq_refl) as (before & t & after & before' & t' & -> & -> & Hfix & Ht).
    exists (tin :: before), t, after, (tout :: before'), t'.
    repeat split; try done. constructor; [|done].
    by apply (fixTrigger_ok signalMaps ReadIgnore).
Qed.

End MoreFixConfigProofs.

(** X4.  Fix-up fails exactly when some trigger has a delay string that,
    defaulted, is no duration, or a pattern list that cannot be read; neither
    the signal table nor any signal name has a part in it. *)
Theorem fixFWConfig_fails_iff
    (signalMaps : gmap string Z) (ReadIgnore : string -> list string * option GoError)
    (inp : FWConfig) :
  snd (fixFWConfig signalMaps ReadIgnore inp) = None
  <-> Forall (fixable ReadIgnore) (Triggers inp).
Proof.
  rewrite <- (fixTriggers_fixable signalMaps). unfold fixFWConfig.
  by destruct (fixTriggers signalMaps ReadIgnore (Triggers inp)) as [tgs [e|]].
Qed.

(** X5.  Fix-up is idempotent: a configuration it returned without error is
    returned unchanged, again without error, when fixed a second time. *)
Theorem fixFWConfig_idempotent
    (signalMaps : gmap string Z) (ReadIgnore : string -> list string * option GoError)
    (inp out : FWConfig) :
  fixFWConfig signalMaps ReadIgnore inp = (out, None) ->
  fixFWConfig signalMaps ReadIgnore out = (out, None).
Proof.
  unfold fixFWConfig.
  destruct (fixTriggers signalMaps ReadIgnore (Triggers inp)) as [tgs [e|]] eqn:Htgs;
    [discriminate|].
  intros H. inversion H; subst out; clear H. simpl.
  rewrite (fixTriggers_again _ _ _ _ Htgs). do 2 f_equal.
  - destruct (decide (length (WatchPaths inp) = 0%nat)) as [Hlen|Hlen].
    + rewrite decide_False; [done|]. rewrite length_app. simpl. lia.
    + by rewrite decide_False.
  - destruct (decide (WatchDepth inp = 0)) as [Hz|Hz].
    + by rewrite decide_False.
    + by rewrite decide_False.
Qed.

(** The theorem for the configuration [genFWConfig] produces. *)
Lemma fixFWConfig_idempotent_witness :
  fixFWConfig (initSignalMaps literalKeys) dockerignore_ReadIgnore
    (fst (fixFWConfig (initSignalMaps literalKeys) dockerignore_ReadIgnore
            (mkFWConfig "" [generatedTrigger] [] 0)))
  = (fst (fixFWConfig (initSignalMaps literalKeys) dockerignore_ReadIgnore
            (mkFWConfig "" [generatedTrigger] [] 0)), None).
Proof.
  apply (fixFWConfig_idempotent (initSignalMaps literalKeys) dockerignore_ReadIgnore
           (mkFWConfig "" [generatedTrigger] [] 0)).
  vm_compute. reflexivity.
Defined.

(** X6.  Fix-up never changes the description, nor the name, patterns,
    environment or command of any trigger, whether it fails or not.  When it
    succeeds, empty watch paths become [["."]] and a watch depth of 0 becomes
    5, and other values are kept; when it fails, the watch paths and depth are
    returned as they were given. *)
Theorem fixFWConfig_keeps_given
    (signalMaps : gmap string Z) (ReadIgnore : string -> list string * option GoError)
    (inp : FWConfig) :
  Description (fst (fixFWConfig signalMaps ReadIgnore inp)) = Description inp
  /\ Forall2 sameGivenFields (Triggers inp)
       (Triggers (fst (fixFWConfig signalMaps ReadIgnore inp)))
  /\ (snd (fixFWConfig signalMaps ReadIgnore inp) = None ->
        WatchPaths (fst (fixFWConfig signalMaps ReadIgnore inp))
        = (if decide (WatchPaths inp = []) then ["."] else WatchPaths inp)
        /\ WatchDepth (fst (fixFWConfig signalMaps ReadIgnore inp))
           = (if decide (WatchDepth inp = 0) then 5 else WatchDepth inp))
  /\ (snd (fixFWConfig signalMaps ReadIgnore inp) <> None ->
        WatchPaths (fst (fixFWConfig signalMaps ReadIgnore inp)) = WatchPaths inp
        /\ WatchDepth (fst (fixFWConfig signalMaps ReadIgnore inp)) = WatchDepth inp).
Proof.
  pose proof (fixTriggers_same signalMaps ReadIgnore (Triggers inp)) as Hsame.
  unfold fixFWConfig.
  destruct (fixTriggers signalMaps ReadIgnore (Triggers inp)) as [tgs [e|]]; simpl in *.
  - repeat split; try done.
  - repeat split; try done.
    destruct (WatchPaths inp) as [|p ps]; simpl; [done|].
    first [done | by destruct (decide (p :: ps = []))].
Qed.

(** The theorem for a configuration without watch paths and depth. *)
Lemma fixFWConfig_keeps_given_witness :
  WatchPaths (fst (fixFWConfig (initSignalMaps literalKeys) dockerignore_ReadIgnore
                     (mkFWConfig "" [generatedTrigger] [] 0))) = ["."]
  /\ WatchDepth (fst (fixFWConfig (initSignalMaps literalKeys) dockerignore_ReadIgnore
                        (mkFWConfig "" [generatedTrigger] [] 0))) = 5.
Proof.
  destruct (fixFWConfig_keeps_given (initSignalMaps literalKeys) dockerignore_ReadIgnore
              (mkFWConfig "" [generatedTrigger] [] 0)) as (_ & _ & Hok & _).
  apply Hok. vm_compute. reflexivity.
Defined.

(** X7.  When fix-up fails, the error is that of one trigger: the triggers
    before it are returned fixed, the triggers after it are returned as they
    were given, and the failing trigger is returned as its own fix-up left
    it. *)
Theorem fixFWConfig_failure
    (signalMaps : gmap string Z) (ReadIgnore : string -> list string * option GoError)
    (inp out : FWConfig) (e : GoError) :
  fixFWConfig signalMaps ReadIgnore inp = (out, Some e) ->
  exists before tin after before' tout,
    Triggers inp = (before ++ tin :: after)%list
    /\ Triggers out = (before' ++ tout :: after)%list
    /\ Forall2 (fixedFrom signalMaps) before before'
    /\ fixTrigger signalMaps ReadIgnore tin = (tout, Some e).
Proof.
  unfold fixFWConfig.
  destruct (fixTriggers signalMaps ReadIgnore (Triggers inp)) as [tgs [e'|]] eqn:Htgs;
    [|destruct (decide _); discriminate].
  intros H. inversion H; subst; clear H. simpl.
  by apply fixTriggers_failure.
Qed.

(** The theorem for three triggers of which the second has the delay
    ["soon"]. *)
Lemma fixFWConfig_failure_witness :
  exists before tin after before' tout,
    [generatedTrigger; triggerOf "t" ["*.go"] ∅ "make" "soon" ""; oddTrigger]
    = (before ++ tin :: after)%list
    /\ Triggers (fst (fixFWConfig (initSignalMaps literalKeys) dockerignore_ReadIgnore
                        (mkFWConfig ""
                           [generatedTrigger; triggerOf "t" ["*.go"] ∅ "make" "soon" "";
                            oddTrigger] [] 0)))
       = (before' ++ tout :: after)%list
    /\ Forall2 (fixedFrom (initSignalMaps literalKeys)) before before'
    /\ fixTrigger (initSignalMaps literalKeys) dockerignore_ReadIgnore tin
       = (tout, Some (ErrInvalidDuration "soon")).
Proof.
  apply (fixFWConfig_failure (initSignalMaps literalKeys) dockerignore_ReadIgnore
           (mkFWConfig ""
              [generatedTrigger; triggerOf "t" ["*.go"] ∅ "make" "soon" ""; oddTrigger]
              [] 0)).
  vm_compute. reflexivity.
Defined.

(** X8.  In a configuration that fix-up returned without error, every
    trigger's delay fits a [Duration], is negative only when its delay string
    starts with a minus sign, and is 100 ms when the delay string was left
    empty. *)
Theorem fixFWConfig_delay_range
    (signalMaps : gmap string Z) (ReadIgnore : string -> list string * option GoError)
    (inp out : FWConfig) :
  fixFWConfig signalMaps ReadIgnore inp = (out, None) ->
  Forall2 (fun tin tout =>
             minDuration <= delayDuration tout <= maxDuration
             /\ (delayDuration tout < 0 ->
                 exists rest, Delay tin = String (ascii_of_N 45) rest)
             /\ (Delay tin = "" -> delayDuration tout = 100 * Millisecond))
    (Triggers inp) (Triggers out).
Proof.
  unfold fixFWConfig.
  destruct (fixTriggers signalMaps ReadIgnore (Triggers inp)) as [tgs [e|]] eqn:Htgs;
    [discriminate|].
  intros H. inversion H; subst out; clear H. simpl.
  apply fixTriggers_ok in Htgs.
  eapply Forall2_impl; [exact Htgs|].
  intros tin tout (Hdelay & Hparse & _). rewrite Hdelay in Hparse.
  destruct (ParseDuration_range _ _ Hparse) as [Hrange Hneg].
  unfold defaulted in *. destruct (decide (Delay tin = "")) as [Hempty|Hfull].
  - assert (Hd : delayDuration tout = 100 * Millisecond).
    { assert (Hc : ParseDuration "100ms" = (100 * Millisecond, None))
        by (vm_compute; reflexivity).
      congruence. }
    repeat split; try tauto.
    rewrite Hd. unfold Millisecond, Microsecond, Nanosecond. lia.
  - repeat split; try tauto.
Qed.

(** The theorem for the trigger [genFWConfig] writes and for one with a
    negative delay. *)
Lemma fixFWConfig_delay_range_witness :
  Forall2 (fun tin tout =>
             minDuration <= delayDuration tout <= maxDuration
             /\ (delayDuration tout < 0 ->
                 exists rest, Delay tin = String (ascii_of_N 45) rest)
             /\ (Delay tin = "" -> delayDuration tout = 100 * Millisecond))
    [generatedTrigger; oddTrigger]
    (Triggers (fst (fixFWConfig (initSignalMaps literalKeys) dockerignore_ReadIgnore
                      (mkFWConfig "" [generatedTrigger; oddTrigger] [] 0)))).
Proof.
  apply (fixFWConfig_delay_range (initSignalMaps literalKeys) dockerignore_ReadIgnore
           (mkFWConfig "" [generatedTrigger; oddTrigger] [] 0)).
  vm_compute. reflexivity.
Defined.

(** ** More on the directory walk *)

Lemma ListAllDir_kept path root depth :
  ListAllDir path root depth
  = (keptDirs (countSeps path) depth (allDirs path (os_basename path) root []), None).
Proof.
  unfold ListAllDir, filepath_Walk.
  rewrite (walk_listDirFn (countSeps path) depth root path (os_basename path) [] [])
    by done.
  by destruct (isDirNode root && negb _).
Qed.

Lemma admissible_mono base depth depth' d :
  depth <= depth' -> admissible base depth d = true -> admissible base depth' d = true.
Proof.
  intros Hle. unfold admissible, withinDepth. rewrite !andb_true_iff, !Z.leb_le.
  intros [Hvis Hdep]. split; [done|lia].
Qed.

Lemma sublist_map {A B} (f : A -> B) (l k : list A) :
  l `sublist_of` k -> map f l `sublist_of` map f k.
Proof.
  induction 1; simpl; [constructor | by apply sublist_skip | by apply sublist_cons].
Qed.

Lemma keptDirs_mono base depth depth' l :
  depth <= depth' -> keptDirs base depth l `sublist_of` keptDirs base depth' l.
Proof.
  intros Hle. unfold keptDirs. apply sublist_map.
  induction l as [|d l IH]; [done|].
  destruct (decide (allAdmissible base depth (snd d) = true)) as [Hok|Hno].
  - rewrite !filter_cons_True; [by apply sublist_skip| |done].
    unfold allAdmissible in *. rewrite forallb_forall in *.
    intros x Hx. eapply admissible_mono; [exact Hle|by apply Hok].
  - rewrite (filter_cons_False (fun d => allAdmissible base depth (snd d) = true)) by done.
    destruct (decide (allAdmissible base depth' (snd d) = true)).
    + rewrite filter_cons_True by done. by apply sublist_cons.
    + by rewrite filter_cons_False.
Qed.

(** X9.  Raising the maximum depth never loses a directory: the enumeration
    for a smaller depth is a sublist of the enumeration for a larger one. *)
Theorem ListAllDir_depth_mono (path : string) (root : Node) (depth depth' : Z) :
  depth <= depth' ->
  fst (ListAllDir path root depth) `sublist_of` fst (ListAllDir path root depth').
Proof.
  intros Hle. rewrite !ListAllDir_kept. simpl. by apply keptDirs_mono.
Qed.

(** The theorem for the sample tree at the depths 0 and 1. *)
Lemma ListAllDir_depth_mono_witness :
  fst (ListAllDir "." sampleTree 0) `sublist_of` fst (ListAllDir "." sampleTree 1).
Proof.
  apply (ListAllDir_depth_mono "." sampleTree 0 1). lia.
Defined.

Lemma root_admissible path depth :
  admissible (countSeps path) depth (os_basename path, path)
  = negb (hiddenName (os_basename path)) && (0 <=? depth).
Proof. unfold admissible, withinDepth. simpl. by rewrite Z.sub_diag. Qed.

(** X10.  The enumeration is empty for a root that is not a directory, for a
    negative depth, and for a root whose own name is hidden; for any other
    root it starts with the root path as it was given. *)
Theorem ListAllDir_root (path : string) (root : Node) (depth : Z) :
  (root = File -> ListAllDir path root depth = ([], None))
  /\ (depth < 0 -> ListAllDir path root depth = ([], None))
  /\ (hiddenName (os_basename path) = true -> ListAllDir path root depth = ([], None))
  /\ (isDirNode root = true -> 0 <= depth -> hiddenName (os_basename path) = false ->
        exists rest, ListAllDir path root depth = (path :: rest, None)).
Proof.
  rewrite ListAllDir_kept. repeat split.
  - by intros ->.
  - intros Hneg. rewrite keptDirs_inadmissible; [done|].
    rewrite root_admissible. rewrite (proj2 (Z.leb_gt 0 depth)) by lia.
    apply andb_false_r.
  - intros Hhid. rewrite keptDirs_inadmissible; [done|].
    by rewrite root_admissible, Hhid.
  - intros Hdir Hpos Hvis. destruct root as [|entries]; [discriminate|].
    rewrite allDirs_Dir. unfold keptDirs. rewrite filter_cons_True.
    + simpl. by eexists.
    + simpl. unfold allAdmissible. simpl. rewrite root_admissible, Hvis.
      by rewrite (proj2 (Z.leb_le 0 depth)).
Qed.

(** The theorem for the sample tree: the root [".."] has a hidden name, the
    root ["src"] has not. *)
Lemma ListAllDir_root_witness :
  ListAllDir ".." sampleTree 5 = ([], None)
  /\ ListAllDir "src" sampleTree (-1) = ([], None)
  /\ (exists rest, ListAllDir "src" sampleTree 5 = ("src" :: rest, None)).
Proof.
  destruct (ListAllDir_root ".." sampleTree 5) as (_ & _ & Hhid & _).
  destruct (ListAllDir_root "src" sampleTree (-1)) as (_ & Hneg & _).
  destruct (ListAllDir_root "src" sampleTree 5) as (_ & _ & _ & Hfirst).
  split; [|split].
  - apply Hhid. reflexivity.
  - apply Hneg. lia.
  - apply Hfirst; [reflexivity|lia|reflexivity].
Defined.

(** ** More on the initial registration *)

Lemma watchDir_visited st dir d :
  visited (fst (watchDir st dir)) d = visited (fst st) d || bool_decide (d = dir).
Proof.
  destruct st as [w adds]. unfold watchDir. simpl.
  destruct (visited w dir) eqn:Hdir; simpl.
  - destruct (bool_decide_reflect (d = dir)) as [->|_];
      [by rewrite Hdir | by rewrite orb_false_r].
  - unfold visited at 1. simpl. rewrite lookup_insert.
    destruct (decide (dir = d)) as [->|Hne]; simpl.
    + by rewrite bool_decide_eq_true_2, orb_true_r.
    + rewrite bool_decide_eq_false_2 by congruence. by rewrite orb_false_r.
Qed.

Lemma foldl_watchDir_visited dirs st d :
  visited (fst (foldl watchDir st dirs)) d = visited (fst st) d || bool_decide (d ∈ dirs).
Proof.
  revert st. induction dirs as [|dir dirs IH]; intros st; cbn [foldl].
  - destruct (bool_decide_reflect (d ∈ [])) as [H|_];
      [by apply elem_of_nil in H | by rewrite orb_false_r].
  - rewrite IH, watchDir_visited, <- orb_assoc. f_equal.
    destruct (bool_decide_reflect (d = dir)) as [->|Hne]; simpl.
    + symmetry. apply bool_decide_eq_true_2. by left.
    + apply bool_decide_ext. rewrite elem_of_cons. tauto.
Qed.

Lemma watchDir_adds st dir d :
  d ∈ snd (watchDir st dir) -> d ∈ snd st \/ d = dir.
Proof.
  destruct st as [w adds]. unfold watchDir. simpl.
  destruct (visited w dir); simpl; [tauto|].
  rewrite elem_of_app, list_elem_of_singleton. tauto.
Qed.

Lemma foldl_watchDir_adds dirs st d :
  d ∈ snd (foldl watchDir st dirs) -> d ∈ snd st \/ d ∈ dirs.
Proof.
  revert st. induction dirs as [|dir dirs IH]; intros st; simpl; [tauto|].
  intros H. apply IH in H as [H|H]; [|right; by right].
  apply watchDir_adds in H as [H| ->]; [by left|right; by left].
Qed.

Section MoreWalking.

Variable lstat : string -> option Node.
Variable depth : Z.

Lemma WatchPathAndChildren_result paths :
  forall st err st' err',
    WatchPathAndChildren lstat paths depth st err = Some (st', err') ->
    err' = err
    /\ (forall d, visited (fst st) d = true -> visited (fst st') d = true)
    /\ (forall p, p ∈ paths -> visited (fst st') p = true)
    /\ (forall d, d ∈ snd st' ->
          d ∈ snd st \/ d ∈ paths
          \/ exists p root, p ∈ paths /\ lstat p = Some root
                            /\ d ∈ fst (ListAllDir p root depth)).
Proof.
  induction paths as [|path paths IH]; intros st err st' err' Hrun; simpl in Hrun.
  - inversion Hrun; subst. repeat split; try done.
    + intros p Hp. by apply elem_of_nil in Hp.
    + by left.
  - destruct (visited (fst st) path) eqn:Hvis.
    + destruct (IH _ _ _ _ Hrun) as (He & Hmono & Hpaths & Hadds).
      repeat split; try done.
      * intros p Hp. apply elem_of_cons in Hp as [->|Hp]; [by apply Hmono|by apply Hpaths].
      * intros d Hd. destruct (Hadds d Hd) as [H|[H|(p & root & Hp & Hl & Hin)]].
        -- by left.
        -- right; left. by right.
        -- right; right. exists p, root. repeat split; try done. by right.
    + destruct (lstat path) as [root|] eqn:Hroot; [|discriminate].
      rewrite ListAllDir_kept in Hrun.
      destruct (IH _ _ _ _ Hrun) as (He & Hmono & Hpaths & Hadds).
      repeat split; try done.
      * intros d Hd. apply Hmono. rewrite foldl_watchDir_visited, watchDir_visited, Hd.
        done.
      * intros p Hp. apply elem_of_cons in Hp as [->|Hp]; [|by apply Hpaths].
        apply Hmono. rewrite foldl_watchDir_visited, watchDir_visited.
        by rewrite bool_decide_eq_true_2, orb_true_r.
      * intros d Hd. destruct (Hadds d Hd) as [H|[H|(p & root' & Hp & Hl & Hin)]].
        -- apply foldl_watchDir_adds in H as [H|H].
           ++ apply watchDir_adds in H as [H| ->]; [by left|]. right; left. by left.
           ++ right; right. exists path, root. rewrite ListAllDir_kept.
              repeat split; try done. by left.
        -- right; left. by right.
        -- right; right. exists p, root'. repeat split; try done. by right.
Qed.

(** The call panics at the first root path that is not visited yet and
    cannot be stat'ed. *)
Lemma WatchPathAndChildren_panics pre p rest :
  forall st err,
    (forall q, q ∈ pre -> visited (fst st) q = true) ->
    visited (fst st) p = false ->
    lstat p = None ->
    WatchPathAndChildren lstat (pre ++ p :: rest) depth st err = None.
Proof.
  induction pre as [|q pre IH]; intros st err Hpre Hp Hstat; cbn [app WatchPathAndChildren].
  - by rewrite Hp, Hstat.
  - rewrite (Hpre q) by (by left). apply IH; [|done..].
    intros q' Hq'. apply Hpre. by right.
Qed.

Lemma WatchPathAndChildren_skip paths :
  forall st err,
    (forall p, p ∈ paths -> visited (fst st) p = true) ->
    WatchPathAndChildren lstat paths depth st err = Some (st, err).
Proof.
  induction paths as [|path paths IH]; intros st err Hall; simpl; [done|].
  rewrite (Hall path) by (by left). apply IH. intros p Hp. apply Hall. by right.
Qed.

End MoreWalking.

(** X11.  When [WatchPathAndChildren] returns, the error it returns is nil
    and every root path is marked visited.  It does not return when, the
    root paths before it being visited already, it comes to a root path that
    is not visited yet and cannot be stat'ed: the closure of [ListAllDir] is
    then handed a nil [FileInfo] and panics. *)
Theorem WatchPathAndChildren_returns (lstat : string -> option Node)
    (paths : list string) (depth : Z) (w0 : World) :
  (forall w' adds err,
     WatchPathAndChildren lstat paths depth (w0, []) None = Some (w', adds, err) ->
     err = None /\ (forall p, p ∈ paths -> visited w' p = true))
  /\ (forall pre p rest,
        paths = (pre ++ p :: rest)%list ->
        (forall q, q ∈ pre -> visited w0 q = true) ->
        visited w0 p = false ->
        lstat p = None ->
        WatchPathAndChildren lstat paths depth (w0, []) None = None).
Proof.
  split.
  - intros w' adds err Hrun.
    destruct (WatchPathAndChildren_result lstat depth paths _ _ _ _ Hrun)
      as (He & _ & Hpaths & _).
    by split.
  - intros pre p rest -> Hpre Hp Hstat.
    by apply WatchPathAndChildren_panics.
Qed.

(** The theorem for a root that does not exist, given after the current
    directory, which is visited already. *)
Lemma WatchPathAndChildren_returns_witness :
  WatchPathAndChildren sampleLstat ["."; "gone"; "."] 1
    (mkWorld ∅ {["." := true]} ∅, []) None = None.
Proof.
  apply (proj2 (WatchPathAndChildren_returns sampleLstat ["."; "gone"; "."] 1
                  (mkWorld ∅ {["." := true]} ∅)) ["."] "gone" ["."]).
  - reflexivity.
  - intros q Hq. apply list_elem_of_singleton in Hq as ->. reflexivity.
  - reflexivity.
  - reflexivity.
Defined.

(** X12.  Registering the same root paths a second time does nothing: no
    watch is added and the state is left as the first registration made it. *)
Theorem WatchPathAndChildren_again (lstat : string -> option Node)
    (paths : list string) (depth : Z) (w0 w' : World) (adds : list string)
    (err : option GoError) :
  WatchPathAndChildren lstat paths depth (w0, []) None = Some (w', adds, err) ->
  WatchPathAndChildren lstat paths depth (w', []) None = Some (w', [], None).
Proof.
  intros Hrun. apply WatchPathAndChildren_skip.
  by destruct (WatchPathAndChildren_result lstat depth paths _ _ _ _ Hrun)
    as (_ & _ & Hpaths & _).
Qed.

(** The theorem for the walk of the sample tree. *)
Lemma WatchPathAndChildren_again_witness :
  WatchPathAndChildren sampleLstat ["."] 1
    (fst (foldl watchDir (emptyWorld, []) ["."; "sub"; "sub/sub2"]), []) None
  = Some (fst (foldl watchDir (emptyWorld, []) ["."; "sub"; "sub/sub2"]), [], None).
Proof.
  apply (WatchPathAndChildren_again sampleLstat ["."] 1 emptyWorld _
           ["."; "sub"; "sub/sub2"] None).
  vm_compute. reflexivity.
Defined.

(** X13.  The initial registration watches nothing but the root paths it
    was given and the directories [ListAllDir] lists below them. *)
Theorem WatchPathAndChildren_only_listed (lstat : string -> option Node)
    (paths : list string) (depth : Z) (w0 w' : World) (adds : list string)
    (err : option GoError) :
  WatchPathAndChildren lstat paths depth (w0, []) None = Some (w', adds, err) ->
  forall d, d ∈ adds ->
    d ∈ paths
    \/ exists p root, p ∈ paths /\ lstat p = Some root
                      /\ d ∈ fst (ListAllDir p root depth).
Proof.
  intros Hrun d Hd.
  destruct (WatchPathAndChildren_result lstat depth paths _ _ _ _ Hrun)
    as (_ & _ & _ & Hadds).
  destruct (Hadds d Hd) as [H|H]; [by apply elem_of_nil in H|done].
Qed.

(** The theorem for the walk of the sample tree: ["sub/sub2"] is watched
    because the walk of ["."] lists it. *)
Lemma WatchPathAndChildren_only_listed_witness :
  "sub/sub2" ∈ ["."]
  \/ exists p root, p ∈ ["."] /\ sampleLstat p = Some root
                    /\ "sub/sub2" ∈ fst (ListAllDir p root 1).
Proof.
  apply (WatchPathAndChildren_only_listed sampleLstat ["."] 1 emptyWorld
           (fst (foldl watchDir (emptyWorld, []) ["."; "sub"; "sub/sub2"]))
           ["."; "sub"; "sub/sub2"] None).
  - vm_compute. reflexivity.
  - apply (bool_decide_unpack _). by vm_compute.
Defined.

(** ** More on the change filter *)

Lemma transformEvent_cons w stat evt rest :
  transformEvent w ((stat, evt) :: rest)
  = (fst (transformEvent (fst (transformStep stat w evt)) rest),
     (snd (transformStep stat w evt)
      ++ snd (transformEvent (fst (transformStep stat w evt)) rest))%list).
Proof.
  cbn [transformEvent]. destruct (transformStep stat w evt) as [w1 sent].
  cbn [fst snd]. by destruct (transformEvent w1 rest) as [w2 sent'].
Qed.

Lemma transformStep_sent stat w evt :
  snd (transformStep stat w evt) = []
  \/ snd (transformStep stat w evt) = [mkFSEvent (ev_Name evt)].
Proof.
  unfold transformStep.
  destruct ((ev_Op evt =? Create) && IsDirectory stat (ev_Name evt)); [by left|].
  destruct (ev_Op evt =? Remove); [by left|].
  destruct (IsChanged _ _ _) as [[|] m]; [by right|by left].
Qed.

(** X14.  The filter forwards nothing but the paths it was notified of: what
    it sends is a sublist of the notifications' paths, in their order, with at
    most one event per notification. *)
Theorem transformEvent_sublist (w : World) (evts : list (Stat * Event)) :
  snd (transformEvent w evts) `sublist_of` namesOf evts.
Proof.
  revert w. induction evts as [|[stat evt] rest IH]; intros w.
  - simpl. constructor.
  - rewrite transformEvent_cons. simpl.
    destruct (transformStep_sent stat w evt) as [-> | ->]; simpl.
    + apply sublist_cons, IH.
    + apply sublist_skip, IH.
Qed.

Lemma IsChanged_stored stat m path p :
  default 0 (m !! p) <= default 0 (snd (IsChanged stat m path) !! p)
  /\ (is_Some (m !! p) -> is_Some (snd (IsChanged stat m path) !! p))
  /\ (is_Some (snd (IsChanged stat m path) !! p) -> is_Some (m !! p) \/ p = path).
Proof.
  unfold IsChanged. destruct (stat path) as [pinfo|]; simpl; [|by repeat split; auto].
  destruct (time_Sub _ _ >? _) eqn:Hsub; simpl; [|by repeat split; auto].
  apply time_Sub_window in Hsub.
  rewrite lookup_insert. destruct (decide (path = p)) as [->|Hne]; simpl.
  - repeat split; [|by eauto|by right].
    unfold Millisecond, Microsecond, Nanosecond in Hsub. lia.
  - repeat split; [lia|done|by left].
Qed.

Lemma transformStep_stored stat w evt p :
  storedTime w p <= storedTime (fst (transformStep stat w evt)) p
  /\ (is_Some (fileModifyTimeMap w !! p) ->
      is_Some (fileModifyTimeMap (fst (transformStep stat w evt)) !! p))
  /\ (is_Some (fileModifyTimeMap (fst (transformStep stat w evt)) !! p) ->
      is_Some (fileModifyTimeMap w !! p) \/ p = ev_Name evt).
Proof.
  unfold storedTime, transformStep.
  destruct ((ev_Op evt =? Create) && IsDirectory stat (ev_Name evt)); simpl;
    [by repeat split; auto; lia|].
  destruct (ev_Op evt =? Remove); simpl.
  - unfold fsw_Remove. destruct (decide _); simpl; by repeat split; auto; lia.
  - pose proof (IsChanged_stored stat (fileModifyTimeMap w) (ev_Name evt) p) as H.
    by destruct (IsChanged _ _ _) as [[|] m].
Qed.

(** X16.  Over any run of notifications the timestamp stored for a path
    never decreases and is never deleted, and timestamps are stored only for
    paths of the run's notifications. *)
Theorem transformEvent_stored (w : World) (evts : list (Stat * Event)) (p : string) :
  storedTime w p <= storedTime (fst (transformEvent w evts)) p
  /\ (is_Some (fileModifyTimeMap w !! p) ->
      is_Some (fileModifyTimeMap (fst (transformEvent w evts)) !! p))
  /\ (is_Some (fileModifyTimeMap (fst (transformEvent w evts)) !! p) ->
      is_Some (fileModifyTimeMap w !! p) \/ mkFSEvent p ∈ namesOf evts).
Proof.
  revert w. induction evts as [|[stat evt] rest IH]; intros w.
  - simpl. repeat split; auto; lia.
  - rewrite transformEvent_cons. simpl.
    destruct (transformStep_stored stat w evt p) as (H1 & H2 & H3).
    destruct (IH (fst (transformStep stat w evt))) as (I1 & I2 & I3).
    repeat split; [lia|auto|].
    intros H. destruct (I3 H) as [H'|H']; [|right; by right].
    destruct (H3 H') as [H''| ->]; [by left|right; by left].
Qed.

(** The theorem for a file whose modification time goes back after it was
    accepted: the stored timestamp stays. *)
Lemma transformEvent_stored_witness :
  storedTime (fst (transformEvent emptyWorld
                     [(fileAt "a.txt" someTime, mkEvent "a.txt" Write);
                      (fileAt "a.txt" (someTime - Second), mkEvent "a.txt" Write)]))
    "a.txt" = someTime
  /\ is_Some (fileModifyTimeMap
                (fst (transformEvent (mkWorld ∅ ∅ {["a.txt" := someTime]})
                        [(nothingAt, mkEvent "a.txt" Rename)])) !! "a.txt").
Proof.
  split; [reflexivity|].
  apply (transformEvent_stored (mkWorld ∅ ∅ {["a.txt" := someTime]})
           [(nothingAt, mkEvent "a.txt" Rename)] "a.txt").
  by eexists.
Defined.

Lemma transformStep_fsw stat w evt x :
  (x ∈ fsw (fst (transformStep stat w evt)) ->
   x ∈ fsw w \/ (ev_Op evt = Create /\ x = filepath_Clean (ev_Name evt)))
  /\ (x ∈ fsw w -> x ∈ fsw (fst (transformStep stat w evt))
                   \/ (ev_Op evt = Remove /\ x = filepath_Clean (ev_Name evt))).
Proof.
  unfold transformStep.
  destruct ((ev_Op evt =? Create) && IsDirectory stat (ev_Name evt)) eqn:Hdir;
    cbn [fst fsw fsw_Add].
  - apply andb_true_iff in Hdir as [Hop _]. apply Z.eqb_eq in Hop.
    rewrite elem_of_union, elem_of_singleton. split; [tauto|]. intros Hx. left. by right.
  - destruct (ev_Op evt =? Remove) eqn:Hop; cbn [fst].
    + apply Z.eqb_eq in Hop. unfold fsw_Remove.
      destruct (decide _); cbn [fst fsw]; [|tauto].
      rewrite elem_of_difference, elem_of_singleton. split; [tauto|].
      intros Hx. destruct (decide (x = filepath_Clean (ev_Name evt))); [by right|left; tauto].
    + destruct (IsChanged _ _ _) as [[|] m]; cbn [fst fsw]; tauto.
Qed.

(** X17.  Over any run of notifications a path is watched afterwards only if
    it was watched before or a [Create] notification named it, and a path
    watched before is still watched unless a [Remove] notification named it,
    the names of the notifications being compared as the watcher cleans
    them. *)
Theorem transformEvent_fsw (w : World) (evts : list (Stat * Event)) :
  fsw (fst (transformEvent w evts)) ⊆ fsw w ∪ pathsWithOp Create evts
  /\ fsw w ∖ pathsWithOp Remove evts ⊆ fsw (fst (transformEvent w evts)).
Proof.
  revert w. induction evts as [|[stat evt] rest IH]; intros w.
  - simpl. split; intros x; rewrite ?elem_of_union, ?elem_of_difference; tauto.
  - rewrite transformEvent_cons. cbn [fst].
    destruct (IH (fst (transformStep stat w evt))) as [Hup Hdown].
    assert (Hcons : forall op x,
               x ∈ pathsWithOp op ((stat, evt) :: rest)
               <-> (ev_Op evt = op /\ x = filepath_Clean (ev_Name evt))
                   \/ x ∈ pathsWithOp op rest).
    { intros op x. unfold pathsWithOp.
      destruct (decide (ev_Op evt = op)) as [Hop|Hop].
      - rewrite filter_cons_True by done. cbn [map list_to_set snd].
        rewrite elem_of_union, elem_of_singleton. tauto.
      - rewrite filter_cons_False by done. tauto. }
    split; intros x Hx.
    + apply Hup in Hx. rewrite elem_of_union in *. rewrite Hcons.
      destruct Hx as [Hx|Hx]; [|tauto].
      apply (transformStep_fsw stat w evt x) in Hx. tauto.
    + apply Hdown. rewrite elem_of_difference in *. rewrite Hcons in Hx.
      destruct Hx as [Hx Hno].
      destruct (proj2 (transformStep_fsw stat w evt x) Hx) as [H|H]; [|tauto].
      split; [done|tauto].
Qed.

(** The theorem for the walk's watch on ["sub"] and the notification, from
    the watch on ["."], that ["./sub"] was removed: the watch is gone. *)
Lemma transformEvent_fsw_witness :
  pathsWithOp Remove [(nothingAt, mkEvent "./sub" Remove)] = {["sub"]}
  /\ fsw (fst (transformEvent (fsw_Add "sub" emptyWorld)
                 [(nothingAt, mkEvent "./sub" Remove)]))
       ⊆ fsw (fsw_Add "sub" emptyWorld)
         ∪ pathsWithOp Create [(nothingAt, mkEvent "./sub" Remove)].
Proof.
  split; [by vm_compute|].
  apply (transformEvent_fsw (fsw_Add "sub" emptyWorld)
           [(nothingAt, mkEvent "./sub" Remove)]).
Defined.

(** ** More on the trigger engine *)

Section MoreEngine.

Variable Matches : string -> list string -> bool * option GoError.
Variable env : list string.
Variable tg : TriggerEvent.

Lemma liveStep_stop cur exited sig :
  liveStep [cur] (stopAction cur exited (Some sig)) = [].
Proof.
  destruct exited; simpl; by rewrite filter_cons_False by (intros H; by apply H).
Qed.

Lemma startsOf_stop cur exited sig rest :
  startsOf (stopAction cur exited sig :: rest) = startsOf rest.
Proof. unfold startsOf. destruct exited; simpl; by rewrite filter_cons_False by done. Qed.

Lemma sleepsOf_stop cur exited sig rest :
  sleepsOf (stopAction cur exited sig :: rest) = sleepsOf rest.
Proof. unfold sleepsOf. destruct exited; simpl; by rewrite filter_cons_False by done. Qed.

(** The starts and sleeps among the reactions to a run of events. *)
Lemma reactions_counts arrivals closeExited :
  forall cur,
    startsOf (fst (reactions Matches env tg cur arrivals closeExited))
    = map (fun c => ActStart c (Command tg) env)
        (seq (S cur) (restarts Matches tg arrivals))
    /\ sleepsOf (fst (reactions Matches env tg cur arrivals closeExited))
       = replicate (restarts Matches tg arrivals) (ActSleep (delayDuration tg)).
Proof.
  induction arrivals as [|a rest IH]; intros cur.
  - cbn [reactions restarts fst]. rewrite startsOf_stop, sleepsOf_stop. by split.
  - cbn [reactions restarts].
    destruct (Matches (fse_Name (arr_evt a)) (Pattens tg)) as [[|] [err|]];
      try (by split); [|apply IH].
    specialize (IH (S cur)).
    destruct (reactions Matches env tg (S cur) rest closeExited) as [trace outcome].
    cbn [fst] in *. rewrite startsOf_stop, sleepsOf_stop.
    unfold startsOf, sleepsOf in *.
    rewrite (filter_cons_False _ (ActSleep _)) by done.
    rewrite (filter_cons_True _ (ActStart _ _ _)) by done.
    rewrite (filter_cons_True _ (ActSleep _)) by done.
    rewrite (filter_cons_False _ (ActStart _ _ _)) by done.
    destruct IH as [-> ->]. by split.
Qed.

(** The reactions end in a return exactly when the matcher fails at no
    event. *)
Lemma reactions_outcome arrivals closeExited :
  forall cur,
    snd (reactions Matches env tg cur arrivals closeExited) = Returned
    <-> matcherSound Matches tg arrivals.
Proof.
  induction arrivals as [|a rest IH]; intros cur.
  - cbn. split; [constructor|done].
  - cbn [reactions]. unfold matcherSound. rewrite Forall_cons.
    fold (matcherSound Matches tg rest).
    destruct (Matches (fse_Name (arr_evt a)) (Pattens tg)) as [[|] [err|]]; cbn [snd].
    + split; [done|]. by intros [? _].
    + rewrite <- (IH (S cur)).
      destruct (reactions Matches env tg (S cur) rest closeExited). cbn [snd]. tauto.
    + split; [done|]. by intros [? _].
    + rewrite <- (IH cur). tauto.
Qed.

(** How the reactions to a run of events end, whatever the signal, from a
    state in which [cur] is among the live commands: a return ends with
    [wg.Done()]; at a fatal error [wg.Done()] has not been called and the
    command started last is live. *)
Lemma reactions_end arrivals closeExited :
  forall cur live,
    cur ∈ live ->
    match reactions Matches env tg cur arrivals closeExited with
    | (trace, Returned) => last trace = Some ActDone
    | (trace, Fatal err) =>
        (ActDone ∉ trace)
        /\ (cur + restarts Matches tg arrivals)%nat ∈ foldl liveStep live trace
    end.
Proof.
  induction arrivals as [|a rest IH]; intros cur live Hcur.
  - done.
  - cbn [reactions restarts].
    destruct (Matches (fse_Name (arr_evt a)) (Pattens tg)) as [[|] [err|]].
    + rewrite Nat.add_0_r. split; [apply not_elem_of_nil|done].
    + specialize (IH (S cur)
                    (liveStep live (stopAction cur (arr_exited a) (killSignal tg))
                     ++ [S cur])%list).
      destruct (reactions Matches env tg (S cur) rest closeExited) as [trace [|err]].
      * assert (Hlast : last trace = Some ActDone)
          by (apply IH, elem_of_app; right; by apply list_elem_of_singleton).
        destruct trace; [done|]. by rewrite !last_cons_cons.
      * destruct IH as [Hdone Hlive];
          [apply elem_of_app; right; by apply list_elem_of_singleton|].
        split.
        -- rewrite !not_elem_of_cons. repeat split; [by destruct (arr_exited a)|done..].
        -- cbn [foldl liveStep]. by rewrite Nat.add_succ_r.
    + rewrite Nat.add_0_r. split; [apply not_elem_of_nil|done].
    + by apply IH.
Qed.

(** The commands live at the end, for a trigger whose signal is set, from a
    state in which [cur] is the one live command. *)
Lemma reactions_live arrivals closeExited sig :
  killSignal tg = Some sig ->
  forall cur,
    foldl liveStep [cur] (fst (reactions Matches env tg cur arrivals closeExited))
    = match snd (reactions Matches env tg cur arrivals closeExited) with
      | Returned => []
      | Fatal _ => [(cur + restarts Matches tg arrivals)%nat]
      end.
Proof.
  intros Hsig. induction arrivals as [|a rest IH]; intros cur.
  - cbn [reactions fst snd foldl]. by rewrite Hsig, liveStep_stop.
  - cbn [reactions restarts].
    destruct (Matches (fse_Name (arr_evt a)) (Pattens tg)) as [[|] [err|]].
    + by rewrite Nat.add_0_r.
    + specialize (IH (S cur)).
      destruct (reactions Matches env tg (S cur) rest closeExited) as [trace outcome].
      cbn [fst snd foldl] in *. rewrite Hsig, liveStep_stop. cbn [liveStep app].
      rewrite IH. destruct outcome; [done|]. by rewrite Nat.add_succ_r.
    + by rewrite Nat.add_0_r.
    + apply IH.
Qed.

End MoreEngine.

(** X18.  A run of the engine starts the command once at the beginning and
    once more for each matching event, every time with the same command line
    and environment, and sleeps the trigger's delay once per matching event:
    matching events that arrive in a burst are not coalesced. *)
Theorem WatchEvent_restarts
    (Matches : string -> list string -> bool * option GoError)
    (osEnviron : list string) (rangeOrder : gmap string string -> list (string * string))
    (tge : TriggerEvent) (arrivals : list Arrival) (closeExited : bool) :
  startsOf (fst (WatchEvent Matches osEnviron rangeOrder tge arrivals closeExited))
  = map (fun c => ActStart c (Command tge) (startEnv osEnviron rangeOrder tge))
      (seq 0 (S (restarts Matches tge arrivals)))
  /\ sleepsOf (fst (WatchEvent Matches osEnviron rangeOrder tge arrivals closeExited))
     = replicate (restarts Matches tge arrivals) (ActSleep (delayDuration tge)).
Proof.
  rewrite WatchEvent_unfold.
  pose proof (reactions_counts Matches (startEnv osEnviron rangeOrder tge) tge
                arrivals closeExited 0%nat) as [Hs Hz].
  destruct (reactions _ _ _ _ _ _) as [trace outcome]. cbn [fst] in *.
  unfold startsOf, sleepsOf in *.
  rewrite filter_cons_True by done. rewrite filter_cons_False by done.
  by rewrite Hs, Hz.
Qed.

(** X19.  A run that returns ends with [wg.Done()], and for a trigger whose
    signal is set it has by then stopped every command it started.  A run
    that [log.Fatal] ends never calls [wg.Done()] and leaves the command it
    started last running; for a trigger whose signal is set that is the only
    command left running. *)
Theorem WatchEvent_shutdown
    (Matches : string -> list string -> bool * option GoError)
    (osEnviron : list string) (rangeOrder : gmap string string -> list (string * string))
    (tge : TriggerEvent) (arrivals : list Arrival) (closeExited : bool) :
  match WatchEvent Matches osEnviron rangeOrder tge arrivals closeExited with
  | (trace, Returned) =>
      last trace = Some ActDone
      /\ (killSignal tge <> None -> liveAfter trace = [])
  | (trace, Fatal err) =>
      (ActDone ∉ trace)
      /\ restarts Matches tge arrivals ∈ liveAfter trace
      /\ (killSignal tge <> None -> liveAfter trace = [restarts Matches tge arrivals])
  end.
Proof.
  rewrite WatchEvent_unfold.
  assert (H0 : 0%nat ∈ [0%nat]) by (by apply list_elem_of_singleton).
  pose proof (reactions_end Matches (startEnv osEnviron rangeOrder tge) tge
                arrivals closeExited 0%nat [0%nat] H0) as Hend.
  pose proof (fun sig Hs => reactions_live Matches (startEnv osEnviron rangeOrder tge)
                tge arrivals closeExited sig Hs 0%nat) as Hlive.
  destruct (reactions _ _ _ _ _ _) as [trace [|err]]; cbn [fst snd] in *.
  - split.
    + destruct trace; [done|]. by rewrite last_cons_cons.
    + intros Hsig. destruct (killSignal tge) as [sig|]; [|done].
      exact (Hlive sig eq_refl).
  - destruct Hend as [Hdone Hlast]. split; [|split].
    + rewrite not_elem_of_cons. by split.
    + exact Hlast.
    + intros Hsig. destruct (killSignal tge) as [sig|]; [|done].
      exact (Hlive sig eq_refl).
Qed.

(** The theorem for the trigger of [{cmd: sleep 34}] and one change of
    ["main.go"]: when the run returns, both commands have been stopped. *)
Lemma WatchEvent_shutdown_witness :
  liveAfter (fst (WatchEvent literalMatches [] map_to_list
                    (sleepTrigger "HUP" (Some SIGHUP))
                    [mkArrival (mkFSEvent "main.go") false] false)) = [].
Proof.
  pose proof (WatchEvent_shutdown literalMatches [] map_to_list
                (sleepTrigger "HUP" (Some SIGHUP))
                [mkArrival (mkFSEvent "main.go") false] false) as H.
  destruct (WatchEvent literalMatches [] map_to_list (sleepTrigger "HUP" (Some SIGHUP))
              [mkArrival (mkFSEvent "main.go") false] false) as [trace [|err]] eqn:E.
  - apply H. discriminate.
  - by vm_compute in E.
Defined.

(** X20.  A run of the engine returns exactly when the matcher fails at no
    event of the run; one failure, at a matching event or not, ends the
    program. *)
Theorem WatchEvent_returns_iff
    (Matches : string -> list string -> bool * option GoError)
    (osEnviron : list string) (rangeOrder : gmap string string -> list (string * string))
    (tge : TriggerEvent) (arrivals : list Arrival) (closeExited : bool) :
  snd (WatchEvent Matches osEnviron rangeOrder tge arrivals closeExited) = Returned
  <-> matcherSound Matches tge arrivals.
Proof.
  rewrite WatchEvent_unfold.
  rewrite <- (reactions_outcome Matches (startEnv osEnviron rangeOrder tge) tge
                arrivals closeExited 0%nat).
  by destruct (reactions _ _ _ _ _ _) as [trace outcome].
Qed.

(** ** The dispatcher of [drainEvent] *)

Lemma receivedOn_app eC ops1 ops2 :
  receivedOn eC (ops1 ++ ops2) = (receivedOn eC ops1 ++ receivedOn eC ops2)%list.
Proof. unfold receivedOn. by rewrite filter_app, map_app. Qed.

(** Among operations that address each channel of [chans] once, the receiver
    of a channel of [chans] sees one, and any other receiver none. *)
Lemma receivedOn_each (mk : nat -> ChanOp) eC chans :
  (forall c, opChan (mk c) = c) ->
  NoDup chans ->
  receivedOn eC (map mk chans)
  = if bool_decide (eC ∈ chans) then [opValue (mk eC)] else [].
Proof.
  intros Hmk. unfold receivedOn.
  induction chans as [|c chans IH]; intros Hnd; [done|].
  apply NoDup_cons in Hnd as [Hc Hnd]. specialize (IH Hnd). cbn [map].
  destruct (decide (c = eC)) as [->|Hne].
  - rewrite filter_cons_True by apply Hmk.
    rewrite bool_decide_eq_true_2 by (apply elem_of_cons; by left).
    rewrite bool_decide_eq_false_2 in IH by done.
    cbn [map]. by rewrite IH.
  - rewrite filter_cons_False by (by rewrite Hmk).
    rewrite IH. rewrite (bool_decide_ext (eC ∈ c :: chans) (eC ∈ chans)); [done|].
    rewrite elem_of_cons. split; [|by right]. by intros [->|H].
Qed.

Lemma receivedOn_dispatcher eC chans global :
  NoDup chans ->
  receivedOn eC (dispatcher chans global)
  = if bool_decide (eC ∈ chans) then (map Some global ++ [None])%list else [].
Proof.
  intros Hnd. unfold dispatcher. rewrite receivedOn_app.
  rewrite (receivedOn_each ChClose) by done.
  assert (Hsend : receivedOn eC (flat_map (fanOut chans) global)
                  = if bool_decide (eC ∈ chans) then map Some global else []).
  { induction global as [|evt global IH]; [by destruct (bool_decide _)|].
    cbn [flat_map]. rewrite receivedOn_app, IH. unfold fanOut.
    rewrite (receivedOn_each (fun c => ChSend c evt)) by done.
    by destruct (bool_decide _). }
  rewrite Hsend. by destruct (bool_decide _).
Qed.

(** X21.  The dispatcher broadcasts: the channel of every trigger receives
    every event sent on the global channel, in the order sent, each once, and
    is closed once after the last of them; no other channel is used. *)
Theorem dispatcher_broadcast (fwc : FWConfig) (global : list FSEvent) (eC : nat) :
  receivedOn eC (dispatcher (drainChannels fwc) global)
  = if decide (eC < length (Triggers fwc))%nat
    then (map Some global ++ [None])%list else [].
Proof.
  unfold drainChannels. rewrite receivedOn_dispatcher by apply NoDup_seq.
  destruct (decide (eC < length (Triggers fwc))%nat) as [Hlt|Hge].
  - rewrite bool_decide_eq_true_2; [done|]. apply elem_of_seq. lia.
  - rewrite bool_decide_eq_false_2; [done|]. rewrite elem_of_seq. lia.
Qed.

(** ** Reading the configuration *)

Lemma list_ascii_of_string_app (a b : string) :
  list_ascii_of_string (a +:+ b)
  = (list_ascii_of_string a ++ list_ascii_of_string b)%list.
Proof. induction a as [|c a IH]; [done|]. simpl. by rewrite IH. Qed.

Lemma string_of_list_ascii_app (a b : list ascii) :
  string_of_list_ascii (a ++ b) = string_of_list_ascii a +:+ string_of_list_ascii b.
Proof. induction a as [|c a IH]; [done|]. simpl. by rewrite IH. Qed.

(** What the scan returns is empty or a suffix of the path. *)
Lemma extScan_suffix backwards acc :
  extScan backwards acc = []
  \/ exists before, (rev backwards ++ acc)%list = (before ++ extScan backwards acc)%list.
Proof.
  revert acc. induction backwards as [|c rest IH]; intros acc; [by left|].
  cbn [extScan]. destruct (isSlash c); [by left|].
  destruct (byte_val c =? 46).
  - right. exists (rev rest). cbn [rev]. by rewrite <- app_assoc.
  - destruct (IH (c :: acc)) as [H|[before H]]; [by left|right].
    exists before. cbn [rev]. by rewrite <- app_assoc.
Qed.

(** The scan passes over bytes that are neither a dot nor a separator. *)
Lemma extScan_plain tail dot rest acc :
  forallb (fun c => negb (isSlash c) && negb (byte_val c =? 46)) tail = true ->
  isSlash dot = false -> (byte_val dot =? 46) = true ->
  extScan (tail ++ dot :: rest) acc = dot :: (rev tail ++ acc)%list.
Proof.
  revert acc. induction tail as [|c tail IH]; intros acc Hplain Hslash Hdot.
  - cbn [app extScan rev]. by rewrite Hslash, Hdot.
  - cbn [forallb] in Hplain. apply andb_true_iff in Hplain as [Hc Hplain].
    apply andb_true_iff in Hc as [Hc1 Hc2].
    apply negb_true_iff in Hc1, Hc2.
    cbn [app extScan]. rewrite Hc1, Hc2, IH by done.
    cbn [rev]. by rewrite <- app_assoc.
Qed.

Lemma filepath_Ext_suffix path :
  filepath_Ext path = "" \/ hasSuffix (filepath_Ext path) path.
Proof.
  unfold filepath_Ext, hasSuffix.
  destruct (extScan_suffix (rev (list_ascii_of_string path)) []) as [->|[before H]];
    [by left|right].
  rewrite rev_involutive, app_nil_r in H.
  exists (string_of_list_ascii before).
  by rewrite <- string_of_list_ascii_app, <- H, string_of_list_ascii_of_string.
Qed.

(** The extension of a path that ends with a dot and plain bytes. *)
Lemma filepath_Ext_of base tail :
  forallb (fun c => negb (isSlash c) && negb (byte_val c =? 46))
    (rev (list_ascii_of_string tail)) = true ->
  filepath_Ext (base +:+ String "." tail) = String "." tail.
Proof.
  intros Hplain. unfold filepath_Ext.
  rewrite list_ascii_of_string_app, rev_app_distr. cbn [list_ascii_of_string rev].
  rewrite <- app_assoc. cbn [app].
  rewrite extScan_plain; [|done..].
  rewrite rev_involutive, app_nil_r. cbn [string_of_list_ascii].
  by rewrite string_of_list_ascii_of_string.
Qed.

Lemma filepath_Ext_yml path : filepath_Ext path = ".yml" <-> hasSuffix ".yml" path.
Proof.
  split.
  - intros H. destruct (filepath_Ext_suffix path) as [H'|H']; by rewrite H in H'.
  - intros [base ->]. by apply filepath_Ext_of.
Qed.

Lemma filepath_Ext_json path : filepath_Ext path = ".json" <-> hasSuffix ".json" path.
Proof.
  split.
  - intros H. destruct (filepath_Ext_suffix path) as [H'|H']; by rewrite H in H'.
  - intros [base ->]. by apply filepath_Ext_of.
Qed.

Section ReadConfigProofs.

Variable signalMaps : gmap string Z.
Variable ReadIgnore : string -> list string * option GoError.
Variable readFile : string -> option string.
Variable yamlUnmarshal : string -> FWConfig * option string.
Variable jsonUnmarshal : string -> FWConfig * option string.

Lemma fixFWConfig_ready inp out :
  fixFWConfig signalMaps ReadIgnore inp = (out, None) ->
  ready signalMaps ReadIgnore out.
Proof.
  unfold fixFWConfig.
  destruct (fixTriggers signalMaps ReadIgnore (Triggers inp)) as [tgs [e|]] eqn:Htgs;
    [discriminate|].
  intros H. inversion H; subst out; clear H. repeat split; cbn.
  - destruct (decide (length (WatchPaths inp) = 0%nat)) as [Hl|Hl].
    + by destruct (WatchPaths inp).
    + intros Hnil. by rewrite Hnil in Hl.
  - by destruct (decide (WatchDepth inp = 0)).
  - clear -Htgs. revert tgs Htgs.
    induction (Triggers inp) as [|tin tins IH]; intros tgs H; cbn in H.
    + inversion H. constructor.
    + destruct (fixTrigger signalMaps ReadIgnore tin) as [tout [e|]] eqn:Htg;
        [discriminate|].
      destruct (fixTriggers signalMaps ReadIgnore tins) as [rest err] eqn:Hrest.
      inversion H; subst. constructor; [|by apply IH].
      destruct (fixTrigger_success _ _ _ _ Htg) as (d & ps & Hparse & Hread & ->).
      repeat split; cbn; try done; by apply defaulted_nonempty.
Qed.

Lemma readFWConfig_skip unreadable paths :
  Forall (fun p => readFile p = None) unreadable ->
  readFWConfig signalMaps ReadIgnore readFile yamlUnmarshal jsonUnmarshal
    (unreadable ++ paths)
  = readFWConfig signalMaps ReadIgnore readFile yamlUnmarshal jsonUnmarshal paths.
Proof.
  induction 1 as [|p ps Hp _ IH]; [done|]. cbn [app readFWConfig].
  by rewrite Hp.
Qed.

Lemma afterUnmarshal_ready decoded :
  snd (afterUnmarshal signalMaps ReadIgnore decoded) = None ->
  ready signalMaps ReadIgnore (fst (afterUnmarshal signalMaps ReadIgnore decoded)).
Proof.
  destruct decoded as [fwc [er|]]; [discriminate|]. unfold afterUnmarshal.
  destruct (fixFWConfig signalMaps ReadIgnore fwc) as [out [e|]] eqn:Hfix;
    [discriminate|].
  intros _. by apply (fixFWConfig_ready fwc).
Qed.

Lemma readOne_format cfgPath data :
  (hasSuffix ".yml" cfgPath ->
   readOne signalMaps ReadIgnore yamlUnmarshal jsonUnmarshal cfgPath data
   = afterUnmarshal signalMaps ReadIgnore (yamlUnmarshal data))
  /\ (hasSuffix ".json" cfgPath ->
      readOne signalMaps ReadIgnore yamlUnmarshal jsonUnmarshal cfgPath data
      = afterUnmarshal signalMaps ReadIgnore (jsonUnmarshal data))
  /\ (~ hasSuffix ".yml" cfgPath -> ~ hasSuffix ".json" cfgPath ->
      readOne signalMaps ReadIgnore yamlUnmarshal jsonUnmarshal cfgPath data
      = (zeroFWConfig, Some (ErrUnknownFormat cfgPath))).
Proof.
  unfold readOne. rewrite <- filepath_Ext_yml, <- filepath_Ext_json.
  destruct (decide (filepath_Ext cfgPath = ".yml")) as [Hy|Hy].
  - repeat split; [|done]. intros Hj. by rewrite Hy in Hj.
  - destruct (decide (filepath_Ext cfgPath = ".json")) as [Hj|Hj]; by repeat split.
Qed.

(** A configuration read without error can be run as it is. *)
Lemma readFWConfig_ready paths :
  snd (readFWConfig signalMaps ReadIgnore readFile yamlUnmarshal jsonUnmarshal paths)
  = None ->
  ready signalMaps ReadIgnore
    (fst (readFWConfig signalMaps ReadIgnore readFile yamlUnmarshal jsonUnmarshal paths)).
Proof.
  induction paths as [|p paths IH]; [discriminate|]. cbn [readFWConfig].
  destruct (readFile p) as [data|]; [|done]. unfold readOne.
  destruct (decide (filepath_Ext p = ".yml")) as [Hy|Hy];
    [|destruct (decide (filepath_Ext p = ".json")) as [Hj|Hj]; [|discriminate]];
    apply afterUnmarshal_ready.
Qed.

End ReadConfigProofs.

(** X22.  [readFWConfig] is decided by the first path it can read: paths that
    cannot be read are passed over, the paths after the first readable one are
    never consulted, even when that file is refused, and when no path can be
    read the error is "Config file not exists" with the zero configuration. *)
Theorem readFWConfig_first_readable
    (signalMaps : gmap string Z) (ReadIgnore : string -> list string * option GoError)
    (readFile : string -> option string)
    (yamlUnmarshal jsonUnmarshal : string -> FWConfig * option string)
    (unreadable : list string) :
  Forall (fun p => readFile p = None) unreadable ->
  readFWConfig signalMaps ReadIgnore readFile yamlUnmarshal jsonUnmarshal unreadable
  = (zeroFWConfig, Some ErrNotExists)
  /\ forall cfgPath data later,
       readFile cfgPath = Some data ->
       readFWConfig signalMaps ReadIgnore readFile yamlUnmarshal jsonUnmarshal
         (unreadable ++ cfgPath :: later)
       = readOne signalMaps ReadIgnore yamlUnmarshal jsonUnmarshal cfgPath data.
Proof.
  intros Hun. split.
  - rewrite <- (app_nil_r unreadable). by rewrite readFWConfig_skip.
  - intros cfgPath data later Hread. rewrite readFWConfig_skip by done.
    cbn [readFWConfig]. by rewrite Hread.
Qed.

(** The theorem for [main]'s call when no [.fsw.json] exists: the YAML file
    decides. *)
Lemma readFWConfig_first_readable_witness :
  readFWConfig (initSignalMaps literalKeys) dockerignore_ReadIgnore
    (filesOf [(FWCONFIG_YAML, "triggers: ...")])
    (fun _ => (generatedConfig, None)) (fun _ => (zeroFWConfig, Some "unexpected end"))
    [FWCONFIG_JSON; FWCONFIG_YAML]
  = readOne (initSignalMaps literalKeys) dockerignore_ReadIgnore
      (fun _ => (generatedConfig, None)) (fun _ => (zeroFWConfig, Some "unexpected end"))
      FWCONFIG_YAML "triggers: ...".
Proof.
  refine (proj2 (readFWConfig_first_readable (initSignalMaps literalKeys)
                   dockerignore_ReadIgnore (filesOf [(FWCONFIG_YAML, "triggers: ...")])
                   (fun _ => (generatedConfig, None))
                   (fun _ => (zeroFWConfig, Some "unexpected end"))
                   [FWCONFIG_JSON] _) FWCONFIG_YAML "triggers: ..." [] _).
  - by repeat constructor.
  - reflexivity.
Defined.

(** X23.  The decoder is chosen by the end of the path alone: a readable path
    ending in [.yml] is decoded as YAML, one ending in [.json] as JSON, and
    any other one, [.yaml] included, is refused with "Unknown format config
    file" whatever it holds. *)
Theorem readFWConfig_format
    (signalMaps : gmap string Z) (ReadIgnore : string -> list string * option GoError)
    (readFile : string -> option string)
    (yamlUnmarshal jsonUnmarshal : string -> FWConfig * option string)
    (cfgPath data : string) (later : list string) :
  readFile cfgPath = Some data ->
  (hasSuffix ".yml" cfgPath ->
   readFWConfig signalMaps ReadIgnore readFile yamlUnmarshal jsonUnmarshal
     (cfgPath :: later)
   = afterUnmarshal signalMaps ReadIgnore (yamlUnmarshal data))
  /\ (hasSuffix ".json" cfgPath ->
      readFWConfig signalMaps ReadIgnore readFile yamlUnmarshal jsonUnmarshal
        (cfgPath :: later)
      = afterUnmarshal signalMaps ReadIgnore (jsonUnmarshal data))
  /\ (~ hasSuffix ".yml" cfgPath -> ~ hasSuffix ".json" cfgPath ->
      readFWConfig signalMaps ReadIgnore readFile yamlUnmarshal jsonUnmarshal
        (cfgPath :: later)
      = (zeroFWConfig, Some (ErrUnknownFormat cfgPath))).
Proof.
  intros Hread. cbn [readFWConfig]. rewrite Hread. apply readOne_format.
Qed.

(** The theorem for a configuration saved as [fsw.yaml]. *)
Lemma readFWConfig_format_witness :
  readFWConfig (initSignalMaps literalKeys) dockerignore_ReadIgnore
    (filesOf [("fsw.yaml", "triggers: ...")])
    (fun _ => (generatedConfig, None)) (fun _ => (generatedConfig, None))
    ["fsw.yaml"; FWCONFIG_YAML]
  = (zeroFWConfig, Some (ErrUnknownFormat "fsw.yaml")).
Proof.
  refine (proj2 (proj2 (readFWConfig_format (initSignalMaps literalKeys)
                          dockerignore_ReadIgnore
                          (filesOf [("fsw.yaml", "triggers: ...")])
                          (fun _ => (generatedConfig, None))
                          (fun _ => (generatedConfig, None))
                          "fsw.yaml" "triggers: ..." [FWCONFIG_YAML] _)) _ _).
  - reflexivity.
  - rewrite <- filepath_Ext_yml. by vm_compute.
  - rewrite <- filepath_Ext_json. by vm_compute.
Defined.

(** X24.  A configuration [readFWConfig] returns without error can be run as
    it is: it names at least one watch path and a depth other than 0, and
    every trigger has a delay string, a signal name, and the duration, signal
    value and pattern list they stand for.  It was read from one of the paths
    given, and that path ends in [.yml] or [.json]. *)
Theorem readFWConfig_success
    (signalMaps : gmap string Z) (ReadIgnore : string -> list string * option GoError)
    (readFile : string -> option string)
    (yamlUnmarshal jsonUnmarshal : string -> FWConfig * option string)
    (paths : list string) :
  snd (readFWConfig signalMaps ReadIgnore readFile yamlUnmarshal jsonUnmarshal paths)
  = None ->
  ready signalMaps ReadIgnore
    (fst (readFWConfig signalMaps ReadIgnore readFile yamlUnmarshal jsonUnmarshal paths))
  /\ exists cfgPath,
       cfgPath ∈ paths /\ is_Some (readFile cfgPath)
       /\ (hasSuffix ".yml" cfgPath \/ hasSuffix ".json" cfgPath).
Proof.
  intros H. split; [by apply readFWConfig_ready|].
  induction paths as [|p paths IH]; [discriminate|]. cbn [readFWConfig] in H.
  destruct (readFile p) as [data|] eqn:Hread.
  - exists p. rewrite Hread. split; [by left|]. split; [by eexists|].
    unfold readOne in H.
    destruct (decide (filepath_Ext p = ".yml")) as [Hy|Hy];
      [left; by apply filepath_Ext_yml|].
    destruct (decide (filepath_Ext p = ".json")) as [Hj|Hj]; [|discriminate].
    right. by apply filepath_Ext_json.
  - destruct (IH H) as (q & Hq & Hsome & Hsuffix).
    exists q. split; [by right|done].
Qed.

(** The theorem for [main]'s call with a [.fsw.yml] that decodes to the
    generated configuration. *)
Lemma readFWConfig_success_witness :
  ready (initSignalMaps literalKeys) dockerignore_ReadIgnore
    (fst (readFWConfig (initSignalMaps literalKeys) dockerignore_ReadIgnore
            (filesOf [(FWCONFIG_YAML, "triggers: ...")])
            (fun _ => (generatedConfig, None))
            (fun _ => (zeroFWConfig, Some "unexpected end"))
            [FWCONFIG_JSON; FWCONFIG_YAML])).
Proof.
  refine (proj1 (readFWConfig_success (initSignalMaps literalKeys)
                   dockerignore_ReadIgnore (filesOf [(FWCONFIG_YAML, "triggers: ...")])
                   (fun _ => (generatedConfig, None))
                   (fun _ => (zeroFWConfig, Some "unexpected end"))
                   [FWCONFIG_JSON; FWCONFIG_YAML] _)).
  by vm_compute.
Defined.

(** ** The generated configuration and the choice of [main] *)

Lemma ParseDuration_100ms : ParseDuration "100ms" = (100 * Millisecond, None).
Proof. by vm_compute. Qed.

(** X25.  The configuration [genFWConfig] returns can be run as it is exactly
    when the pattern reader accepts the three generated patterns, the only
    way its fix-up can fail; it then watches ["."] to depth 5 and holds one
    trigger, with the command given, a delay of 100 ms and the signal
    [HUP]. *)
Theorem genFWConfig_ready
    (signalMaps : gmap string Z) (ReadIgnore : string -> list string * option GoError)
    (name command : string) :
  (ready signalMaps ReadIgnore (genFWConfig signalMaps ReadIgnore name command)
   <-> snd (ReadIgnore (strings_Join generatedPattens (String newline ""))) = None)
  /\ (snd (ReadIgnore (strings_Join generatedPattens (String newline ""))) = None ->
      WatchPaths (genFWConfig signalMaps ReadIgnore name command) = ["."]
      /\ WatchDepth (genFWConfig signalMaps ReadIgnore name command) = 5
      /\ Triggers (genFWConfig signalMaps ReadIgnore name command)
         = [mkTriggerEvent "" generatedPattens
              (fst (ReadIgnore (strings_Join generatedPattens (String newline ""))))
              {["DEBUG" := "1"]} command "100ms" (100 * Millisecond)
              "HUP" (signalMaps !! "HUP") None]).
Proof.
  set (joined := strings_Join generatedPattens (String newline "")).
  unfold genFWConfig, fixFWConfig. cbn [Triggers fixTriggers].
  unfold fixTrigger. cbn [Delay]. rewrite decide_True by done.
  cbn [Delay set_Delay]. rewrite ParseDuration_100ms.
  cbn [Signal set_delayDuration]. rewrite decide_True by done.
  change (strings_Join (Pattens _) (String newline "")) with joined.
  destruct (ReadIgnore joined) as [ps [e|]] eqn:Hread; cbn [fst snd].
  - split; [|discriminate]. split; [|discriminate].
    intros (Hpaths & _). cbn in Hpaths. by destruct Hpaths.
  - split; [|done]. split; [done|]. intros _.
    split; [discriminate|]. split; [discriminate|].
    constructor; [|constructor].
    unfold readyTrigger, set_matchPattens, set_killSignal, set_Signal,
      set_delayDuration, set_Delay.
    cbn [Name Pattens matchPattens Environ Command Delay delayDuration Signal
         killSignal kcmd].
    split; [discriminate|]. split; [discriminate|].
    split; [apply ParseDuration_100ms|]. split; [done|]. exact Hread.
Qed.

(** The theorem for the pattern reader of the examples and the default
    answers. *)
Lemma genFWConfig_ready_witness :
  ready (initSignalMaps literalKeys) dockerignore_ReadIgnore
    (genFWConfig (initSignalMaps literalKeys) dockerignore_ReadIgnore
       "fswatch" "go test -v").
Proof.
  apply (genFWConfig_ready (initSignalMaps literalKeys) dockerignore_ReadIgnore
           "fswatch" "go test -v").
  by vm_compute.
Defined.

